(** * The frame-collection server of the mocap toolkit: [main]

    A shallow embedding of [main] of the stream server (the start-up, the
    start anchor, the cross-camera synchronizer loop and the shutdown) and
    the properties of it that the specification states.

    The C code is rendered as follows.
    - [int], [uint32_t] and [uint64_t] values are integers of [Z]; where the
      code computes in 32 or 64 bits the wrap-around is written out
      ([wrap32], [wrap64]). Loop counters and array indices are [nat].
    - An array is a list, read with [l !! i] and written with [<[i:=x]> l].
    - A pointer to a [struct ts_frame_buf] is an [option ts_frame_buf]:
      [None] is [NULL], [Some f] is a pointer to a struct whose fields read
      [f] while [main] holds it; the address in [frame_buf] tells the
      buffers apart.
    - A read out of the bounds of an array or through [NULL] is a fault:
      the loops live in the [option] monad and [None] is the fault.
    - The calls that leave [main] (queues, logging, threads, network,
      memory) are recorded in a trace of events, and what they return is
      taken from an environment. The worker threads run beside [main];
      all that [main] sees of them is what [lf_queue_dq] returns on the
      filled queues, which the environment gives call by call. *)

From Stdlib Require Import ZArith Lia List Sorted.
From stdpp Require Import base option list.

(** ** Constants of the translation unit *)

Definition TIMESTAMP_DELAY : Z := 1.
Definition FRAME_BUFS_PER_THREAD : Z := 32.
Definition ENOMEM : Z := 12.

Definition wrap64 (z : Z) : Z := (z mod 2 ^ 64)%Z.
Definition wrap32 (z : Z) : Z := (z mod 2 ^ 32)%Z.
Definition is_u64 (z : Z) : Prop := (0 ≤ z < 2 ^ 64)%Z.

(** ** Data *)

(** [struct ts_frame_buf]: the two fields [main] uses. [frame_buf] is the
    address of the pixel region, [timestamp] the capture time in ns. *)
Record ts_frame_buf : Type := TsFrameBuf {
  timestamp : Z;
  frame_buf : Z
}.

Global Instance ts_frame_buf_eq_dec : EqDecision ts_frame_buf.
Proof. solve_decision. Defined.

(** The error messages [main] logs. *)
Inductive log_error : Type :=
| ErrCameraCount
| ErrParseConf
| ErrPin
| ErrAlloc
| ErrSpawn.

Global Instance log_error_eq_dec : EqDecision log_error.
Proof. solve_decision. Defined.

(** What [main] does to the world outside, in the order it does it:
    - [EvPrintf]: the [printf] of line 30;
    - [EvLogError m]: [log(ERROR, ...)];
    - [EvLogSet n t]: the [log(INFO, ...)] of line 209, with the values
      of [complete_sets] and [max_timestamp] it prints;
    - [EvCleanupLogging]: [cleanup_logging()];
    - [EvPin cpu]: [sched_setaffinity] of the process to [cpu];
    - [EvMalloc bytes]: [malloc(bytes)];
    - [EvQueueInit q nodes cap]: [lf_queue_init(&frame_queues[q],
      &nodes[nodes], cap)];
    - [EvSpawn i core]: [pthread_create] succeeded for worker [i], whose
      context names [core];
    - [EvJoin i]: [pthread_join(threads[i], NULL)];
    - [EvFree p]: [free(p)];
    - [EvBroadcast cams payload]: [broadcast_msg] of [payload] to the
      [cams] cameras;
    - [EvNq i p]: [lf_queue_nq(&frame_queues[i*2+1], p)], the handle [p]
      goes to the empty queue of camera [i]. *)
Inductive event : Type :=
| EvPrintf
| EvLogError (m : log_error)
| EvLogSet (n : Z) (t : Z)
| EvCleanupLogging
| EvPin (cpu : Z)
| EvMalloc (bytes : Z)
| EvQueueInit (q : nat) (nodes : nat) (capacity : Z)
| EvSpawn (i : nat) (core : nat)
| EvJoin (i : nat)
| EvFree (p : Z)
| EvBroadcast (cams : nat) (payload : list Z)
| EvNq (i : nat) (p : option ts_frame_buf).

Global Instance event_eq_dec : EqDecision event.
Proof. solve_decision. Defined.

(** ** [for (int i = lo; i < lo + n; i++) body] *)

Fixpoint for_loop {St : Type} (body : nat → St → option St)
    (lo n : nat) (s : St) : option St :=
  match n with
  | O => Some s
  | S n' => s' ← body lo s; for_loop body (S lo) n' s'
  end.

(** ** The synchronizer *)

Section synchronizer.

(** Number of cameras (positive once [main] is past its guard). *)
Variable cam_count : nat.

(** [filled i k] is what the [k]-th call of [lf_queue_dq] on the filled
    queue of camera [i] ([frame_queues[i*2]]) returns: [None] when the
    queue is empty at that moment, a frame otherwise. *)
Variable filled : nat → nat → option ts_frame_buf.

(** The variables of the loop, the number of calls of [lf_queue_dq] made
    so far on each filled queue, and the trace. *)
Record sync_state : Type := SyncState {
  current_frames : list (option ts_frame_buf);
  dq_calls : list nat;
  complete_sets : Z;
  trace : list event
}.

(** Lines 167-177: fetch a frame for every empty slot. *)
Definition fill_body (i : nat)
    (s : list (option ts_frame_buf) * list nat * bool)
    : option (list (option ts_frame_buf) * list nat * bool) :=
  let '(cur, calls, full_set) := s in
  p ← cur !! i;
  match p with
  | Some _ => Some s
  | None =>
      k ← calls !! i;
      let r := filled i k in
      Some (<[i := r]> cur, <[i := S k]> calls,
            match r with None => false | Some _ => full_set end)
  end.

(** Lines 183-187: the maximum of the timestamps, from 0. *)
Definition max_body (cur : list (option ts_frame_buf)) (i : nat) (m : Z)
    : option Z :=
  p ← cur !! i;
  f ← p;
  Some (if (timestamp f >? m)%Z then timestamp f else m).

(** Lines 190-197: recycle what differs from the maximum. *)
Definition align_body (max_timestamp : Z) (i : nat)
    (s : list (option ts_frame_buf) * list event * bool)
    : option (list (option ts_frame_buf) * list event * bool) :=
  let '(cur, tr, all_equal) := s in
  p ← cur !! i;
  f ← p;
  if negb (timestamp f =? max_timestamp)%Z
  then Some (<[i := None]> cur, tr ++ [EvNq i p], false)
  else Some s.

(** Lines 212-215: hand the whole set back. *)
Definition release_body (i : nat)
    (s : list (option ts_frame_buf) * list event)
    : option (list (option ts_frame_buf) * list event) :=
  let '(cur, tr) := s in
  p ← cur !! i;
  Some (<[i := None]> cur, tr ++ [EvNq i p]).

(** Lines 183-197 on their own: the alignment pass over a full set. *)
Definition align_pass (cur : list (option ts_frame_buf))
    : option (Z * list (option ts_frame_buf) * list event * bool) :=
  max_timestamp ← for_loop (max_body cur) 0 cam_count 0%Z;
  '(cur', tr, all_equal) ←
      for_loop (align_body max_timestamp) 0 cam_count (cur, [], true);
  Some (max_timestamp, cur', tr, all_equal).

(** One turn of the body of [while (complete_sets < 100)]. *)
Definition iteration (st : sync_state) : option sync_state :=
  '(cur1, calls1, full_set) ←
      for_loop fill_body 0 cam_count
        (current_frames st, dq_calls st, true);
  if negb full_set
  then Some (SyncState cur1 calls1 (complete_sets st) (trace st))
  else
    '(max_timestamp, cur2, evs, all_equal) ← align_pass cur1;
    if negb all_equal
    then Some (SyncState cur2 calls1 (complete_sets st) (trace st ++ evs))
    else
      let tr3 :=
        trace st ++ evs ++ [EvLogSet (complete_sets st) max_timestamp] in
      '(cur3, tr4) ← for_loop release_body 0 cam_count (cur2, tr3);
      Some (SyncState cur3 calls1 (wrap32 (complete_sets st + 1)) tr4).

(** The loop, for at most [fuel] turns. *)
Fixpoint sync_loop (fuel : nat) (st : sync_state) : option sync_state :=
  match fuel with
  | O => Some st
  | S fuel' =>
      if (complete_sets st <? 100)%Z
      then st' ← iteration st; sync_loop fuel' st'
      else Some st
  end.

(** Lines 159-163: every slot [NULL], nothing counted. *)
Definition sync_init (tr : list event) : sync_state :=
  SyncState (replicate cam_count None) (replicate cam_count 0) 0 tr.

End synchronizer.

(** ** Buffer pool set-up (lines 89-103) *)

(** [cam_count * FRAME_BUFS_PER_THREAD], an [int] product stored in a
    [uint64_t]. *)
Definition frame_bufs_count (cam_count : Z) : Z :=
  wrap64 (cam_count * FRAME_BUFS_PER_THREAD).

(** [DECODED_FRAME_WIDTH * DECODED_FRAME_HEIGHT * 1.5] stored in a
    [uint64_t]. The two macros are declared outside this file and are
    parameters here. This is the value of line 92 when the product of
    the two is a non-negative [int], [0 ≤ width * height < 2 ^ 31]: the
    double is then exact and the conversion drops the half. Outside this
    range the [int] product overflows, which C leaves undefined, and the
    definition says nothing about the program. *)
Definition decoded_frame_buf_size (width height : Z) : Z :=
  wrap64 (width * height * 3 / 2).

(** The argument of [malloc]. *)
Definition frame_bufs_bytes (count frame_buf_size : Z) : Z :=
  wrap64 (count * frame_buf_size).

Definition set_frame_buf (p : Z) (b : ts_frame_buf) : ts_frame_buf :=
  TsFrameBuf (timestamp b) p.

(** Lines 100-103; [frame_bufs] is the address [malloc] returned. The
    counter is an [unsigned] and the offset a [size_t]. *)
Definition init_body (frame_bufs frame_buf_size : Z) (i : nat)
    (ts_frame_bufs : list ts_frame_buf) : option (list ts_frame_buf) :=
  b ← ts_frame_bufs !! i;
  let offset := wrap64 (Z.of_nat i * frame_buf_size) in
  Some (<[i := set_frame_buf (frame_bufs + offset) b]> ts_frame_bufs).

Definition init_frame_bufs (frame_bufs frame_buf_size count : Z)
    (ts_frame_bufs : list ts_frame_buf) : option (list ts_frame_buf) :=
  for_loop (init_body frame_bufs frame_buf_size) 0 (Z.to_nat count)
    ts_frame_bufs.

(** ** Messages to the cameras *)

(** Line 156: [(ts.tv_sec + TIMESTAMP_DELAY) * 1000000000ULL + ts.tv_nsec],
    evaluated in [unsigned long long]. *)
Definition start_anchor (tv_sec tv_nsec : Z) : Z :=
  wrap64 (wrap64 (wrap64 (tv_sec + TIMESTAMP_DELAY) * 1000000000)
          + wrap64 tv_nsec).

(** The clock reading in nanoseconds, as a [uint64_t]. *)
Definition now_ns (tv_sec tv_nsec : Z) : Z :=
  wrap64 (tv_sec * 1000000000 + tv_nsec).

(** The [n] bytes of an object holding [z], lowest byte first (the host
    is little-endian). *)
Fixpoint object_bytes (n : nat) (z : Z) : list Z :=
  match n with
  | O => []
  | S n' => (z mod 256)%Z :: object_bytes n' (z / 256)%Z
  end.

Fixpoint le_value (bs : list Z) : Z :=
  match bs with
  | [] => 0%Z
  | b :: bs' => (b + 256 * le_value bs')%Z
  end.

Definition sizeof_uint64 : nat := 8.

(** The array behind the literal ["STOP"]. *)
Definition stop_msg : list Z := [83; 84; 79; 80; 0]%Z.

Fixpoint strlen (s : list Z) : nat :=
  match s with
  | [] => 0
  | c :: s' => if (c =? 0)%Z then 0 else S (strlen s')
  end.

(** [broadcast_msg(confs, cam_count, buf, size)]: [size] bytes from [buf]
    go to each of the [cam_count] cameras. *)
Definition broadcast_msg (cam_count : nat) (buf : list Z) (size : nat)
    : event :=
  EvBroadcast cam_count (take size buf).

(** ** [main] *)

(** What [main] takes from outside: the two macros of the decoder's
    header, the indeterminate contents of the array [ts_frame_bufs] when
    it is declared, and what the calls return. *)
Record env : Type := Env {
  DECODED_FRAME_WIDTH : Z;
  DECODED_FRAME_HEIGHT : Z;
  indeterminate : nat → ts_frame_buf;
  setup_logging_ret : Z;
  errno_setup_logging : Z;
  count_cameras_ret : Z;
  parse_conf_ret : Z;
  sched_setaffinity_ret : Z;
  errno_sched_setaffinity : Z;
  malloc_ret : Z;
  pthread_create_ret : nat → Z;
  tv_sec : Z;
  tv_nsec : Z;
  filled_dq : nat → nat → option ts_frame_buf
}.

(** How [main] ends: it returns, it is still in its loop when the fuel
    runs out, or it reads out of bounds or through [NULL]. *)
Inductive outcome : Type :=
| Returned (ret : Z)
| Running
| Fault.

(** Lines 123-128: the empty queue of camera [i] gets the camera's
    buffers. *)
Definition prime_slot (ts_frame_bufs : list ts_frame_buf) (i offset : nat)
    (j : nat) (tr : list event) : option (list event) :=
  b ← ts_frame_bufs !! (offset + j);
  Some (tr ++ [EvNq i (Some b)]).

(** Lines 108-129. *)
Definition prime_body (ts_frame_bufs : list ts_frame_buf) (i : nat)
    (tr : list event) : option (list event) :=
  let offset := i * Z.to_nat FRAME_BUFS_PER_THREAD in
  for_loop (prime_slot ts_frame_bufs i offset) 0
    (Z.to_nat FRAME_BUFS_PER_THREAD)
    (tr ++ [EvQueueInit (i * 2) offset FRAME_BUFS_PER_THREAD;
            EvQueueInit (i * 2 + 1) offset FRAME_BUFS_PER_THREAD]).

(** Lines 133-152. [inl] is the early return of line 150. *)
Fixpoint spawn_loop (create : nat → Z) (lo n : nat) (tr : list event)
    (ret : Z) : (list event * Z) + (list event * Z) :=
  match n with
  | O => inr (tr, ret)
  | S n' =>
      let ret := create lo in
      if negb (ret =? 0)%Z
      then inl (tr, ret)
      else spawn_loop create (S lo) n' (tr ++ [EvSpawn lo (lo mod 8)]) ret
  end.

(** Lines 22-157: [inl] is an early end of [main], [inr] the trace and
    the value of [ret] when [main] reaches its loop. *)
Definition main_startup (e : env)
    : (list event * outcome) + (list event * Z) :=
  let ret := setup_logging_ret e in
  if negb (ret =? 0)%Z
  then inl ([EvPrintf], Returned (- errno_setup_logging e))
  else
  let cam_count := count_cameras_ret e in
  if (cam_count <=? 0)%Z
  then inl ([EvLogError ErrCameraCount; EvCleanupLogging], Returned cam_count)
  else
  let ret := parse_conf_ret e in
  if negb (ret =? 0)%Z
  then inl ([EvLogError ErrParseConf; EvCleanupLogging], Returned ret)
  else
  let tr := [EvPin (cam_count mod 8)] in
  let ret := sched_setaffinity_ret e in
  if (ret =? -1)%Z
  then inl (tr ++ [EvLogError ErrPin; EvCleanupLogging],
            Returned (- errno_sched_setaffinity e))
  else
  let count := frame_bufs_count cam_count in
  let ts_frame_bufs := indeterminate e <$> seq 0 (Z.to_nat count) in
  let frame_buf_size :=
    decoded_frame_buf_size (DECODED_FRAME_WIDTH e) (DECODED_FRAME_HEIGHT e) in
  let tr := tr ++ [EvMalloc (frame_bufs_bytes count frame_buf_size)] in
  let frame_bufs := malloc_ret e in
  if (frame_bufs =? 0)%Z
  then inl (tr ++ [EvLogError ErrAlloc; EvCleanupLogging], Returned (- ENOMEM))
  else
  match init_frame_bufs frame_bufs frame_buf_size count ts_frame_bufs with
  | None => inl (tr, Fault)
  | Some ts_frame_bufs =>
      let n := Z.to_nat cam_count in
      match for_loop (prime_body ts_frame_bufs) 0 n tr with
      | None => inl (tr, Fault)
      | Some tr =>
          match spawn_loop (pthread_create_ret e) 0 n tr ret with
          | inl (tr, ret) =>
              inl (tr ++ [EvLogError ErrSpawn; EvFree frame_bufs;
                          EvCleanupLogging],
                   Returned ret)
          | inr (tr, ret) =>
              let timestamp := start_anchor (tv_sec e) (tv_nsec e) in
              inr (tr ++ [broadcast_msg n
                            (object_bytes sizeof_uint64 timestamp)
                            sizeof_uint64],
                   ret)
          end
      end
  end.

(** Lines 220-229. *)
Definition main_shutdown (e : env) : list event :=
  let n := Z.to_nat (count_cameras_ret e) in
  [broadcast_msg n stop_msg (strlen stop_msg)]
  ++ map EvJoin (seq 0 n)
  ++ [EvFree (malloc_ret e); EvCleanupLogging].

(** [main], with fuel for its loop. *)
Definition main (fuel : nat) (e : env) : list event * outcome :=
  match main_startup e with
  | inl r => r
  | inr (tr, ret) =>
      let n := Z.to_nat (count_cameras_ret e) in
      match sync_loop n (filled_dq e) fuel (sync_init n tr) with
      | None => (tr, Fault)
      | Some st =>
          if (complete_sets st <? 100)%Z
          then (trace st, Running)
          else (trace st ++ main_shutdown e, Returned ret)
      end
  end.

(** ** The slot array *)

(** Every one of the first [n] slots holds a frame. *)
Definition full_set_of (n : nat) (cur : list (option ts_frame_buf)) : Prop :=
  ∀ i, i < n → ∃ f, cur !! i = Some (Some f).

(** Both arrays of the synchronizer have one entry per camera. *)
Definition wf_state (n : nat) (st : sync_state) : Prop :=
  length (current_frames st) = n ∧ length (dq_calls st) = n.

(** The test of line 192 on one slot, and what lines 192-196 leave in the
    slot and send to the empty queue. *)
Definition matches (m : Z) (p : option ts_frame_buf) : bool :=
  match p with
  | Some f => (timestamp f =? m)%Z
  | None => false
  end.

Definition retain (m : Z) (p : option ts_frame_buf) : option ts_frame_buf :=
  if matches m p then p else None.

Definition recycle_event (m : Z) (i : nat) (p : option ts_frame_buf)
    : list event :=
  if matches m p then [] else [EvNq i p].

(** What lines 168-176 leave in a slot and in its call counter. *)
Definition fetch (filled : nat → nat → option ts_frame_buf) (i : nat)
    (pc : option ts_frame_buf * nat) : option ts_frame_buf :=
  match pc.1 with
  | Some _ => pc.1
  | None => filled i pc.2
  end.

Definition bump (pc : option ts_frame_buf * nat) : nat :=
  match pc.1 with
  | Some _ => pc.2
  | None => S pc.2
  end.

(** The timestamps the log lines of a trace report, oldest first. *)
Definition emitted (tr : list event) : list Z :=
  omap (λ e, match e with EvLogSet _ t => Some t | _ => None end) tr.

(** The handles a trace hands to the empty queue of camera [i]. *)
Definition enqueued (i : nat) (tr : list event) : list (option ts_frame_buf) :=
  omap (λ e, match e with
             | EvNq j p => if decide (j = i) then Some p else None
             | _ => None
             end) tr.

Definition held (p : option ts_frame_buf) : bool :=
  match p with
  | Some _ => true
  | None => false
  end.

Section turns.

Variable cam_count : nat.
Variable filled : nat → nat → option ts_frame_buf.

(** The maximum the pass computes is an upper bound, and it is 0 or the
    timestamp of a slot. *)
Definition is_max_of (cur : list (option ts_frame_buf)) (m : Z) : Prop :=
  (0 ≤ m)%Z
  ∧ (∀ i f, cur !! i = Some (Some f) → (timestamp f ≤ m)%Z)
  ∧ (m = 0%Z ∨ ∃ i f, cur !! i = Some (Some f) ∧ timestamp f = m).

(** The three ways a turn of the loop can go. *)
Inductive turn (st st' : sync_state) : Prop :=
| turn_incomplete :
    let cur1 := imap (fetch filled) (zip (current_frames st) (dq_calls st)) in
    forallb held cur1 = false →
    st' = SyncState cur1 (bump <$> zip (current_frames st) (dq_calls st))
            (complete_sets st) (trace st) →
    turn st st'
| turn_recycle (m : Z) :
    let cur1 := imap (fetch filled) (zip (current_frames st) (dq_calls st)) in
    full_set_of cam_count cur1 →
    is_max_of cur1 m →
    forallb (matches m) cur1 = false →
    st' = SyncState (retain m <$> cur1)
            (bump <$> zip (current_frames st) (dq_calls st))
            (complete_sets st)
            (trace st ++ concat (imap (recycle_event m) cur1)) →
    turn st st'
| turn_emit (m : Z) :
    let cur1 := imap (fetch filled) (zip (current_frames st) (dq_calls st)) in
    full_set_of cam_count cur1 →
    is_max_of cur1 m →
    forallb (matches m) cur1 = true →
    st' = SyncState (replicate cam_count None)
            (bump <$> zip (current_frames st) (dq_calls st))
            (wrap32 (complete_sets st + 1))
            (trace st ++ [EvLogSet (complete_sets st) m] ++ imap EvNq cur1) →
    turn st st'.

End turns.

(** A held frame is what the latest call of [lf_queue_dq] on its camera's
    filled queue returned. *)
Definition provenance (filled : nat → nat → option ts_frame_buf)
    (st : sync_state) : Prop :=
  ∀ i f, current_frames st !! i = Some (Some f) →
    ∃ c, dq_calls st !! i = Some (S c) ∧ filled i c = Some f.

(** Each camera's filled queue yields strictly increasing timestamps. *)
Definition increasing_supply (n : nat)
    (filled : nat → nat → option ts_frame_buf) : Prop :=
  ∀ i k1 k2 f1 f2, i < n → k1 < k2 →
    filled i k1 = Some f1 → filled i k2 = Some f2 →
    (timestamp f1 < timestamp f2)%Z.

(** The frames the filled queues yield carry unsigned timestamps. *)
Definition unsigned_supply (n : nat)
    (filled : nat → nat → option ts_frame_buf) : Prop :=
  ∀ i k f, i < n → filled i k = Some f → is_u64 (timestamp f).

(** The sets logged since the trace was [tr0] have increasing timestamps,
    all below what camera 0 holds or can still yield. *)
Definition above_emitted (filled : nat → nat → option ts_frame_buf)
    (tr0 : list event) (st : sync_state) : Prop :=
  ∃ evs, trace st = tr0 ++ evs
    ∧ StronglySorted Z.lt (emitted evs)
    ∧ ∀ e, e ∈ emitted evs →
        (∀ f, current_frames st !! 0 = Some (Some f) → (e < timestamp f)%Z)
        ∧ (∀ c k f, dq_calls st !! 0 = Some c → c ≤ k →
             filled 0 k = Some f → (e < timestamp f)%Z).

(** ** Scenario S2: two cameras, camera 0 one frame ahead *)

(** Address of buffer [j] of camera [i] in a pool at [65536] of
    1280 x 720 frames. *)
Definition s2_buf (i j : Z) : Z :=
  (65536 + (i * FRAME_BUFS_PER_THREAD + j) * decoded_frame_buf_size 1280 720)%Z.

Definition s2_cam0 : list ts_frame_buf :=
  [TsFrameBuf 100 (s2_buf 0 0); TsFrameBuf 200 (s2_buf 0 1);
   TsFrameBuf 300 (s2_buf 0 2); TsFrameBuf 400 (s2_buf 0 3)].

Definition s2_cam1 : list ts_frame_buf :=
  [TsFrameBuf 200 (s2_buf 1 0); TsFrameBuf 300 (s2_buf 1 1);
   TsFrameBuf 400 (s2_buf 1 2)].

(** The filled queues hold these frames from the start and get no more. *)
Definition s2_filled (i k : nat) : option ts_frame_buf :=
  match i with
  | 0 => s2_cam0 !! k
  | 1 => s2_cam1 !! k
  | _ => None
  end.

Definition s2_trace : list event :=
  [EvNq 0 (Some (TsFrameBuf 100 (s2_buf 0 0)));
   EvLogSet 0 200;
   EvNq 0 (Some (TsFrameBuf 200 (s2_buf 0 1)));
   EvNq 1 (Some (TsFrameBuf 200 (s2_buf 1 0)));
   EvLogSet 1 300;
   EvNq 0 (Some (TsFrameBuf 300 (s2_buf 0 2)));
   EvNq 1 (Some (TsFrameBuf 300 (s2_buf 1 1)));
   EvLogSet 2 400;
   EvNq 0 (Some (TsFrameBuf 400 (s2_buf 0 3)));
   EvNq 1 (Some (TsFrameBuf 400 (s2_buf 1 2)))].

(** How often a trace puts the handle of frame [f] on the empty queue of
    camera [i]. *)
Definition times_enqueued (i : nat) (f : ts_frame_buf) (tr : list event)
    : nat :=
  length (filter (λ p, p = Some f) (enqueued i tr)).

(** ** Environments *)

Definition EAGAIN : Z := 11.

(** Two cameras with 1280 x 720 frames; every call succeeds. *)
Definition env_ok (filled : nat → nat → option ts_frame_buf) : env :=
  {| DECODED_FRAME_WIDTH := 1280;
     DECODED_FRAME_HEIGHT := 720;
     indeterminate := λ _, TsFrameBuf 0 0;
     setup_logging_ret := 0;
     errno_setup_logging := 0;
     count_cameras_ret := 2;
     parse_conf_ret := 0;
     sched_setaffinity_ret := 0;
     errno_sched_setaffinity := 0;
     malloc_ret := 65536;
     pthread_create_ret := λ _, 0%Z;
     tv_sec := 1700000000;
     tv_nsec := 123456789;
     filled_dq := filled |}.

(** The configuration lists no camera: [count_cameras] returns 0. *)
Definition env_zero_cameras : env :=
  {| DECODED_FRAME_WIDTH := 1280;
     DECODED_FRAME_HEIGHT := 720;
     indeterminate := λ _, TsFrameBuf 0 0;
     setup_logging_ret := 0;
     errno_setup_logging := 0;
     count_cameras_ret := 0;
     parse_conf_ret := 0;
     sched_setaffinity_ret := 0;
     errno_sched_setaffinity := 0;
     malloc_ret := 65536;
     pthread_create_ret := λ _, 0%Z;
     tv_sec := 1700000000;
     tv_nsec := 123456789;
     filled_dq := λ _ _, None |}.

(** Two cameras; [pthread_create] succeeds for worker 0 and fails with
    [EAGAIN] for worker 1. *)
Definition env_spawn_fails : env :=
  {| DECODED_FRAME_WIDTH := 1280;
     DECODED_FRAME_HEIGHT := 720;
     indeterminate := λ _, TsFrameBuf 0 0;
     setup_logging_ret := 0;
     errno_setup_logging := 0;
     count_cameras_ret := 2;
     parse_conf_ret := 0;
     sched_setaffinity_ret := 0;
     errno_sched_setaffinity := 0;
     malloc_ret := 65536;
     pthread_create_ret := λ i, match i with 1 => EAGAIN | _ => 0%Z end;
     tv_sec := 1700000000;
     tv_nsec := 123456789;
     filled_dq := λ _ _, None |}.

(** Every call of the start-up succeeds, and the number of buffers fits
    an [int]. *)
Definition startup_ok (e : env) : Prop :=
  setup_logging_ret e = 0%Z
  ∧ (0 < count_cameras_ret e)%Z
  ∧ (count_cameras_ret e * FRAME_BUFS_PER_THREAD < 2 ^ 31)%Z
  ∧ parse_conf_ret e = 0%Z
  ∧ sched_setaffinity_ret e ≠ (-1)%Z
  ∧ malloc_ret e ≠ 0%Z
  ∧ ∀ i, i < Z.to_nat (count_cameras_ret e) → pthread_create_ret e i = 0%Z.

(** What [main] has done when it enters its loop in scenario S2. *)
Definition s2_startup : list event :=
  match main_startup (env_ok s2_filled) with
  | inl (tr, _) | inr (tr, _) => tr
  end.

(** The events of a trace that concern the worker threads, the pool and
    the cameras. *)
Definition is_lifecycle (ev : event) : bool :=
  match ev with
  | EvSpawn _ _ | EvJoin _ | EvFree _ | EvBroadcast _ _ => true
  | _ => false
  end.

Definition lifecycle (tr : list event) : list event :=
  filter (λ ev, is_lifecycle ev = true) tr.

(** ** Progress of the loop *)

(** Every camera's filled queue yields a frame with timestamp [T]; [K i]
    is the call that yields it on camera [i]. *)
Definition common_at (n : nat) (filled : nat → nat → option ts_frame_buf)
    (K : nat → nat) (T : Z) : Prop :=
  ∀ i, i < n → ∃ f, filled i (K i) = Some f ∧ timestamp f = T.

Definition common_timestamp (n : nat)
    (filled : nat → nat → option ts_frame_buf) (T : Z) : Prop :=
  ∀ i, i < n → ∃ k f, filled i k = Some f ∧ timestamp f = T.

(** No camera is past its frame [T]: the frame is still to come from the
    queue, or it is the one in the slot. *)
Definition not_passed (n : nat) (filled : nat → nat → option ts_frame_buf)
    (K : nat → nat) (st : sync_state) : Prop :=
  ∀ i p c, i < n →
    current_frames st !! i = Some p → dq_calls st !! i = Some c →
    c ≤ K i ∨ (c = S (K i) ∧ p = filled i (K i)).

(** No camera is past any common timestamp above [lower]. *)
Definition fresh_above (n : nat) (filled : nat → nat → option ts_frame_buf)
    (lower : Z) (st : sync_state) : Prop :=
  ∀ K T, (lower < T)%Z → common_at n filled K T → not_passed n filled K st.

(** The calls and releases that separate the slots from their frames [T]. *)
Definition slot_potential (K : nat → nat) (i : nat)
    (pc : option ts_frame_buf * nat) : nat :=
  2 * (S (K i) - pc.2) + (if held pc.1 then 1 else 0).

Definition potential (K : nat → nat) (st : sync_state) : nat :=
  sum_list (imap (slot_potential K)
              (zip (current_frames st) (dq_calls st))).

(** Everything the loop took from the filled queue of a camera it has put
    on the camera's empty queue, in the same order, but for the frame in
    the slot. *)
Definition conserved (n : nat) (filled : nat → nat → option ts_frame_buf)
    (evs : list event) (st : sync_state) : Prop :=
  ∀ i p c, i < n →
    current_frames st !! i = Some p → dq_calls st !! i = Some c →
    enqueued i evs ++ (if held p then [p] else [])
    = Some <$> omap (filled i) (seq 0 c).

(** The loop has logged as many sets as it has counted, and has handed
    back what it has taken. *)
Definition accounted (n : nat) (filled : nat → nat → option ts_frame_buf)
    (tr0 : list event) (st : sync_state) : Prop :=
  ∃ evs, trace st = tr0 ++ evs
    ∧ Z.of_nat (length (emitted evs)) = complete_sets st
    ∧ (complete_sets st ≤ 100)%Z
    ∧ conserved n filled evs st.

(** The state after lines 167-177. *)
Definition after_fill (filled : nat → nat → option ts_frame_buf)
    (st : sync_state) : sync_state :=
  SyncState (imap (fetch filled) (zip (current_frames st) (dq_calls st)))
    (bump <$> zip (current_frames st) (dq_calls st))
    (complete_sets st) (trace st).

(** The timestamps of [Ts] increase and every camera's filled queue yields
    a frame for each of them. *)
Definition aligned_supply (n : nat)
    (filled : nat → nat → option ts_frame_buf) (Ts : list Z) : Prop :=
  StronglySorted Z.lt Ts ∧ ∀ T, T ∈ Ts → common_timestamp n filled T.

(** Two cameras half a period apart: camera 0 yields the odd timestamps,
    camera 1 the even ones, and neither queue is ever empty. *)
Definition odd_even (i k : nat) : option ts_frame_buf :=
  Some (TsFrameBuf (2 * Z.of_nat k + 1 + Z.of_nat i)
          (s2_buf (Z.of_nat i) (Z.of_nat k mod FRAME_BUFS_PER_THREAD))).

(** Cameras on one grid: each yields 100 frames, the [k]-th at [1000 * k]. *)
Definition grid_supply (i k : nat) : option ts_frame_buf :=
  if k <? 100
  then Some (TsFrameBuf (1000 * Z.of_nat k)
               (s2_buf (Z.of_nat i) (Z.of_nat k mod FRAME_BUFS_PER_THREAD)))
  else None.

Definition grid : list Z := (λ k, (1000 * Z.of_nat k)%Z) <$> seq 0 100.

(** Scenario S2 after its first turn: camera 0 recycled, camera 1 holds
    the 200 frame; and after its second turn. *)
Definition s2_state1 : sync_state :=
  SyncState [None; Some (TsFrameBuf 200 (s2_buf 1 0))] [1; 1] 0
    [EvNq 0 (Some (TsFrameBuf 100 (s2_buf 0 0)))].

Definition s2_state2 : sync_state :=
  SyncState [None; None] [2; 1] 1
    [EvNq 0 (Some (TsFrameBuf 100 (s2_buf 0 0)));
     EvLogSet 0 200;
     EvNq 0 (Some (TsFrameBuf 200 (s2_buf 0 1)));
     EvNq 1 (Some (TsFrameBuf 200 (s2_buf 1 0)))].

(** The full slot set of the first turn of scenario S2. *)
Definition s2_slots : list (option ts_frame_buf) :=
  [Some (TsFrameBuf 100 (s2_buf 0 0)); Some (TsFrameBuf 200 (s2_buf 1 0))].

(** ** Reading a trace of [main] *)

(** The numbers the log lines of a trace give to their sets. *)
Definition set_numbers (tr : list event) : list Z :=
  omap (λ e, match e with EvLogSet n _ => Some n | _ => None end) tr.

(** The addresses a trace frees, the sizes it allocates, the CPUs it pins
    [main] to and the cores of the workers it starts. *)
Definition freed (tr : list event) : list Z :=
  omap (λ e, match e with EvFree p => Some p | _ => None end) tr.

Definition allocated (tr : list event) : list Z :=
  omap (λ e, match e with EvMalloc b => Some b | _ => None end) tr.

Definition pinned (tr : list event) : list Z :=
  omap (λ e, match e with EvPin c => Some c | _ => None end) tr.

Definition worker_cores (tr : list event) : list nat :=
  omap (λ e, match e with EvSpawn _ c => Some c | _ => None end) tr.

(** The events of the loop: a handle goes back, or a set is logged. *)
Definition is_loop_event (ev : event) : bool :=
  match ev with
  | EvNq _ _ | EvLogSet _ _ => true
  | _ => false
  end.

(** ** The sets the loop owes *)

(** A list of timestamps leaves no common timestamp out: a timestamp
    that every camera's filled queue yields and that is not above a
    member of the list is a member. *)
Definition no_gap (n : nat) (filled : nat → nat → option ts_frame_buf)
    (ts : list Z) : Prop :=
  ∀ t T, common_timestamp n filled t → T ∈ ts → (t ≤ T)%Z → t ∈ ts.

(** No camera is past a common timestamp above the ones of [ts]. *)
Definition fresh_after (n : nat) (filled : nat → nat → option ts_frame_buf)
    (ts : list Z) (st : sync_state) : Prop :=
  ∀ K T, common_at n filled K T → (∀ t, t ∈ ts → (t < T)%Z) →
    not_passed n filled K st.

(** The sets logged since the trace was [tr0] have timestamps that every
    camera's filled queue has yielded. *)
Definition sound (n : nat) (filled : nat → nat → option ts_frame_buf)
    (tr0 : list event) (st : sync_state) : Prop :=
  ∃ evs, trace st = tr0 ++ evs
    ∧ ∀ t, t ∈ emitted evs → common_timestamp n filled t.

(** The sets logged since the trace was [tr0] are sets of frames the loop
    has taken: for each of their timestamps and for every camera, one of
    the calls of [lf_queue_dq] made so far on the camera's filled queue
    returned a frame with that timestamp, and the loop has put this
    frame on the camera's empty queue since. *)
Definition yielded (n : nat) (filled : nat → nat → option ts_frame_buf)
    (tr0 : list event) (st : sync_state) : Prop :=
  ∃ evs, trace st = tr0 ++ evs
    ∧ ∀ t, t ∈ emitted evs → ∀ i, i < n →
        ∃ c k f, dq_calls st !! i = Some c ∧ k < c
                 ∧ filled i k = Some f ∧ timestamp f = t
                 ∧ Some f ∈ enqueued i evs.

(** No common timestamp was left out on the way to the sets logged since
    the trace was [tr0]. *)
Definition exact (n : nat) (filled : nat → nat → option ts_frame_buf)
    (tr0 : list event) (st : sync_state) : Prop :=
  ∃ evs, trace st = tr0 ++ evs
    ∧ no_gap n filled (emitted evs)
    ∧ fresh_after n filled (emitted evs) st.

(** The log lines since the trace was [tr0] are numbered from 0 in
    steps of 1. *)
Definition numbered (tr0 : list event) (st : sync_state) : Prop :=
  ∃ evs, trace st = tr0 ++ evs
    ∧ (0 ≤ complete_sets st ≤ 100)%Z
    ∧ set_numbers evs = Z.of_nat <$> seq 0 (Z.to_nat (complete_sets st))
    ∧ forallb is_loop_event evs = true.

(** The buffer [main] makes of slot [j] of [ts_frame_bufs]: the timestamp
    is what the array held when it was declared. *)
Definition pool_buf (e : env) (j : nat) : ts_frame_buf :=
  TsFrameBuf (timestamp (indeterminate e j))
    (malloc_ret e
     + wrap64 (Z.of_nat j
               * decoded_frame_buf_size (DECODED_FRAME_WIDTH e)
                   (DECODED_FRAME_HEIGHT e))).

(** ** The trace of a start-up that succeeds *)

(** The events of lines 108-129. *)
Definition is_queue_event (ev : event) : bool :=
  match ev with
  | EvQueueInit _ _ _ | EvNq _ _ => true
  | _ => false
  end.

(** What lines 108-129 do for camera [i] when no read is out of bounds:
    the two queues are set up and the empty queue gets the buffers
    [ts_frame_bufs[offset + j]]. *)
Definition primed (ts_frame_bufs : list ts_frame_buf) (i : nat)
    : list event :=
  let offset := i * Z.to_nat FRAME_BUFS_PER_THREAD in
  [EvQueueInit (i * 2) offset FRAME_BUFS_PER_THREAD;
   EvQueueInit (i * 2 + 1) offset FRAME_BUFS_PER_THREAD]
  ++ ((λ j, EvNq i (ts_frame_bufs !! (offset + j)))
        <$> seq 0 (Z.to_nat FRAME_BUFS_PER_THREAD)).

(** The workers [lo], ..., [lo + n - 1] started, each with its core. *)
Definition spawned (lo n : nat) : list event :=
  (λ i, EvSpawn i (i mod 8)) <$> seq lo n.

(** The array [ts_frame_bufs] after lines 100-103. *)
Definition pool (e : env) : list ts_frame_buf :=
  pool_buf e <$> seq 0 (Z.to_nat (frame_bufs_count (count_cameras_ret e))).

Definition startup_trace (e : env) : list event :=
  let n := Z.to_nat (count_cameras_ret e) in
  [EvPin (count_cameras_ret e mod 8);
   EvMalloc (frame_bufs_bytes (frame_bufs_count (count_cameras_ret e))
               (decoded_frame_buf_size (DECODED_FRAME_WIDTH e)
                  (DECODED_FRAME_HEIGHT e)))]
  ++ concat (primed (pool e) <$> seq 0 n)
  ++ spawned 0 n
  ++ [EvBroadcast n
        (object_bytes sizeof_uint64 (start_anchor (tv_sec e) (tv_nsec e)))].

(** [malloc] was called in the trace and returned a pool. *)
Definition pool_live (e : env) (tr : list event) : bool :=
  match allocated tr with
  | [] => false
  | _ :: _ => negb (malloc_ret e =? 0)%Z
  end.

(** The value of [cam_count * FRAME_BUFS_PER_THREAD] fits an [int]. *)
Definition count_fits (e : env) : Prop :=
  (count_cameras_ret e * FRAME_BUFS_PER_THREAD < 2 ^ 31)%Z.

(** How often a trace calls [cleanup_logging]. *)
Definition cleanups (tr : list event) : nat :=
  length (filter (λ ev, ev = EvCleanupLogging) tr).

(** Every call before the workers are started succeeds, the workers
    [0], ..., [k - 1] start, and [pthread_create] fails for worker
    [k]. *)
Definition spawn_fails_at (e : env) (k : nat) : Prop :=
  setup_logging_ret e = 0%Z
  ∧ (0 < count_cameras_ret e)%Z
  ∧ count_fits e
  ∧ parse_conf_ret e = 0%Z
  ∧ sched_setaffinity_ret e ≠ (-1)%Z
  ∧ malloc_ret e ≠ 0%Z
  ∧ k < Z.to_nat (count_cameras_ret e)
  ∧ (∀ i, i < k → pthread_create_ret e i = 0%Z)
  ∧ pthread_create_ret e k ≠ 0%Z.

(** ** Scenario: one worker is late and one has nothing yet *)

(** Three cameras. The filled queue of camera 0 has a frame from the
    start, that of camera 1 has none at the first call and a frame of
    the same timestamp at the second, that of camera 2 stays empty. *)
Definition late_supply (i k : nat) : option ts_frame_buf :=
  match i, k with
  | 0, 0 => Some (TsFrameBuf 100 (s2_buf 0 0))
  | 1, 1 => Some (TsFrameBuf 100 (s2_buf 1 0))
  | _, _ => None
  end.

(** The state after the first turn of the loop on this supply: camera 0
    holds its frame, the other two slots are still [NULL]. *)
Definition late_state : sync_state :=
  SyncState [Some (TsFrameBuf 100 (s2_buf 0 0)); None; None] [1; 1; 1] 0 [].

(** * The camera handler of the Raspberry Pi side

    A shallow embedding of [camera_handler.cpp]: the constructor and the
    destructor of [camera_handler_t], [queue_request] and
    [request_complete].

    - The calls into libcamera, libc and the logger are events of a
      trace, and what they return is taken from an environment.
    - A C++ exception is a result of its own: a function ends with a
      value, with a thrown [std::runtime_error] (its message), or in
      undefined behaviour (an [operator[]] out of the bounds of a
      vector).
    - The four byte counts of the class are declared in
      [camera_handler.h], which is not part of the sources here; their
      type is taken to be an unsigned type of [size_bits] bits. *)

From stdpp Require Import strings pretty.

Inductive level_t : Type := INFO | ERROR.

(** The controls of lines 145-163; fractions are in hundredths. *)
Inductive control : Type :=
| FrameDurationLimits (min max : Z)
| AeEnable (on : bool)
| ExposureTime (us : Z)
| AfModeManual
| LensPosition (hundredths : Z)
| AwbEnable (on : bool)
| AnalogueGain (hundredths : Z)
| HdrModeOff
| StatsOutputEnable (on : bool).

(** What the handler does to the world outside:
    - [CamLog l msg]: [logger.log(l, __FILE__, __LINE__, msg)];
    - [CamManagerStart], [CamManagerStop]: [cm_->start()], [cm_->stop()];
    - [CamAcquire], [CamRelease]: [camera_->acquire()], [->release()];
    - [CamStreamConfiguration w h n]: lines 69-71, the YUV420 stream of
      [w] x [h] pixels with [n] buffers is asked for;
    - [CamValidate]: [config_->validate()];
    - [CamConfigure]: [camera_->configure(config_.get())];
    - [CamAllocate], [CamAllocatorFree]: [allocator_->allocate(stream_)],
      [allocator_->free(stream_)];
    - [CamCreateRequest c]: [camera_->createRequest(c)];
    - [CamAddBuffer c k]: [request->addBuffer(stream_, buffer.get())] for
      the request with cookie [c] and the [k]-th buffer of the stream;
    - [CamMmap len fd off ret]: [mmap(nullptr, len, PROT_READ |
      PROT_WRITE, MAP_SHARED, fd, off)] returned [ret];
    - [CamMunmap data len]: [munmap(data, len)];
    - [CamConnect]: [requestCompleted.connect(this, &request_complete)];
    - [CamStart cs], [CamStop]: [camera_->start(controls_.get())] with
      the controls [cs], [camera_->stop()];
    - [CamPopen cmd], [CamPclose f]: [popen(cmd, "w")], [pclose(f)];
    - [CamQueueRequest c]: [camera_->queueRequest] of the request with
      cookie [c];
    - [CamFwrite data size f]: [fwrite(data, 1, size, f)];
    - [CamReuse c]: [request->reuse(ReuseBuffers)] on the request with
      cookie [c]. *)
Inductive cam_event : Type :=
| CamLog (l : level_t) (msg : string)
| CamManagerStart
| CamManagerStop
| CamAcquire
| CamRelease
| CamStreamConfiguration (width height bufferCount : Z)
| CamValidate
| CamConfigure
| CamAllocate
| CamAllocatorFree
| CamCreateRequest (c : Z)
| CamAddBuffer (c : Z) (k : nat)
| CamMmap (len fd off ret : Z)
| CamMunmap (data len : Z)
| CamConnect
| CamStart (cs : list control)
| CamStop
| CamPopen (cmd : string)
| CamPclose (f : Z)
| CamQueueRequest (c : Z)
| CamFwrite (data size f : Z)
| CamReuse (c : Z).

(** How a function of the handler ends. *)
Inductive result (A : Type) : Type :=
| Done (a : A)
| Thrown (what : string)
| Undefined.

Arguments Done {A} a.
Arguments Thrown {A} what.
Arguments Undefined {A}.

(** A computation of the handler: it extends the trace and ends. *)
Definition Cam (A : Type) : Type :=
  list cam_event → list cam_event * result A.

Definition cam_ret {A : Type} (a : A) : Cam A := λ tr, (tr, Done a).

Definition cam_bind {A B : Type} (m : Cam A) (f : A → Cam B) : Cam B :=
  λ tr,
    match m tr with
    | (tr', Done a) => f a tr'
    | (tr', Thrown what) => (tr', Thrown what)
    | (tr', Undefined) => (tr', Undefined)
    end.

Notation "x ←ᶜ m ; k" := (cam_bind m (λ x, k))
  (at level 20, m at level 100, k at level 200, only parsing).
Notation "m ;;ᶜ k" := (cam_bind m (λ _, k))
  (at level 100, k at level 200, right associativity, only parsing).

Definition emit (ev : cam_event) : Cam unit := λ tr, (tr ++ [ev], Done ()).

(** [logger.log(ERROR, ..., err); throw std::runtime_error(err);] *)
Definition log_and_throw {A : Type} (err : string) : Cam A :=
  λ tr, (tr ++ [CamLog ERROR err], Thrown err).

Definition undefined {A : Type} : Cam A := λ tr, (tr, Undefined).

(** A range-based [for] over a vector, with the position of the
    element. *)
Fixpoint for_each {A St : Type} (body : nat → A → St → Cam St)
    (k : nat) (l : list A) (s : St) : Cam St :=
  match l with
  | [] => cam_ret s
  | x :: l' => s' ←ᶜ body k x s; for_each body (S k) l' s'
  end.

(** ** Data *)

(** [libcamera::FrameBuffer::Plane]. *)
Record plane : Type := Plane {
  plane_fd : Z;
  plane_offset : Z;
  plane_length : Z
}.

(** A [libcamera::Request] the handler has made: its cookie and the
    buffer of the stream that was added to it. *)
Record request : Type := Request {
  cookie : Z;
  buffer : nat
}.

Inductive request_status : Type :=
| RequestPending
| RequestComplete
| RequestCancelled.

Inductive validate_status : Type := Valid | Adjusted | Invalid.

(** The members of [camera_handler_t] that the functions compute
    with. [ffmpeg_] is a [FILE*], 0 when null; the elements of
    [mmap_buffers_] are addresses. *)
Record camera_handler_t : Type := CameraHandler {
  y_plane_bytes_ : Z;
  u_plane_bytes_ : Z;
  v_plane_bytes_ : Z;
  frame_bytes_ : Z;
  requests_ : list request;
  mmap_buffers_ : list Z;
  next_req_idx_ : nat;
  ffmpeg_ : Z
}.

(** [MAP_FAILED] is [(void* ) -1]. *)
Definition MAP_FAILED : Z := (-1)%Z.

(** What the constructor takes from outside: the configuration, and
    what the calls return. [validate_ret k], [createRequest_ret k],
    [addBuffer_ret k], [mmap_ret k] and [strerror_errno k] belong to
    the [k]-th call; [stream_buffers] is
    [allocator_->buffers(stream_)], a buffer being its planes. *)
Record cam_env : Type := CamEnv {
  get_int : string → Z;
  get_string : string → string;
  cm_start_ret : Z;
  cameras_size : nat;
  cm_get_ret : bool;
  acquire_ret : Z;
  generateConfiguration_ret : bool;
  validate_ret : nat → validate_status;
  configure_ret : Z;
  allocate_ret : Z;
  stream_buffers : list (list plane);
  createRequest_ret : nat → bool;
  addBuffer_ret : nat → Z;
  mmap_ret : nat → Z;
  strerror_errno : nat → string;
  camera_start_ret : Z;
  popen_ret : Z
}.

Section camera_handler.

(** The width of the type of the byte counts. *)
Variable size_bits : Z.

Definition wrap_size (z : Z) : Z := (z mod 2 ^ size_bits)%Z.

(** Lines 30-33; [frame_width] and [frame_height] are [unsigned int]. *)
Definition y_plane_bytes (frame_width frame_height : Z) : Z :=
  wrap_size (wrap32 (frame_width * frame_height)).

Definition u_plane_bytes (frame_width frame_height : Z) : Z :=
  (y_plane_bytes frame_width frame_height / 4)%Z.

Definition frame_bytes (frame_width frame_height : Z) : Z :=
  wrap_size
    (wrap_size (y_plane_bytes frame_width frame_height
                + u_plane_bytes frame_width frame_height)
     + u_plane_bytes frame_width frame_height).

(** Lines 145-163. *)
Definition controls (frame_duration_min frame_duration_max : Z)
    : list control :=
  [FrameDurationLimits frame_duration_min frame_duration_max;
   AeEnable false;
   ExposureTime frame_duration_min;
   AfModeManual;
   LensPosition 333;
   AwbEnable false;
   AnalogueGain 100;
   HdrModeOff;
   StatsOutputEnable false].

(** Lines 171-178; an [unsigned int] is printed in decimal. *)
Definition ffmpeg_cmd (streaming_cpu frame_width frame_height fps : Z)
    (server_ip port : string) : string :=
  "taskset -c " +:+ pretty (Z.to_N streaming_cpu)
  +:+ " ffmpeg -f rawvideo -pix_fmt yuv420p -video_size "
  +:+ pretty (Z.to_N frame_width) +:+ "x" +:+ pretty (Z.to_N frame_height)
  +:+ " -framerate " +:+ pretty (Z.to_N fps)
  +:+ " -i - -c:v libx264 -f mpegts "
  +:+ "tcp://" +:+ server_ip +:+ ":" +:+ port.

(** The body of the loop of lines 98-138 for the [k]-th buffer of the
    stream; the state is [req_cookie], [requests_] and
    [mmap_buffers_]. *)
Definition request_loop_body (e : cam_env) (h : camera_handler_t)
    (k : nat) (planes : list plane) (s : Z * list request * list Z)
    : Cam (Z * list request * list Z) :=
  let '(req_cookie, requests, mmap_buffers) := s in
  let c := req_cookie in
  let req_cookie := wrap64 (req_cookie + 1) in
  emit (CamCreateRequest c);;ᶜ
  if negb (createRequest_ret e k)
  then log_and_throw "Failed to create request"
  else
  emit (CamAddBuffer c k);;ᶜ
  if (addBuffer_ret e k <? 0)%Z
  then log_and_throw "Failed to add buffer to request"
  else
  let requests := requests ++ [Request c k] in
  match planes !! 0, planes !! 1, planes !! 2 with
  | Some y_plane, Some u_plane, Some v_plane =>
      if negb (plane_length y_plane =? y_plane_bytes_ h)%Z
         || negb (plane_length u_plane =? u_plane_bytes_ h)%Z
         || negb (plane_length v_plane =? v_plane_bytes_ h)%Z
      then log_and_throw "Plane size does not match expected size"
      else
        let data := mmap_ret e k in
        emit (CamMmap (frame_bytes_ h) (plane_fd y_plane)
                (plane_offset y_plane) data);;ᶜ
        if (data =? MAP_FAILED)%Z
        then log_and_throw
               ("Failed to mmap plane data: " +:+ strerror_errno e k)
        else cam_ret (req_cookie, requests, mmap_buffers ++ [data])
  | _, _, _ => undefined
  end.

(** The object after the member initialisers and lines 20-33; the
    members that are assigned later are empty or 0 here and are not read
    before they are assigned. *)
Definition initial_handler (e : cam_env) : camera_handler_t :=
  let frame_width := wrap32 (get_int e "FRAME_WIDTH") in
  let frame_height := wrap32 (get_int e "FRAME_HEIGHT") in
  CameraHandler (y_plane_bytes frame_width frame_height)
    (u_plane_bytes frame_width frame_height)
    (u_plane_bytes frame_width frame_height)
    (frame_bytes frame_width frame_height) [] [] 0 0.

(** [camera_handler_t::camera_handler_t], lines 13-185. *)
Definition camera_handler_t_ctor (e : cam_env) : Cam camera_handler_t :=
  let frame_width := wrap32 (get_int e "FRAME_WIDTH") in
  let frame_height := wrap32 (get_int e "FRAME_HEIGHT") in
  let fps := wrap32 (get_int e "FPS") in
  let frame_buffers := wrap32 (get_int e "FRAME_BUFFERS") in
  let frame_duration_min := wrap32 (get_int e "FRAME_DURATION_MIN") in
  let frame_duration_max := wrap32 (get_int e "FRAME_DURATION_MAX") in
  let streaming_cpu := wrap32 (get_int e "STREAMING_CPU") in
  let server_ip := get_string e "SERVER_IP" in
  let port := get_string e "PORT" in
  let h0 := initial_handler e in
  emit CamManagerStart;;ᶜ
  if (cm_start_ret e <? 0)%Z
  then log_and_throw "Failed to start camera manager"
  else
  if cameras_size e =? 0
  then log_and_throw "No cameras available"
  else
  if negb (cm_get_ret e)
  then log_and_throw "Failed to retrieve camera"
  else
  emit CamAcquire;;ᶜ
  if (acquire_ret e <? 0)%Z
  then log_and_throw "Failed to acquire camera"
  else
  if negb (generateConfiguration_ret e)
  then log_and_throw "Failed to generate camera configuration"
  else
  emit (CamStreamConfiguration frame_width frame_height frame_buffers);;ᶜ
  emit CamValidate;;ᶜ
  match validate_ret e 0 with
  | Invalid => log_and_throw "Invalid camera configuration, unable to adjust"
  | _ =>
  emit CamValidate;;ᶜ
  match validate_ret e 1 with
  | Adjusted => log_and_throw "Invalid camera configuration, adjusted"
  | _ =>
  emit CamConfigure;;ᶜ
  if (configure_ret e <? 0)%Z
  then log_and_throw "Failed to configure camera"
  else
  emit CamAllocate;;ᶜ
  if (allocate_ret e <? 0)%Z
  then log_and_throw "Failed to allocate buffers"
  else
  s ←ᶜ for_each (request_loop_body e h0) 0 (stream_buffers e) (0%Z, [], []);
  let '(_, requests, mmap_buffers) := s in
  emit CamConnect;;ᶜ
  emit (CamStart (controls frame_duration_min frame_duration_max));;ᶜ
  if (camera_start_ret e <? 0)%Z
  then log_and_throw "Failed to start camera"
  else
  emit (CamPopen (ffmpeg_cmd streaming_cpu frame_width frame_height fps
                    server_ip port));;ᶜ
  if (popen_ret e =? 0)%Z
  then log_and_throw "Failed to start ffmpeg"
  else
  cam_ret
    (CameraHandler (y_plane_bytes_ h0) (u_plane_bytes_ h0)
       (v_plane_bytes_ h0) (frame_bytes_ h0) requests mmap_buffers 0
       (popen_ret e))
  end
  end.

End camera_handler.

(** [camera_handler_t::~camera_handler_t], lines 187-198. *)
Definition camera_handler_t_dtor (h : camera_handler_t) : Cam unit :=
  emit CamStop;;ᶜ
  for_each (λ _ data _, emit (CamMunmap data (frame_bytes_ h))) 0
    (mmap_buffers_ h) ();;ᶜ
  emit CamAllocatorFree;;ᶜ
  emit CamRelease;;ᶜ
  emit CamManagerStop;;ᶜ
  if negb (ffmpeg_ h =? 0)%Z then emit (CamPclose (ffmpeg_ h)) else cam_ret ().

(** The handler with [next_req_idx_] set to [i]. *)
Definition set_next_req_idx (i : nat) (h : camera_handler_t)
    : camera_handler_t :=
  CameraHandler (y_plane_bytes_ h) (u_plane_bytes_ h) (v_plane_bytes_ h)
    (frame_bytes_ h) (requests_ h) (mmap_buffers_ h) i (ffmpeg_ h).

(** [camera_handler_t::queue_request], lines 200-220;
    [queueRequest_ret] is what [camera_->queueRequest] returns. The
    vector is not empty where the index is reduced. *)
Definition queue_request (queueRequest_ret : Z) (h : camera_handler_t)
    : Cam camera_handler_t :=
  match requests_ h !! next_req_idx_ h with
  | None => undefined
  | Some r =>
      emit (CamQueueRequest (cookie r));;ᶜ
      if (queueRequest_ret <? 0)%Z
      then log_and_throw "Failed to queue request"
      else
        cam_ret
          (set_next_req_idx (S (next_req_idx_ h) mod length (requests_ h))
             h)
  end.

(** [camera_handler_t::request_complete], lines 222-242, for a request
    with the given status. *)
Definition request_complete (h : camera_handler_t)
    (status : request_status) (r : request) : Cam unit :=
  match status with
  | RequestCancelled => cam_ret ()
  | _ =>
      emit (CamLog INFO "Request completed");;ᶜ
      match mmap_buffers_ h !! Z.to_nat (cookie r) with
      | None => undefined
      | Some data =>
          emit (CamFwrite data (frame_bytes_ h) (ffmpeg_ h));;ᶜ
          emit (CamReuse (cookie r))
      end
  end.

(** Calls of [queue_request] one after the other, the [k]-th with what
    [camera_->queueRequest] returns to it. *)
Fixpoint queue_requests (rets : list Z) (h : camera_handler_t)
    : Cam camera_handler_t :=
  match rets with
  | [] => cam_ret h
  | r :: rets' => h' ←ᶜ queue_request r h; queue_requests rets' h'
  end.

(** The cookie of the request at position [i] of [requests_]. *)
Definition cookie_at (h : camera_handler_t) (i : nat) : Z :=
  from_option cookie 0%Z (requests_ h !! i).

(** The regions a trace maps and unmaps, as address and length. *)
Definition mapped (tr : list cam_event) : list (Z * Z) :=
  omap (λ ev, match ev with
              | CamMmap len _ _ ret =>
                  if (ret =? MAP_FAILED)%Z then None else Some (ret, len)
              | _ => None
              end) tr.

Definition unmapped (tr : list cam_event) : list (Z * Z) :=
  omap (λ ev, match ev with
              | CamMunmap data len => Some (data, len)
              | _ => None
              end) tr.

Definition is_munmap (ev : cam_event) : bool :=
  match ev with
  | CamMunmap _ _ => true
  | _ => false
  end.

(** A computation that only adds to the trace, and no [munmap]. *)
Definition quiet {A : Type} (m : Cam A) : Prop :=
  ∀ tr, ∃ evs, fst (m tr) = tr ++ evs
             ∧ forallb (λ ev, negb (is_munmap ev)) evs = true.

(** The events of the constructor from its second validation to its
    loop, and after its loop. *)
Definition before_requests : list cam_event :=
  [CamValidate; CamConfigure; CamAllocate].

Definition after_requests (e : cam_env) : list cam_event :=
  [CamConnect;
   CamStart (controls (wrap32 (get_int e "FRAME_DURATION_MIN"))
               (wrap32 (get_int e "FRAME_DURATION_MAX")));
   CamPopen (ffmpeg_cmd (wrap32 (get_int e "STREAMING_CPU"))
               (wrap32 (get_int e "FRAME_WIDTH"))
               (wrap32 (get_int e "FRAME_HEIGHT"))
               (wrap32 (get_int e "FPS"))
               (get_string e "SERVER_IP") (get_string e "PORT"))].

(** Every call of the constructor before its loop succeeds and the
    configuration passes the two validations. *)
Definition before_loop_ok (e : cam_env) : Prop :=
  (0 ≤ cm_start_ret e)%Z
  ∧ cameras_size e ≠ 0
  ∧ cm_get_ret e = true
  ∧ (0 ≤ acquire_ret e)%Z
  ∧ generateConfiguration_ret e = true.

(** The events of the constructor up to its first validation. *)
Definition before_validate (e : cam_env) : list cam_event :=
  [CamManagerStart; CamAcquire;
   CamStreamConfiguration (wrap32 (get_int e "FRAME_WIDTH"))
     (wrap32 (get_int e "FRAME_HEIGHT"))
     (wrap32 (get_int e "FRAME_BUFFERS"));
   CamValidate].

(** A camera with 1280 x 720 frames and two buffers of three planes in
    one dmabuf each; every call succeeds. *)
Definition pi_config_int (key : string) : Z :=
  if decide (key = "FRAME_WIDTH") then 1280
  else if decide (key = "FRAME_HEIGHT") then 720
  else if decide (key = "FPS") then 30
  else if decide (key = "FRAME_BUFFERS") then 2
  else if decide (key = "FRAME_DURATION_MIN") then 33333
  else if decide (key = "FRAME_DURATION_MAX") then 33333
  else if decide (key = "STREAMING_CPU") then 3
  else 0.

Definition pi_config_string (key : string) : string :=
  if decide (key = "SERVER_IP") then "192.168.1.2"
  else if decide (key = "PORT") then "12345"
  else EmptyString.

Definition pi_planes (fd : Z) : list plane :=
  [Plane fd 0 921600; Plane fd 921600 230400; Plane fd 1152000 230400].

Definition pi_env (bufs : list (list plane)) (v0 v1 : validate_status)
    : cam_env :=
  {| get_int := pi_config_int;
     get_string := pi_config_string;
     cm_start_ret := 0;
     cameras_size := 1;
     cm_get_ret := true;
     acquire_ret := 0;
     generateConfiguration_ret := true;
     validate_ret := λ k, match k with 0 => v0 | _ => v1 end;
     configure_ret := 0;
     allocate_ret := Z.of_nat (length bufs);
     stream_buffers := bufs;
     createRequest_ret := λ _, true;
     addBuffer_ret := λ _, 0%Z;
     mmap_ret := λ k, (4096 * (Z.of_nat k + 16))%Z;
     strerror_errno := λ _, "Cannot allocate memory";
     camera_start_ret := 0;
     popen_ret := 1024 |}.

Definition pi_buffers : list (list plane) := [pi_planes 7; pi_planes 8].

(** The handler the constructor makes of [pi_buffers]. *)
Definition pi_handler : camera_handler_t :=
  CameraHandler 921600 230400 230400 1382400
    [Request 0 0; Request 1 1] [65536; 69632]%Z 0 1024.

Definition pi_trace : list cam_event :=
  fst (camera_handler_t_ctor 64 (pi_env pi_buffers Valid Valid) []).

(** A stream whose second buffer has a Y plane of another size. *)
Definition pi_odd_buffers : list (list plane) :=
  [pi_planes 7;
   [Plane 8 0 921604; Plane 8 921604 230400; Plane 8 1152004 230400]].

(** Every call of the constructor outside its loop succeeds, and the
    configuration passes the two validations. *)
Definition calls_ok (e : cam_env) : Prop :=
  before_loop_ok e
  ∧ validate_ret e 0 ≠ Invalid
  ∧ validate_ret e 1 ≠ Adjusted
  ∧ (0 ≤ configure_ret e)%Z
  ∧ (0 ≤ allocate_ret e)%Z
  ∧ (0 ≤ camera_start_ret e)%Z
  ∧ popen_ret e ≠ 0%Z.

(** * Properties *)

(** ** The loop rule *)

Lemma for_loop_inv {St : Type} (body : nat → St → option St)
    (I : nat → St → Prop) (lo n : nat) (s : St) :
  I lo s →
  (∀ i s, lo ≤ i < lo + n → I i s → ∃ s', body i s = Some s' ∧ I (S i) s') →
  ∃ s', for_loop body lo n s = Some s' ∧ I (lo + n) s'.
Proof.
  revert lo s. induction n as [|n IH]; intros lo s H0 Hstep; simpl.
  - exists s. rewrite Nat.add_0_r. done.
  - destruct (Hstep lo s) as (s1 & Hb & H1); [lia | done |].
    rewrite Hb. simpl.
    destruct (IH (S lo) s1) as (s2 & Hl & H2); [done | |].
    + intros i s' Hi. apply Hstep. lia.
    + exists s2. split; [done |]. by replace (lo + S n) with (S lo + n) by lia.
Qed.

Lemma prefix_step {A : Type} (P l : list A) (k : nat) (x : A) :
  length P = k → l !! k = Some x →
  (P ++ drop k l) !! k = Some x
  ∧ (∀ v, <[k:=v]> (P ++ drop k l) = (P ++ [v]) ++ drop (S k) l)
  ∧ P ++ drop k l = (P ++ [x]) ++ drop (S k) l.
Proof.
  intros HP Hx. rewrite (drop_S l x k Hx).
  split; [|split].
  - rewrite lookup_app_r; [|lia]. by rewrite HP, Nat.sub_diag.
  - intros v. rewrite insert_app_r_alt; [|lia].
    rewrite HP, Nat.sub_diag. simpl. by rewrite <- app_assoc.
  - by rewrite <- app_assoc.
Qed.

Section loops.

Variable cam_count : nat.
Variable filled : nat → nat → option ts_frame_buf.

Lemma max_loop_spec (cur : list (option ts_frame_buf)) :
  full_set_of cam_count cur →
  ∃ m, for_loop (max_body cur) 0 cam_count 0%Z = Some m
     ∧ (0 ≤ m)%Z
     ∧ (∀ i f, i < cam_count → cur !! i = Some (Some f) →
          (timestamp f ≤ m)%Z)
     ∧ (m = 0%Z ∨ ∃ i f, i < cam_count ∧ cur !! i = Some (Some f)
                         ∧ timestamp f = m).
Proof.
  intros Hfull.
  destruct (for_loop_inv (max_body cur)
    (λ k m, (0 ≤ m)%Z
          ∧ (∀ i f, i < k → cur !! i = Some (Some f) → (timestamp f ≤ m)%Z)
          ∧ (m = 0%Z ∨ ∃ i f, i < k ∧ cur !! i = Some (Some f)
                              ∧ timestamp f = m))
    0 cam_count 0%Z) as (m & Hm & HI).
  - split; [lia|]. split; [intros; lia | by left].
  - intros i m [_ Hi] (Hm0 & Hub & Hatt).
    destruct (Hfull i Hi) as [f Hf].
    unfold max_body. rewrite Hf. simpl.
    eexists. split; [done|].
    destruct (Z.gtb_spec (timestamp f) m) as [Hgt|Hle].
    + split; [lia|]. split.
      * intros j g Hj Hg. destruct (decide (j = i)) as [->|].
        -- rewrite Hf in Hg. simplify_eq. lia.
        -- specialize (Hub j g ltac:(lia) Hg). lia.
      * right. exists i, f. split; [lia | done].
    + split; [done|]. split.
      * intros j g Hj Hg. destruct (decide (j = i)) as [->|].
        -- rewrite Hf in Hg. by simplify_eq.
        -- apply (Hub j g); [lia | done].
      * destruct Hatt as [?|(j & g & ? & ? & ?)]; [by left|].
        right. exists j, g. split; [lia | done].
  - exists m. simpl in HI. destruct HI as (? & ? & ?). done.
Qed.


Lemma align_loop_spec (m : Z) (cur : list (option ts_frame_buf))
    (tr0 : list event) :
  length cur = cam_count →
  full_set_of cam_count cur →
  for_loop (align_body m) 0 cam_count (cur, tr0, true)
  = Some (retain m <$> cur,
          tr0 ++ concat (imap (recycle_event m) cur),
          forallb (matches m) cur).
Proof.
  intros Hlen Hfull.
  destruct (for_loop_inv (align_body m)
    (λ k s, s = ((retain m <$> take k cur) ++ drop k cur,
                 tr0 ++ concat (imap (recycle_event m) (take k cur)),
                 forallb (matches m) (take k cur)))
    0 cam_count (cur, tr0, true)) as (s & Hs & HI).
  - simpl. rewrite drop_0. by rewrite app_nil_r.
  - intros k s [_ Hk] ->. simpl in Hk.
    destruct (Hfull k Hk) as [f Hf].
    destruct (prefix_step (retain m <$> take k cur) cur k (Some f))
      as (Hlk & Hins & Hsame); [|done|].
    { rewrite length_fmap, length_take. lia. }
    assert (Hr : retain m (Some f)
                 = if (timestamp f =? m)%Z then Some f else None) by done.
    assert (He : recycle_event m k (Some f)
                 = if (timestamp f =? m)%Z then [] else [EvNq k (Some f)])
      by done.
    assert (Hb : align_body m k
              ((retain m <$> take k cur) ++ drop k cur,
               tr0 ++ concat (imap (recycle_event m) (take k cur)),
               forallb (matches m) (take k cur))
            = if negb (timestamp f =? m)%Z
              then Some (<[k:=None]>
                           ((retain m <$> take k cur) ++ drop k cur),
                         (tr0 ++ concat (imap (recycle_event m)
                                           (take k cur)))
                           ++ [EvNq k (Some f)], false)
              else Some ((retain m <$> take k cur) ++ drop k cur,
                         tr0 ++ concat (imap (recycle_event m)
                                          (take k cur)),
                         forallb (matches m) (take k cur))).
    { unfold align_body. by rewrite Hlk. }
    rewrite Hb. clear Hb.
    rewrite (take_S_r cur k (Some f) Hf).
    rewrite fmap_app, imap_app, concat_app, forallb_app.
    rewrite length_take, Nat.min_l by lia.
    change (retain m <$> [Some f]) with [retain m (Some f)].
    change (imap (λ n, recycle_event m (k + n)) [Some f])
      with [recycle_event m (k + 0) (Some f)].
    change (forallb (matches m) [Some f])
      with ((timestamp f =? m)%Z && true).
    rewrite Nat.add_0_r, Hr, He, andb_true_r.
    change (concat [if (timestamp f =? m)%Z then [] else [EvNq k (Some f)]])
      with ((if (timestamp f =? m)%Z then [] else [EvNq k (Some f)])
              ++ @nil event).
    rewrite app_nil_r.
    destruct (timestamp f =? m)%Z.
    + eexists. split; [done|]. rewrite app_nil_r, andb_true_r.
      by rewrite <- Hsame.
    + eexists. split; [done|]. rewrite Hins, andb_false_r.
      by rewrite app_assoc.
  - rewrite Hs, HI. simpl. rewrite <- Hlen, firstn_all, drop_all.
    by rewrite app_nil_r.
Qed.

Lemma release_loop_spec (cur : list (option ts_frame_buf))
    (tr0 : list event) :
  length cur = cam_count →
  for_loop release_body 0 cam_count (cur, tr0)
  = Some (replicate cam_count None, tr0 ++ imap EvNq cur).
Proof.
  intros Hlen.
  destruct (for_loop_inv release_body
    (λ k s, s = (replicate k None ++ drop k cur,
                 tr0 ++ imap EvNq (take k cur)))
    0 cam_count (cur, tr0)) as (s & Hs & HI).
  - simpl. by rewrite drop_0, app_nil_r.
  - intros k s [_ Hk] ->. simpl in Hk.
    destruct (lookup_lt_is_Some_2 cur k) as [p Hp]; [lia|].
    destruct (prefix_step (replicate k None) cur k p)
      as (Hlk & Hins & _); [by rewrite length_replicate | done |].
    unfold release_body. rewrite Hlk. simpl.
    eexists. split; [done|].
    rewrite Hins, (take_S_r cur k p Hp), imap_app.
    rewrite length_take, Nat.min_l by lia. simpl.
    rewrite Nat.add_0_r, app_assoc.
    by rewrite <- replicate_S_end.
  - rewrite Hs, HI. simpl. rewrite <- Hlen, firstn_all, drop_all.
    by rewrite app_nil_r.
Qed.

Lemma fill_loop_spec (cur : list (option ts_frame_buf))
    (calls : list nat) :
  length cur = cam_count →
  length calls = cam_count →
  for_loop (fill_body filled) 0 cam_count (cur, calls, true)
  = Some (imap (fetch filled) (zip cur calls),
          bump <$> zip cur calls,
          forallb held (imap (fetch filled) (zip cur calls))).
Proof.
  intros Hlen Hlen'.
  set (Z := zip cur calls).
  assert (HZ : length Z = cam_count).
  { unfold Z. rewrite length_zip_with. lia. }
  destruct (for_loop_inv (fill_body filled)
    (λ k s, s = (imap (fetch filled) (take k Z) ++ drop k cur,
                 (bump <$> take k Z) ++ drop k calls,
                 forallb held (imap (fetch filled) (take k Z))))
    0 cam_count (cur, calls, true)) as (s & Hs & HI).
  - simpl. by rewrite !drop_0.
  - intros k s [_ Hk] ->. simpl in Hk.
    destruct (lookup_lt_is_Some_2 cur k) as [p Hp]; [lia|].
    destruct (lookup_lt_is_Some_2 calls k) as [c Hc]; [lia|].
    assert (HZk : Z !! k = Some (p, c)).
    { unfold Z. rewrite lookup_zip_with, Hp. simpl. by rewrite Hc. }
    destruct (prefix_step (imap (fetch filled) (take k Z)) cur k p)
      as (Hlk & Hins & Hsame); [|done|].
    { rewrite length_imap, length_take. lia. }
    destruct (prefix_step (bump <$> take k Z) calls k c)
      as (Hlk' & Hins' & Hsame'); [|done|].
    { rewrite length_fmap, length_take. lia. }
    rewrite (take_S_r Z k (p, c) HZk).
    rewrite imap_app, fmap_app, forallb_app.
    rewrite length_take, Nat.min_l by lia.
    change (imap (λ n, fetch filled (k + n)) [(p, c)])
      with [fetch filled (k + 0) (p, c)].
    change (bump <$> [(p, c)]) with [bump (p, c)].
    rewrite Nat.add_0_r.
    unfold fill_body. rewrite Hlk. simpl.
    destruct p as [f|]; simpl.
    + eexists. split; [done|].
      change (fetch filled k (Some f, c)) with (Some f).
      change (bump (Some f, c)) with c.
      rewrite <- Hsame, <- Hsame'. simpl. by rewrite !andb_true_r.
    + rewrite Hlk'. simpl. eexists. split; [done|].
      change (fetch filled k (None, c)) with (filled k c).
      change (bump (None, c)) with (S c).
      rewrite Hins, Hins'. simpl. rewrite andb_true_r.
      destruct (filled k c); simpl; rewrite ?andb_true_r, ?andb_false_r; done.
  - rewrite Hs, HI. simpl.
    rewrite (take_ge Z), (drop_ge cur), (drop_ge calls) by lia.
    by rewrite !app_nil_r.
Qed.

End loops.

(** ** Facts about the slot-wise functions *)

Lemma forallb_lookup {A : Type} (f : A → bool) (l : list A) :
  forallb f l = true ↔ ∀ i x, l !! i = Some x → f x = true.
Proof.
  rewrite forallb_forall. split.
  - intros H i x Hx. apply H, list_elem_of_In, list_elem_of_lookup. eauto.
  - intros H x Hx. apply list_elem_of_In, list_elem_of_lookup in Hx.
    destruct Hx as [i Hi]. eauto.
Qed.

Lemma concat_imap_nil {A B : Type} (g : nat → A → list B) (l : list A) :
  (∀ i x, l !! i = Some x → g i x = []) → concat (imap g l) = [].
Proof.
  revert g. induction l as [|x l IH]; intros g Hg; [done|].
  simpl. rewrite (Hg 0 x eq_refl). simpl. apply IH.
  intros i y Hy. apply (Hg (S i) y Hy).
Qed.

Lemma matches_timestamp (m : Z) (p : option ts_frame_buf) :
  matches m p = true ↔ ∃ f, p = Some f ∧ timestamp f = m.
Proof.
  destruct p as [f|]; simpl.
  - rewrite Z.eqb_eq. split.
    + intros <-. by exists f.
    + by intros (g & [= <-] & <-).
  - split; [done | by intros (g & ? & _)].
Qed.

Lemma retain_all_match (m : Z) (cur : list (option ts_frame_buf)) :
  forallb (matches m) cur = true → retain m <$> cur = cur.
Proof.
  induction cur as [|p cur IH]; [done|].
  intros H. simpl in H. apply andb_true_iff in H as [Hp Hcur].
  rewrite fmap_cons, (IH Hcur). unfold retain. by rewrite Hp.
Qed.

Lemma recycle_all_match (m : Z) (cur : list (option ts_frame_buf)) :
  forallb (matches m) cur = true → concat (imap (recycle_event m) cur) = [].
Proof.
  intros H. apply concat_imap_nil. intros i p Hp.
  unfold recycle_event. by rewrite (proj1 (forallb_lookup _ _) H i p Hp).
Qed.

Lemma held_full_set (cur : list (option ts_frame_buf)) :
  forallb held cur = true → full_set_of (length cur) cur.
Proof.
  intros H i Hi.
  destruct (lookup_lt_is_Some_2 cur i Hi) as [p Hp].
  pose proof (proj1 (forallb_lookup _ _) H i p Hp) as Hh.
  destruct p as [f|]; [eauto | done].
Qed.

Section iterations.

Variable cam_count : nat.
Variable filled : nat → nat → option ts_frame_buf.

Lemma align_pass_spec (cur : list (option ts_frame_buf)) :
  length cur = cam_count →
  full_set_of cam_count cur →
  ∃ m, align_pass cam_count cur
       = Some (m, retain m <$> cur,
               concat (imap (recycle_event m) cur),
               forallb (matches m) cur)
     ∧ is_max_of cur m.
Proof.
  intros Hlen Hfull.
  destruct (max_loop_spec cam_count cur Hfull) as (m & Hm & H0 & Hub & Hatt).
  exists m. split.
  - unfold align_pass. rewrite Hm. simpl.
    by rewrite (align_loop_spec cam_count m cur [] Hlen Hfull).
  - split; [done|]. split.
    + intros i f Hi. apply (Hub i f); [|done].
      rewrite <- Hlen. by apply lookup_lt_Some in Hi.
    + destruct Hatt as [?|(i & f & ? & ? & ?)]; [by left|].
      right. by exists i, f.
Qed.

Lemma iteration_turn (st : sync_state) :
  wf_state cam_count st →
  ∃ st', iteration cam_count filled st = Some st'
       ∧ wf_state cam_count st'
       ∧ turn cam_count filled st st'.
Proof.
  intros [Hc Hd].
  set (cur1 := imap (fetch filled) (zip (current_frames st) (dq_calls st))).
  set (calls1 := bump <$> zip (current_frames st) (dq_calls st)).
  assert (Hl1 : length cur1 = cam_count).
  { unfold cur1. rewrite length_imap, length_zip_with. lia. }
  assert (Hl2 : length calls1 = cam_count).
  { unfold calls1. rewrite length_fmap, length_zip_with. lia. }
  unfold iteration.
  rewrite (fill_loop_spec cam_count filled _ _ Hc Hd). simpl.
  fold cur1 calls1.
  destruct (forallb held cur1) eqn:Hheld; simpl.
  - assert (Hfull : full_set_of cam_count cur1).
    { rewrite <- Hl1. by apply held_full_set. }
    destruct (align_pass_spec cur1 Hl1 Hfull) as (m & Hap & Hmax).
    rewrite Hap. simpl.
    destruct (forallb (matches m) cur1) eqn:Hall; simpl.
    + rewrite (retain_all_match m cur1 Hall).
      rewrite (recycle_all_match m cur1 Hall).
      rewrite (release_loop_spec cam_count cur1 _ Hl1). simpl.
      eexists. split; [done|]. split.
      * split; simpl; [by rewrite length_replicate | done].
      * eapply turn_emit; eauto. fold cur1 calls1.
        by rewrite <- app_assoc.
    + eexists. split; [done|]. split.
      * split; simpl; [by rewrite length_fmap | done].
      * eapply turn_recycle; eauto.
  - eexists. split; [done|]. split; [done|].
    by eapply turn_incomplete.
Qed.

End iterations.

(** ** What an alignment pass sends to the empty queues *)

Lemma recycle_events_snoc (m : Z) (l : list (option ts_frame_buf))
    (x : option ts_frame_buf) :
  concat (imap (recycle_event m) (l ++ [x]))
  = concat (imap (recycle_event m) l) ++ recycle_event m (length l) x.
Proof.
  rewrite imap_app, concat_app. simpl.
  by rewrite Nat.add_0_r, app_nil_r.
Qed.

Lemma enqueued_app (i : nat) (tr1 tr2 : list event) :
  enqueued i (tr1 ++ tr2) = enqueued i tr1 ++ enqueued i tr2.
Proof. apply omap_app. Qed.

Lemma emitted_app (tr1 tr2 : list event) :
  emitted (tr1 ++ tr2) = emitted tr1 ++ emitted tr2.
Proof. apply omap_app. Qed.

Lemma enqueued_recycle (m : Z) (cur : list (option ts_frame_buf)) (i : nat) :
  enqueued i (concat (imap (recycle_event m) cur))
  = match cur !! i with
    | Some p => if matches m p then [] else [p]
    | None => []
    end.
Proof.
  induction cur as [|x l IH] using rev_ind; [done|].
  rewrite recycle_events_snoc, enqueued_app, IH.
  destruct (lt_eq_lt_dec i (length l)) as [[Hlt|Heq]|Hgt].
  - rewrite lookup_app_l by done.
    assert (He : enqueued i (recycle_event m (length l) x) = []).
    { unfold recycle_event. destruct (matches m x); [done|].
      simpl. destruct (decide (length l = i)); [lia | done]. }
    by rewrite He, app_nil_r.
  - subst i. rewrite lookup_ge_None_2 by lia.
    rewrite list_lookup_middle by done.
    unfold recycle_event. destruct (matches m x); [done|].
    simpl. by destruct (decide (length l = length l)).
  - rewrite !lookup_ge_None_2 by (rewrite ?length_app; simpl; lia).
    unfold recycle_event. destruct (matches m x); [done|].
    simpl. destruct (decide (length l = i)); [lia | done].
Qed.

Lemma recycle_events_nq (m : Z) (cur : list (option ts_frame_buf))
    (e : event) :
  e ∈ concat (imap (recycle_event m) cur) →
  ∃ i p, e = EvNq i p ∧ cur !! i = Some p ∧ matches m p = false.
Proof.
  induction cur as [|x l IH] using rev_ind.
  - simpl. by intros ?%elem_of_nil.
  - rewrite recycle_events_snoc. intros [He|He]%elem_of_app.
    + destruct (IH He) as (i & p & -> & Hp & Hm).
      exists i, p. split; [done|]. split; [|done].
      by apply lookup_app_l_Some.
    + unfold recycle_event in He. destruct (matches m x) eqn:Hm.
      * by apply elem_of_nil in He.
      * apply list_elem_of_singleton in He as ->.
        exists (length l), x. split; [done|]. split; [|done].
        by apply list_lookup_middle.
Qed.

Lemma emitted_recycle (m : Z) (cur : list (option ts_frame_buf)) :
  emitted (concat (imap (recycle_event m) cur)) = [].
Proof.
  induction cur as [|x l IH] using rev_ind; [done|].
  rewrite recycle_events_snoc, emitted_app, IH.
  unfold recycle_event. by destruct (matches m x).
Qed.

Lemma length_recycle (m : Z) (cur : list (option ts_frame_buf)) :
  length (concat (imap (recycle_event m) cur))
  + length (filter (λ p, matches m p = true) cur)
  = length cur.
Proof.
  induction cur as [|x l IH] using rev_ind; [done|].
  rewrite recycle_events_snoc, filter_app, !length_app, filter_cons.
  change (recycle_event m (length l) x)
    with (if matches m x then [] else [EvNq (length l) x]).
  destruct (matches m x) eqn:Hm.
  - rewrite decide_True by done. simpl. lia.
  - rewrite decide_False by done. simpl. lia.
Qed.

Lemma retain_lookup (m : Z) (cur : list (option ts_frame_buf)) (i : nat) :
  (retain m <$> cur) !! i = retain m <$> cur !! i.
Proof. apply list_lookup_fmap. Qed.

Lemma emitted_nq (cur : list (option ts_frame_buf)) :
  emitted (imap EvNq cur) = [].
Proof.
  induction cur as [|x l IH] using rev_ind; [done|].
  rewrite imap_app, emitted_app, IH. done.
Qed.

(** ** The alignment pass (lines 183-200) *)

Section alignment.

Variable cam_count : nat.
Variable filled : nat → nat → option ts_frame_buf.

(** With a camera and unsigned timestamps, the computed maximum is the
    timestamp of one of the slots. *)
Lemma max_attained (cur : list (option ts_frame_buf)) (m : Z) :
  0 < cam_count →
  full_set_of cam_count cur →
  (∀ i f, cur !! i = Some (Some f) → is_u64 (timestamp f)) →
  is_max_of cur m →
  ∃ i f, cur !! i = Some (Some f) ∧ timestamp f = m.
Proof.
  intros Hpos Hfull Hu (H0 & Hub & [->|Hatt]); [|done].
  destruct (Hfull 0 Hpos) as [f Hf].
  exists 0, f. split; [done|].
  pose proof (Hub 0 f Hf). destruct (Hu 0 f Hf). lia.
Qed.

Lemma matches_false_lt (cur : list (option ts_frame_buf)) (m : Z)
    (i : nat) (f : ts_frame_buf) :
  is_max_of cur m →
  cur !! i = Some (Some f) →
  matches m (Some f) = false ↔ (timestamp f < m)%Z.
Proof.
  intros (_ & Hub & _) Hf. pose proof (Hub i f Hf). simpl.
  rewrite Z.eqb_neq. lia.
Qed.

(** C1. Whenever a turn of the loop emits a set (it logs the set, or it
    counts it in [complete_sets]), every slot holds a frame at that
    point and all these frames carry the logged timestamp: the turn
    appends to the trace the log line and then the release of exactly
    that set, one handle per camera, and any two handles of the set have
    the same timestamp. *)
Theorem emitted_set_aligned (st st' : sync_state) :
  wf_state cam_count st →
  iteration cam_count filled st = Some st' →
  complete_sets st' ≠ complete_sets st
    ∨ emitted (trace st') ≠ emitted (trace st) →
  ∃ (frames : list (option ts_frame_buf)) (t : Z),
    length frames = cam_count
    ∧ trace st' = trace st ++ [EvLogSet (complete_sets st) t]
                           ++ imap EvNq frames
    ∧ (∀ i, i < cam_count → ∃ f, frames !! i = Some (Some f)
                                 ∧ timestamp f = t)
    ∧ (∀ i j f g, frames !! i = Some (Some f) → frames !! j = Some (Some g) →
         timestamp f = timestamp g).
Proof.
  intros Hwf Hit Hemit.
  destruct (iteration_turn cam_count filled st Hwf) as (st1 & Hit1 & _ & Ht).
  rewrite Hit in Hit1. injection Hit1 as <-.
  destruct Ht as [cur1 Hheld ->|m cur1 Hfull Hmax Hall ->
                 |m cur1 Hfull Hmax Hall ->]; simpl in *.
  - by destruct Hemit.
  - rewrite emitted_app, emitted_recycle, app_nil_r in Hemit.
    by destruct Hemit.
  - assert (Hts : ∀ i f, cur1 !! i = Some (Some f) → timestamp f = m).
    { intros i f Hf.
      pose proof (proj1 (forallb_lookup _ _) Hall i _ Hf) as Hm.
      apply matches_timestamp in Hm as (g & [= <-] & Hg). done. }
    exists cur1, m. split; [|split; [done|split]].
    + unfold cur1. rewrite length_imap, length_zip_with.
      destruct Hwf. lia.
    + intros i Hi. destruct (Hfull i Hi) as [f Hf]. exists f.
      split; [done|]. by apply (Hts i).
    + intros i j f g Hf Hg. by rewrite (Hts i f Hf), (Hts j g Hg).
Qed.

(** C2. In an alignment pass over a full slot set, with [t_max] the
    maximum the pass computes: a slot whose timestamp is below [t_max]
    is set to [NULL] and its handle is put on its camera's empty queue,
    once; a slot whose timestamp is [t_max] keeps its frame and nothing
    is put on its camera's empty queue; and the pass enqueues nothing
    else. *)
Theorem align_pass_recycles_below_max (cur : list (option ts_frame_buf)) :
  length cur = cam_count →
  full_set_of cam_count cur →
  ∃ t_max cur' evs all_equal,
    align_pass cam_count cur = Some (t_max, cur', evs, all_equal)
    ∧ is_max_of cur t_max
    ∧ (0 < cam_count →
       (∀ i f, cur !! i = Some (Some f) → is_u64 (timestamp f)) →
       ∃ i f, cur !! i = Some (Some f) ∧ timestamp f = t_max)
    ∧ length cur' = cam_count
    ∧ (∀ i f, cur !! i = Some (Some f) →
         ((timestamp f < t_max)%Z →
            cur' !! i = Some None ∧ enqueued i evs = [Some f])
         ∧ (timestamp f = t_max →
            cur' !! i = Some (Some f) ∧ enqueued i evs = []))
    ∧ (∀ e, e ∈ evs →
         ∃ i f, e = EvNq i (Some f) ∧ cur !! i = Some (Some f)
                ∧ (timestamp f < t_max)%Z).
Proof.
  intros Hlen Hfull.
  destruct (align_pass_spec cam_count cur Hlen Hfull) as (m & Hap & Hmax).
  eexists m, _, _, _. split; [exact Hap|]. split; [done|].
  split; [|split; [|split]].
  - intros Hpos Hu. by apply (max_attained cur m).
  - by rewrite length_fmap.
  - intros i f Hf. rewrite retain_lookup, enqueued_recycle, Hf.
    unfold retain. simpl. split.
    + intros Hlt. assert ((timestamp f =? m)%Z = false) as ->.
      { apply Z.eqb_neq. lia. }
      done.
    + intros ->. by rewrite Z.eqb_refl.
  - intros e He.
    apply recycle_events_nq in He as (i & p & -> & Hp & Hm).
    assert (i < cam_count) as Hi.
    { rewrite <- Hlen. by apply lookup_lt_Some in Hp. }
    destruct (Hfull i Hi) as [f Hf]. rewrite Hf in Hp.
    injection Hp as <-. exists i, f. split; [done|]. split; [done|].
    by apply (matches_false_lt cur m i f).
Qed.

(** C9. An alignment pass over a full slot set of at least one camera,
    with unsigned timestamps, keeps a slot. The [t_max] it computes is
    the maximum of the timestamps in the slots: no slot is above it and
    some slot holds it. Every slot that holds the maximum stays as it is
    and nothing is enqueued for its camera; so the pass enqueues at most
    [cam_count - 1] handles and does not leave every slot [NULL]. *)
Theorem align_pass_keeps_a_slot (cur : list (option ts_frame_buf)) :
  0 < cam_count →
  length cur = cam_count →
  full_set_of cam_count cur →
  (∀ i f, cur !! i = Some (Some f) → is_u64 (timestamp f)) →
  ∃ t_max cur' evs all_equal,
    align_pass cam_count cur = Some (t_max, cur', evs, all_equal)
    ∧ is_max_of cur t_max
    ∧ (∀ i f, cur !! i = Some (Some f) → (timestamp f ≤ t_max)%Z)
    ∧ (∃ i f, cur !! i = Some (Some f) ∧ timestamp f = t_max
              ∧ cur' !! i = Some (Some f) ∧ enqueued i evs = [])
    ∧ (∀ i f, cur !! i = Some (Some f) → timestamp f = t_max →
         cur' !! i = Some (Some f) ∧ enqueued i evs = [])
    ∧ length evs ≤ cam_count - 1
    ∧ cur' ≠ replicate cam_count None.
Proof.
  intros Hpos Hlen Hfull Hu.
  destruct (align_pass_spec cam_count cur Hlen Hfull) as (m & Hap & Hmax).
  destruct (max_attained cur m Hpos Hfull Hu Hmax) as (i0 & f0 & Hf0 & Ht0).
  assert (Hkeep : ∀ i f, cur !! i = Some (Some f) → timestamp f = m →
            (retain m <$> cur) !! i = Some (Some f)
            ∧ enqueued i (concat (imap (recycle_event m) cur)) = []).
  { intros i f Hf Ht. rewrite retain_lookup, enqueued_recycle, Hf.
    unfold retain. simpl. rewrite Ht. by rewrite Z.eqb_refl. }
  eexists m, _, _, _. split; [exact Hap|].
  split; [exact Hmax|]. split; [exact (proj1 (proj2 Hmax))|].
  split; [|split; [|split]].
  - exists i0, f0. destruct (Hkeep i0 f0 Hf0 Ht0). done.
  - done.
  - pose proof (length_recycle m cur) as Hl.
    assert (0 < length (filter (λ p, matches m p = true) cur)).
    { assert (Some f0 ∈ filter (λ p, matches m p = true) cur) as Hin.
      { apply list_elem_of_filter. split.
        - simpl. by apply Z.eqb_eq.
        - apply list_elem_of_lookup. by exists i0. }
      destruct (filter _ cur); [by apply elem_of_nil in Hin | simpl; lia]. }
    lia.
  - intros Heq. destruct (Hkeep i0 f0 Hf0 Ht0) as [Hl _].
    rewrite Heq in Hl. apply lookup_replicate in Hl as [? _]. done.
Qed.

End alignment.

(** ** Invariants of the loop *)

Lemma StronglySorted_snoc (l : list Z) (a : Z) :
  StronglySorted Z.lt l → (∀ x, x ∈ l → (x < a)%Z) →
  StronglySorted Z.lt (l ++ [a]).
Proof.
  induction l as [|x l IH]; intros Hs Hlt; simpl.
  - repeat constructor.
  - apply StronglySorted_inv in Hs as [Hs Hx]. constructor.
    + apply IH; [done|]. intros y Hy. apply Hlt. by right.
    + apply Forall_app. split; [done|]. constructor; [|constructor].
      apply Hlt. by left.
Qed.

Section invariants.

Variable cam_count : nat.
Variable filled : nat → nat → option ts_frame_buf.

Lemma fill_lookup (cur : list (option ts_frame_buf)) (calls : list nat)
    (i : nat) (p : option ts_frame_buf) (c : nat) :
  cur !! i = Some p → calls !! i = Some c →
  imap (fetch filled) (zip cur calls) !! i = Some (fetch filled i (p, c))
  ∧ (bump <$> zip cur calls) !! i = Some (bump (p, c)).
Proof.
  intros Hp Hc.
  rewrite list_lookup_imap, list_lookup_fmap, lookup_zip_with, Hp.
  simpl. by rewrite Hc.
Qed.

Lemma wf_lookup (st : sync_state) (i : nat) :
  wf_state cam_count st → i < cam_count →
  ∃ p c, current_frames st !! i = Some p ∧ dq_calls st !! i = Some c.
Proof.
  intros [Hc Hd] Hi.
  destruct (lookup_lt_is_Some_2 (current_frames st) i) as [p Hp]; [lia|].
  destruct (lookup_lt_is_Some_2 (dq_calls st) i) as [c Hcl]; [lia|].
  by exists p, c.
Qed.

(** A frame in a slot after lines 167-177 is the result of the latest
    call on that camera. *)
Lemma fill_provenance (st : sync_state) (i : nat) (f : ts_frame_buf) :
  provenance filled st →
  imap (fetch filled) (zip (current_frames st) (dq_calls st)) !! i
    = Some (Some f) →
  ∃ c, (bump <$> zip (current_frames st) (dq_calls st)) !! i = Some (S c)
       ∧ filled i c = Some f.
Proof.
  intros Hprov Hf.
  rewrite list_lookup_imap in Hf.
  destruct (zip (current_frames st) (dq_calls st) !! i) as [[p c]|] eqn:Hz;
    [|done].
  apply lookup_zip_with_Some in Hz as (p' & c' & [= <- <-] & Hp & Hc).
  destruct (fill_lookup _ _ i p c Hp Hc) as [_ ->].
  simpl in Hf. injection Hf as Hf. unfold fetch in Hf. simpl in Hf.
  destruct p as [g|]; simpl.
  - injection Hf as ->. destruct (Hprov i f Hp) as (c0 & Hc0 & Hf0).
    rewrite Hc in Hc0. injection Hc0 as ->. by exists c0.
  - by exists c.
Qed.

Lemma turn_provenance (st st' : sync_state) :
  provenance filled st → turn cam_count filled st st' →
  provenance filled st'.
Proof.
  intros Hprov [cur1 Hheld ->|m cur1 Hfull Hmax Hall ->
               |m cur1 Hfull Hmax Hall ->]; intros i f; simpl.
  - apply fill_provenance. done.
  - rewrite retain_lookup. intros Hf.
    apply (fill_provenance st i f Hprov). fold cur1.
    destruct (cur1 !! i) as [p|]; [|done]. simpl in Hf.
    unfold retain in Hf. destruct (matches m p); [done|].
    by injection Hf.
  - intros [Hf _]%lookup_replicate. done.
Qed.

Lemma init_provenance (tr : list event) :
  provenance filled (sync_init cam_count tr).
Proof. intros i f [Hf _]%lookup_replicate. done. Qed.

Lemma init_wf (tr : list event) : wf_state cam_count (sync_init cam_count tr).
Proof. split; simpl; by rewrite length_replicate. Qed.

End invariants.

Section loop_rule.

Variable cam_count : nat.
Variable filled : nat → nat → option ts_frame_buf.

(** An invariant of the turns the loop takes is an invariant of the
    loop, and the loop does not fault. *)
Lemma sync_loop_inv (I : sync_state → Prop) :
  (∀ st, I st → (complete_sets st < 100)%Z →
     ∃ st', iteration cam_count filled st = Some st' ∧ I st') →
  ∀ fuel st, I st →
    ∃ st', sync_loop cam_count filled fuel st = Some st' ∧ I st'.
Proof.
  intros Hstep fuel. induction fuel as [|fuel IH]; intros st HI; simpl.
  - by exists st.
  - destruct (Z.ltb_spec (complete_sets st) 100) as [Hlt|_];
      [|by exists st].
    destruct (Hstep st HI Hlt) as (st1 & -> & HI1). simpl. by apply IH.
Qed.

Lemma sync_loop_add (fuel1 fuel2 : nat) (st st1 : sync_state) :
  sync_loop cam_count filled fuel1 st = Some st1 →
  sync_loop cam_count filled (fuel1 + fuel2) st
  = sync_loop cam_count filled fuel2 st1.
Proof.
  revert st. induction fuel1 as [|fuel1 IH]; intros st H; simpl in *.
  - by injection H as ->.
  - destruct (complete_sets st <? 100)%Z eqn:Hc.
    + destruct (iteration cam_count filled st) as [st2|]; [|done].
      simpl in *. by apply IH.
    + injection H as <-. destruct fuel2; simpl; [done | by rewrite Hc].
Qed.

End loop_rule.

(** ** Monotonicity of the emitted timestamps *)

Section monotone.

Variable cam_count : nat.
Variable filled : nat → nat → option ts_frame_buf.
Hypothesis Hpos : 0 < cam_count.
Hypothesis Hmono : increasing_supply cam_count filled.

Lemma turn_above_emitted (tr0 : list event) (st st' : sync_state) :
  wf_state cam_count st →
  provenance filled st →
  above_emitted filled tr0 st →
  turn cam_count filled st st' →
  above_emitted filled tr0 st'.
Proof.
  intros Hwf Hprov (evs & Htr & Hsorted & Habove) Ht.
  destruct (wf_lookup cam_count st 0 Hwf Hpos) as (p & c & Hp & Hc).
  destruct (fill_lookup filled _ _ 0 p c Hp Hc) as [Hp1 Hc1].
  set (cur1 := imap (fetch filled) (zip (current_frames st) (dq_calls st)))
    in *.
  set (calls1 := bump <$> zip (current_frames st) (dq_calls st)) in *.
  assert (Hfill : ∀ e, e ∈ emitted evs →
    (∀ f, cur1 !! 0 = Some (Some f) → (e < timestamp f)%Z)
    ∧ (∀ c1 k f, calls1 !! 0 = Some c1 → c1 ≤ k →
         filled 0 k = Some f → (e < timestamp f)%Z)).
  { intros e He. destruct (Habove e He) as [Hheld Hfut].
    rewrite Hp1, Hc1. destruct p as [g|]; unfold fetch, bump; simpl.
    - split.
      + intros f [= <-]. by apply Hheld.
      + intros c1 k f [= <-]. by apply Hfut.
    - split.
      + intros f [= Hf]. apply (Hfut c c f); [done | lia | done].
      + intros c1 k f [= <-] Hk. apply (Hfut c k f); [done | lia]. }
  destruct Ht as [cur1' Hheld ->|m cur1' Hfull Hmax Hall ->
                 |m cur1' Hfull Hmax Hall ->]; subst cur1'; simpl.
  - exists evs. done.
  - exists (evs ++ concat (imap (recycle_event m) cur1)). simpl.
    split; [by rewrite Htr, app_assoc|].
    rewrite emitted_app, emitted_recycle, app_nil_r.
    split; [done|]. intros e He. destruct (Hfill e He) as [Hheld Hfut].
    split; [|done]. intros f Hf. apply Hheld.
    rewrite retain_lookup in Hf. fold cur1 in Hf.
    destruct (cur1 !! 0) as [q|]; [|done]. simpl in Hf.
    unfold retain in Hf. by destruct (matches m q).
  - destruct (Hfull 0 Hpos) as [f0 Hf0].
    assert (timestamp f0 = m) as Hm.
    { pose proof (proj1 (forallb_lookup _ _) Hall 0 _ Hf0) as Hm.
      apply matches_timestamp in Hm as (g & [= <-] & Hg). done. }
    exists (evs ++ [EvLogSet (complete_sets st) m] ++ imap EvNq cur1).
    simpl. split; [by rewrite Htr, <- app_assoc|].
    change (EvLogSet (complete_sets st) m :: imap EvNq cur1)
      with ([EvLogSet (complete_sets st) m] ++ imap EvNq cur1).
    rewrite !emitted_app, emitted_nq, app_nil_r.
    change (emitted [EvLogSet (complete_sets st) m]) with [m].
    split.
    + apply StronglySorted_snoc; [done|].
      intros x Hx. destruct (Hfill x Hx) as [Hheld _].
      rewrite <- Hm. by apply Hheld.
    + intros e [He|He]%elem_of_app.
      * destruct (Hfill e He) as [_ Hfut]. split; [|done].
        intros f [Hf _]%lookup_replicate. done.
      * apply list_elem_of_singleton in He as ->. split.
        { intros f [Hf _]%lookup_replicate. done. }
        intros c1 k g Hc1' Hk Hg.
        destruct (fill_provenance filled st 0 f0 Hprov Hf0)
          as (c0 & Hc0 & Hsrc).
        assert (Some c1 = Some (S c0)) as [= ->].
        { rewrite <- Hc0. by rewrite <- Hc1'. }
        rewrite <- Hm. apply (Hmono 0 c0 k f0 g); [done | lia | done | done].
Qed.

(** With strictly increasing timestamps on each camera's filled queue,
    however long the loop runs it does not fault, and the timestamps of
    the sets it has logged are strictly increasing. *)
Lemma sync_loop_emitted_increase (fuel : nat) (tr0 : list event) :
  ∃ st evs,
    sync_loop cam_count filled fuel (sync_init cam_count tr0) = Some st
    ∧ trace st = tr0 ++ evs
    ∧ StronglySorted Z.lt (emitted evs).
Proof.
  destruct (sync_loop_inv cam_count filled
    (λ st, wf_state cam_count st ∧ provenance filled st
           ∧ above_emitted filled tr0 st)) with (fuel := fuel)
    (st := sync_init cam_count tr0) as (st & Hst & _ & _ & Hab).
  - intros st (Hwf & Hprov & Hab) _.
    destruct (iteration_turn cam_count filled st Hwf)
      as (st' & Hit & Hwf' & Ht).
    exists st'. split; [done|]. split; [done|]. split.
    + by apply (turn_provenance cam_count filled st).
    + by apply (turn_above_emitted tr0 st).
  - split; [apply init_wf|]. split; [apply init_provenance|].
    exists []. simpl. rewrite app_nil_r. split; [done|].
    split; [constructor|]. by intros e ?%elem_of_nil.
  - destruct Hab as (evs & Htr & Hsorted & _). by exists st, evs.
Qed.

End monotone.

(** ** The start anchor (lines 154-157) *)

Lemma wrap64_range (z : Z) : is_u64 (wrap64 z).
Proof. unfold is_u64, wrap64. apply Z.mod_pos_bound. lia. Qed.

Lemma wrap64_small (z : Z) : is_u64 z → wrap64 z = z.
Proof. unfold is_u64, wrap64. intros H. by apply Z.mod_small. Qed.

Lemma start_anchor_wrap (s n : Z) :
  start_anchor s n = wrap64 ((s + 1) * 1000000000 + n).
Proof.
  unfold start_anchor, wrap64, TIMESTAMP_DELAY.
  rewrite Zplus_mod_idemp_r, Zmult_mod_idemp_l, Zplus_mod_idemp_l. done.
Qed.

Lemma le_value_object_bytes (k : nat) (z : Z) :
  le_value (object_bytes k z) = (z mod 256 ^ Z.of_nat k)%Z.
Proof.
  revert z. induction k as [|k IH]; intros z.
  - simpl. by rewrite Z.mod_1_r.
  - change (le_value (object_bytes (S k) z))
      with (z mod 256 + 256 * le_value (object_bytes k (z / 256)))%Z.
    rewrite IH, Nat2Z.inj_succ, Z.pow_succ_r by lia.
    rewrite Z.rem_mul_r by lia. done.
Qed.

Lemma object_bytes_length (k : nat) (z : Z) : length (object_bytes k z) = k.
Proof. revert z. induction k as [|k IH]; intros z; simpl; [done|]. by rewrite IH. Qed.

Lemma object_bytes_range (k : nat) (z : Z) :
  Forall (λ b, (0 ≤ b < 256)%Z) (object_bytes k z).
Proof.
  revert z. induction k as [|k IH]; intros z; simpl; constructor.
  - apply Z.mod_pos_bound. lia.
  - apply IH.
Qed.

(** ** The buffer pool (lines 89-103) *)

Lemma init_frame_bufs_spec (frame_bufs frame_buf_size : Z) (n : nat)
    (arr : list ts_frame_buf) :
  length arr = n →
  for_loop (init_body frame_bufs frame_buf_size) 0 n arr
  = Some (imap (λ i, set_frame_buf
                       (frame_bufs + wrap64 (Z.of_nat i * frame_buf_size)))
            arr).
Proof.
  intros Hlen.
  set (F := λ i : nat, set_frame_buf
              (frame_bufs + wrap64 (Z.of_nat i * frame_buf_size))).
  destruct (for_loop_inv (init_body frame_bufs frame_buf_size)
    (λ k a, a = imap F (take k arr) ++ drop k arr) 0 n arr)
    as (a & Ha & HI).
  - simpl. by rewrite drop_0.
  - intros k a [_ Hk] ->. simpl in Hk.
    destruct (lookup_lt_is_Some_2 arr k) as [b Hb]; [lia|].
    destruct (prefix_step (imap F (take k arr)) arr k b)
      as (Hlk & Hins & _); [|done|].
    { rewrite length_imap, length_take. lia. }
    unfold init_body. rewrite Hlk. simpl.
    eexists. split; [done|].
    rewrite Hins, (take_S_r arr k b Hb), imap_app.
    rewrite length_take, Nat.min_l by lia. simpl.
    by rewrite Nat.add_0_r.
  - rewrite Ha, HI. simpl.
    rewrite take_ge, drop_ge by lia. by rewrite app_nil_r.
Qed.

Section pool.

Variables cam_count frame_buf_size frame_bufs : Z.
Hypothesis Hcams : (0 < cam_count)%Z.
Hypothesis Hcount : (cam_count * FRAME_BUFS_PER_THREAD < 2 ^ 31)%Z.
Hypothesis Hsize : (0 < frame_buf_size)%Z.
Hypothesis Hbytes :
  (cam_count * FRAME_BUFS_PER_THREAD * frame_buf_size < 2 ^ 64)%Z.





End pool.



(** ** Start-up and shutdown of [main] *)

Lemma for_loop_inv_partial {St : Type} (body : nat → St → option St)
    (I : nat → St → Prop) (lo n : nat) (s s' : St) :
  I lo s →
  (∀ i s s', lo ≤ i < lo + n → I i s → body i s = Some s' → I (S i) s') →
  for_loop body lo n s = Some s' →
  I (lo + n) s'.
Proof.
  revert lo s. induction n as [|n IH]; intros lo s H0 Hstep; simpl.
  - intros [= <-]. by rewrite Nat.add_0_r.
  - destruct (body lo s) as [s1|] eqn:Hb; [|done]. simpl. intros Hl.
    replace (lo + S n) with (S lo + n) by lia.
    apply (IH (S lo) s1); [|intros i t t' Hi; apply Hstep; lia|done].
    apply (Hstep lo s s1); [lia | done | done].
Qed.

Lemma emitted_snoc_other (tr : list event) (ev : event) :
  emitted [ev] = [] → emitted (tr ++ [ev]) = emitted tr.
Proof. intros H. by rewrite emitted_app, H, app_nil_r. Qed.

Lemma prime_emitted (ts_frame_bufs : list ts_frame_buf) (n : nat)
    (tr tr' : list event) :
  for_loop (prime_body ts_frame_bufs) 0 n tr = Some tr' →
  emitted tr' = emitted tr.
Proof.
  apply (for_loop_inv_partial (prime_body ts_frame_bufs)
           (λ _ t, emitted t = emitted tr)); [done|].
  intros i t t' _ Ht. unfold prime_body.
  apply (for_loop_inv_partial _ (λ _ u, emitted u = emitted tr)).
  - by rewrite emitted_app, app_nil_r.
  - intros j u u' _ Hu. unfold prime_slot.
    destruct (ts_frame_bufs !! _) as [b|]; [|done]. simpl.
    intros [= <-]. by rewrite emitted_snoc_other.
Qed.

Lemma prime_ok (ts_frame_bufs : list ts_frame_buf) (n : nat)
    (tr : list event) :
  n * Z.to_nat FRAME_BUFS_PER_THREAD ≤ length ts_frame_bufs →
  ∃ tr', for_loop (prime_body ts_frame_bufs) 0 n tr = Some tr'.
Proof.
  intros Hlen.
  destruct (for_loop_inv (prime_body ts_frame_bufs) (λ _ _, True) 0 n tr)
    as (tr' & Htr' & _); [done | | by exists tr'].
  intros i t [_ Hi] _. simpl in Hi. unfold prime_body.
  destruct (for_loop_inv
              (prime_slot ts_frame_bufs i (i * Z.to_nat FRAME_BUFS_PER_THREAD))
              (λ _ _, True) 0 (Z.to_nat FRAME_BUFS_PER_THREAD)
              (t ++ [EvQueueInit (i * 2) (i * Z.to_nat FRAME_BUFS_PER_THREAD)
                       FRAME_BUFS_PER_THREAD;
                     EvQueueInit (i * 2 + 1)
                       (i * Z.to_nat FRAME_BUFS_PER_THREAD)
                       FRAME_BUFS_PER_THREAD]))
    as (t' & Ht' & _); [done | | by exists t'].
  intros j u [_ Hj] _. simpl in Hj. unfold prime_slot.
  destruct (lookup_lt_is_Some_2 ts_frame_bufs
              (i * Z.to_nat FRAME_BUFS_PER_THREAD + j)) as [b ->]; [nia|].
  simpl. by eexists.
Qed.

Lemma spawn_loop_emitted (create : nat → Z) (lo n : nat) (tr : list event)
    (ret : Z) :
  match spawn_loop create lo n tr ret with
  | inl (tr', _) | inr (tr', _) => emitted tr' = emitted tr
  end.
Proof.
  revert lo tr ret. induction n as [|n IH]; intros lo tr ret; simpl; [done|].
  destruct (negb (create lo =? 0)%Z); [done|].
  specialize (IH (S lo) (tr ++ [EvSpawn lo (lo mod 8)]) (create lo)).
  destruct (spawn_loop _ _ _ _ _) as [[tr' r]|[tr' r]];
    by rewrite IH, emitted_snoc_other.
Qed.

Lemma spawn_loop_ok (create : nat → Z) (lo n : nat) (tr : list event)
    (ret : Z) :
  0 < n →
  (∀ i, lo ≤ i < lo + n → create i = 0%Z) →
  spawn_loop create lo n tr ret
  = inr (tr ++ ((λ i, EvSpawn i (i mod 8)) <$> seq lo n), 0%Z).
Proof.
  revert lo tr ret. induction n as [|n IH]; intros lo tr ret Hn Hok; [lia|].
  simpl. rewrite (Hok lo) by lia. simpl.
  destruct n as [|n].
  - done.
  - rewrite IH; [|lia|intros i Hi; apply Hok; lia].
    by rewrite <- app_assoc.
Qed.

Lemma stop_payload :
  take (strlen stop_msg) stop_msg = [83; 84; 79; 80]%Z
  ∧ strlen stop_msg = 4.
Proof. done. Qed.

(** No start-up logs a set, and [main] reaches its loop with a camera. *)
Lemma main_startup_emitted (e : env) :
  match main_startup e with
  | inl (tr, _) => emitted tr = []
  | inr (tr, _) => emitted tr = [] ∧ (0 < count_cameras_ret e)%Z
  end.
Proof.
  unfold main_startup. cbv zeta.
  destruct (negb (setup_logging_ret e =? 0)%Z); [done|].
  destruct (Z.leb_spec (count_cameras_ret e) 0) as [?|Hpos]; [done|].
  destruct (negb (parse_conf_ret e =? 0)%Z); [done|].
  destruct (sched_setaffinity_ret e =? -1)%Z; [done|].
  destruct (malloc_ret e =? 0)%Z; [done|].
  destruct (init_frame_bufs _ _ _ _) as [slots|]; [|done].
  destruct (for_loop (prime_body slots) _ _ _) as [tr|] eqn:Hprime; [|done].
  apply prime_emitted in Hprime.
  pose proof (spawn_loop_emitted (pthread_create_ret e) 0
                (Z.to_nat (count_cameras_ret e)) tr
                (sched_setaffinity_ret e)) as Hspawn.
  destruct (spawn_loop _ _ _ _ _) as [[tr' r]|[tr' r]].
  - by rewrite emitted_app, Hspawn, Hprime.
  - split; [|done]. by rewrite emitted_app, Hspawn, Hprime.
Qed.

(** A start-up whose calls succeed reaches the loop, and the last thing
    it does is to send the start anchor. *)
Lemma main_startup_ok (e : env) :
  startup_ok e →
  ∃ tr, main_startup e
        = inr (tr ++ [EvBroadcast (Z.to_nat (count_cameras_ret e))
                        (object_bytes sizeof_uint64
                           (start_anchor (tv_sec e) (tv_nsec e)))],
               0%Z).
Proof.
  intros (Hlog & Hcams & Hfits & Hconf & Hpin & Hmem & Hspawn).
  unfold main_startup. cbv zeta. rewrite Hlog, Hconf, Z.eqb_refl. cbn [negb].
  destruct (Z.leb_spec (count_cameras_ret e) 0) as [?|_]; [lia|].
  destruct (Z.eqb_spec (sched_setaffinity_ret e) (-1)) as [?|_]; [done|].
  destruct (Z.eqb_spec (malloc_ret e) 0) as [?|_]; [done|].
  assert (Hcount : frame_bufs_count (count_cameras_ret e)
                   = (count_cameras_ret e * FRAME_BUFS_PER_THREAD)%Z).
  { unfold frame_bufs_count. apply wrap64_small. unfold is_u64.
    unfold FRAME_BUFS_PER_THREAD in *. lia. }
  unfold init_frame_bufs. rewrite init_frame_bufs_spec
    by (by rewrite length_fmap, length_seq).
  set (slots := imap _ _).
  destruct (prime_ok slots (Z.to_nat (count_cameras_ret e))
              [EvPin (count_cameras_ret e mod 8);
               EvMalloc (frame_bufs_bytes
                           (frame_bufs_count (count_cameras_ret e))
                           (decoded_frame_buf_size (DECODED_FRAME_WIDTH e)
                              (DECODED_FRAME_HEIGHT e)))])
    as [tr Htr].
  { unfold slots. rewrite length_imap, length_fmap, length_seq, Hcount.
    unfold FRAME_BUFS_PER_THREAD. lia. }
  cbn [app]. rewrite Htr.
  rewrite spawn_loop_ok; [|lia|intros i Hi; apply Hspawn; lia].
  unfold broadcast_msg.
  rewrite take_ge by (rewrite object_bytes_length; lia).
  by eexists.
Qed.

Lemma main_shutdown_trace (e : env) :
  main_shutdown e
  = EvBroadcast (Z.to_nat (count_cameras_ret e)) [83; 84; 79; 80]%Z
    :: map EvJoin (seq 0 (Z.to_nat (count_cameras_ret e)))
    ++ [EvFree (malloc_ret e); EvCleanupLogging].
Proof. done. Qed.

(** The start-up failures that return a negated error number. *)
Lemma startup_failures_negated (fuel : nat) (e : env) :
  (setup_logging_ret e ≠ 0%Z →
     main fuel e = ([EvPrintf], Returned (- errno_setup_logging e)))
  ∧ (setup_logging_ret e = 0%Z → (0 < count_cameras_ret e)%Z →
     parse_conf_ret e = 0%Z → sched_setaffinity_ret e = (-1)%Z →
     snd (main fuel e) = Returned (- errno_sched_setaffinity e))
  ∧ (setup_logging_ret e = 0%Z → (0 < count_cameras_ret e)%Z →
     parse_conf_ret e = 0%Z → sched_setaffinity_ret e ≠ (-1)%Z →
     malloc_ret e = 0%Z →
     snd (main fuel e) = Returned (- ENOMEM)).
Proof.
  unfold main, main_startup. cbv zeta. split; [|split].
  - intros H. by destruct (Z.eqb_spec (setup_logging_ret e) 0).
  - intros -> Hc -> ->. rewrite !Z.eqb_refl. cbn [negb].
    by destruct (Z.leb_spec (count_cameras_ret e) 0); [lia|].
  - intros -> Hc -> Hp ->. rewrite !Z.eqb_refl. cbn [negb].
    destruct (Z.leb_spec (count_cameras_ret e) 0); [lia|].
    by destruct (Z.eqb_spec (sched_setaffinity_ret e) (-1)).
Qed.

Lemma emitted_join (l : list nat) : emitted (map EvJoin l) = [].
Proof. by induction l. Qed.

Lemma emitted_shutdown (e : env) : emitted (main_shutdown e) = [].
Proof.
  unfold main_shutdown, broadcast_msg. cbv zeta.
  by rewrite !emitted_app, emitted_join.
Qed.

(** C3. With strictly increasing timestamps on each camera's filled
    queue, in whatever way [main] goes and however long its loop runs,
    the timestamps of the sets it has logged are strictly increasing; and
    once [main] is in its loop, the loop does not fault. *)
Theorem emitted_timestamps_increase (e : env) (fuel : nat) :
  increasing_supply (Z.to_nat (count_cameras_ret e)) (filled_dq e) →
  StronglySorted Z.lt (emitted (fst (main fuel e)))
  ∧ (∀ tr0 ret, main_startup e = inr (tr0, ret) →
       ∃ st evs,
         sync_loop (Z.to_nat (count_cameras_ret e)) (filled_dq e) fuel
           (sync_init (Z.to_nat (count_cameras_ret e)) tr0) = Some st
         ∧ trace st = tr0 ++ evs
         ∧ StronglySorted Z.lt (emitted evs)).
Proof.
  intros Hmono. unfold main.
  pose proof (main_startup_emitted e) as Hstart.
  destruct (main_startup e) as [[tr o]|[tr0 ret]].
  - split; [|done]. simpl. rewrite Hstart. constructor.
  - destruct Hstart as [Hem Hpos].
    destruct (sync_loop_emitted_increase
                (Z.to_nat (count_cameras_ret e)) (filled_dq e)
                ltac:(lia) Hmono fuel tr0)
      as (st & evs & Hrun & Htr & Hsorted).
    split.
    + rewrite Hrun.
      destruct (complete_sets st <? 100)%Z; simpl;
        rewrite ?emitted_app, ?emitted_shutdown, ?app_nil_r, Htr,
          emitted_app, Hem; done.
    + intros tr0' ret' [= <- <-]. by exists st, evs.
Qed.

(** C8. When the start-up succeeds, the last thing it does is to send the
    start anchor to every camera. The message is the 8 bytes of a
    [uint64_t] whose value is the clock reading in nanoseconds plus one
    second, for every reading: in 64-bit arithmetic
    [(tv_sec + 1) * 10^9 + tv_nsec] is [(tv_sec * 10^9 + tv_nsec) + 10^9],
    and as long as that sum fits 64 bits it is the sum itself. *)
Theorem start_anchor_is_now_plus_one_second (e : env) :
  let cams := Z.to_nat (count_cameras_ret e) in
  let s := tv_sec e in
  let n := tv_nsec e in
  let payload := object_bytes sizeof_uint64 (start_anchor s n) in
  (startup_ok e →
   ∃ tr, main_startup e = inr (tr ++ [EvBroadcast cams payload], 0%Z))
  ∧ broadcast_msg cams payload sizeof_uint64 = EvBroadcast cams payload
  ∧ length payload = 8
  ∧ Forall (λ b, (0 ≤ b < 256)%Z) payload
  ∧ le_value payload = start_anchor s n
  ∧ start_anchor s n = wrap64 ((s + 1) * 10 ^ 9 + n)
  ∧ start_anchor s n = wrap64 (now_ns s n + TIMESTAMP_DELAY * 10 ^ 9)
  ∧ ((0 ≤ s)%Z → (0 ≤ n)%Z → (s * 10 ^ 9 + n + 10 ^ 9 < 2 ^ 64)%Z →
     start_anchor s n = (s * 10 ^ 9 + n + 10 ^ 9)%Z).
Proof.
  intros cams s n payload. subst cams s n payload.
  split; [apply main_startup_ok|].
  split; [|split; [|split; [|split; [|split; [|split]]]]].
  - unfold broadcast_msg. rewrite take_ge; [done|].
    by rewrite object_bytes_length.
  - apply object_bytes_length.
  - apply object_bytes_range.
  - rewrite le_value_object_bytes.
    change (256 ^ Z.of_nat sizeof_uint64)%Z with (2 ^ 64)%Z.
    apply (wrap64_small (start_anchor _ _)). apply wrap64_range.
  - apply start_anchor_wrap.
  - rewrite start_anchor_wrap. unfold now_ns, wrap64, TIMESTAMP_DELAY.
    rewrite Zplus_mod_idemp_l. f_equal. lia.
  - intros Hs Hn Hfit. rewrite start_anchor_wrap.
    rewrite wrap64_small; [lia|]. unfold is_u64. lia.
Qed.

(** C6. Two start-up failures do not return a negative code: with no
    camera in the configuration [main] logs the error and returns 0, the
    code of a clean stop; when [pthread_create] fails [main] returns its
    error number as it is, a positive value. *)
Theorem startup_failure_codes_not_negative (fuel : nat) :
  main fuel env_zero_cameras
  = ([EvLogError ErrCameraCount; EvCleanupLogging], Returned 0)
  ∧ snd (main fuel env_spawn_fails) = Returned EAGAIN
  ∧ (0 < EAGAIN)%Z.
Proof. split; [done|]. split; [vm_compute; reflexivity | done]. Qed.

(** C7. When [pthread_create] fails for worker 1 after worker 0 was
    spawned, all that [main] does about threads, pool and cameras is to
    spawn worker 0 and to free the frame buffers, and it returns: worker 0
    is not joined and no stop message is sent. *)
Theorem spawn_failure_frees_without_join (fuel : nat) :
  lifecycle (fst (main fuel env_spawn_fails)) = [EvSpawn 0 0; EvFree 65536]
  ∧ snd (main fuel env_spawn_fails) = Returned EAGAIN
  ∧ ¬ (EvJoin 0 ∈ fst (main fuel env_spawn_fails))
  ∧ (∀ cams payload,
       ¬ (EvBroadcast cams payload ∈ fst (main fuel env_spawn_fails))).
Proof.
  assert (H : lifecycle (fst (main fuel env_spawn_fails))
              = [EvSpawn 0 0; EvFree 65536]) by (vm_compute; reflexivity).
  split; [done|]. split; [vm_compute; reflexivity|]. split.
  - intros Hin.
    assert (EvJoin 0 ∈ lifecycle (fst (main fuel env_spawn_fails))) as Hl.
    { apply list_elem_of_filter. by split. }
    rewrite H in Hl. apply list_elem_of_In in Hl. simpl in Hl.
    destruct Hl as [?|[?|[]]]; done.
  - intros cams payload Hin.
    assert (EvBroadcast cams payload
            ∈ lifecycle (fst (main fuel env_spawn_fails))) as Hl.
    { apply list_elem_of_filter. by split. }
    rewrite H in Hl. apply list_elem_of_In in Hl. simpl in Hl.
    destruct Hl as [?|[?|[]]]; done.
Qed.

(** ** Scenario S2 *)

Lemma s2_first_turns (tr0 : list event) :
  sync_loop 2 s2_filled 4 (sync_init 2 tr0)
  = Some (SyncState [None; None] [4; 3] 3 (tr0 ++ s2_trace)).
Proof. simpl. by rewrite <- !app_assoc. Qed.

Lemma s2_idle_turn (a b : nat) (tr : list event) :
  4 ≤ a → 3 ≤ b →
  iteration 2 s2_filled (SyncState [None; None] [a; b] 3 tr)
  = Some (SyncState [None; None] [S a; S b] 3 tr).
Proof.
  intros Ha Hb. unfold iteration, for_loop, fill_body. simpl.
  rewrite (lookup_ge_None_2 s2_cam0 a) by (simpl; lia).
  rewrite (lookup_ge_None_2 s2_cam1 b) by (simpl; lia).
  reflexivity.
Qed.

Lemma s2_idle (n a b : nat) (tr : list event) :
  4 ≤ a → 3 ≤ b →
  sync_loop 2 s2_filled n (SyncState [None; None] [a; b] 3 tr)
  = Some (SyncState [None; None] [a + n; b + n] 3 tr).
Proof.
  revert a b. induction n as [|n IH]; intros a b Ha Hb.
  - simpl. by rewrite !Nat.add_0_r.
  - change (sync_loop 2 s2_filled (S n) (SyncState [None; None] [a; b] 3 tr))
      with (st' ← iteration 2 s2_filled (SyncState [None; None] [a; b] 3 tr);
            sync_loop 2 s2_filled n st').
    rewrite s2_idle_turn by done. simpl.
    rewrite IH by lia. by rewrite !Nat.add_succ_r.
Qed.

Lemma s2_startup_reached :
  main_startup (env_ok s2_filled) = inr (s2_startup, 0%Z).
Proof. vm_compute. reflexivity. Qed.

(** C4. With the frames 100, 200, 300, 400 on the filled queue of camera 0
    and 200, 300, 400 on that of camera 1, after four turns of the loop
    and for as long as it runs on, what the loop has done is: recycle the
    100 frame of camera 0, then log and release the sets 200, 300 and
    400. The sets [main] has logged are 200, 300, 400 in this order, and
    the handle of the 100 frame was put on the empty queue of camera 0
    once, and on no other. *)
Theorem s2_one_frame_lag (n : nat) :
  ∃ st,
    main_startup (env_ok s2_filled) = inr (s2_startup, 0%Z)
    ∧ sync_loop 2 s2_filled (4 + n) (sync_init 2 s2_startup) = Some st
    ∧ trace st = s2_startup ++ s2_trace
    ∧ current_frames st = [None; None]
    ∧ complete_sets st = 3%Z
    ∧ main (4 + n) (env_ok s2_filled) = (s2_startup ++ s2_trace, Running)
    ∧ emitted (s2_startup ++ s2_trace) = [200; 300; 400]%Z
    ∧ times_enqueued 0 (TsFrameBuf 100 (s2_buf 0 0)) (s2_startup ++ s2_trace)
      = 1
    ∧ times_enqueued 1 (TsFrameBuf 100 (s2_buf 0 0)) (s2_startup ++ s2_trace)
      = 0.
Proof.
  assert (Hrun : sync_loop 2 s2_filled (4 + n) (sync_init 2 s2_startup)
                 = Some (SyncState [None; None] [4 + n; 3 + n] 3
                           (s2_startup ++ s2_trace))).
  { rewrite (sync_loop_add 2 s2_filled 4 n _ _ (s2_first_turns s2_startup)).
    by apply s2_idle. }
  eexists. split; [apply s2_startup_reached|]. split; [exact Hrun|].
  split; [done|]. split; [done|]. split; [done|]. split.
  - unfold main. rewrite s2_startup_reached.
    change (Z.to_nat (count_cameras_ret (env_ok s2_filled))) with 2.
    change (filled_dq (env_ok s2_filled)) with s2_filled.
    by rewrite Hrun.
  - repeat split; vm_compute; reflexivity.
Qed.

(** ** Sums over the cameras *)

Lemma sum_imap_le {A : Type} (f g : nat → A → nat) (l : list A) :
  (∀ i x, l !! i = Some x → f i x ≤ g i x) →
  sum_list (imap f l) ≤ sum_list (imap g l).
Proof.
  induction l as [|y l IH] using rev_ind; intros H; [done|].
  rewrite !imap_app, !sum_list_with_app. simpl.
  assert (sum_list (imap f l) ≤ sum_list (imap g l)) as Hl.
  { apply IH. intros i x Hx. apply H. by apply lookup_app_l_Some. }
  pose proof (H (length l) y (list_lookup_middle l [] y _ eq_refl)) as Hy.
  rewrite !Nat.add_0_r. lia.
Qed.

Lemma sum_imap_lt {A : Type} (f g : nat → A → nat) (l : list A)
    (j : nat) (y : A) :
  (∀ i x, l !! i = Some x → f i x ≤ g i x) →
  l !! j = Some y → f j y < g j y →
  sum_list (imap f l) < sum_list (imap g l).
Proof.
  intros Hle Hj Hlt.
  rewrite <- (take_drop_middle l j y Hj).
  assert (Hlen : length (take j l) = j).
  { rewrite length_take. apply lookup_lt_Some in Hj. lia. }
  rewrite !imap_app, !sum_list_with_app. simpl. rewrite Hlen, !Nat.add_0_r.
  assert (sum_list (imap f (take j l)) ≤ sum_list (imap g (take j l))).
  { apply sum_imap_le. intros i x Hx. apply Hle.
    rewrite lookup_take_Some in Hx. by destruct Hx. }
  assert (sum_list (imap ((λ n, f (j + n)) ∘ S) (drop (S j) l))
          ≤ sum_list (imap ((λ n, g (j + n)) ∘ S) (drop (S j) l))).
  { apply sum_imap_le. intros i x Hx. simpl. apply Hle.
    rewrite lookup_drop in Hx. by replace (j + S i) with (S j + i) by lia. }
  lia.
Qed.

Lemma forallb_false_lookup {A : Type} (f : A → bool) (l : list A) :
  forallb f l = false → ∃ i x, l !! i = Some x ∧ f x = false.
Proof.
  induction l as [|y l IH]; [done|]. simpl.
  destruct (f y) eqn:Hy; simpl.
  - intros (i & x & Hi & Hx)%IH. by exists (S i), x.
  - intros _. by exists 0, y.
Qed.

Lemma zip_imap_fmap {A B C : Type} (f : nat → A → B) (g : A → C)
    (l : list A) :
  zip (imap f l) (g <$> l) = imap (λ i x, (f i x, g x)) l.
Proof.
  apply list_eq. intros i.
  rewrite lookup_zip_with, !list_lookup_imap, list_lookup_fmap.
  by destruct (l !! i).
Qed.

Lemma zip_fmap_imap_fmap {A B C D : Type} (h : B → D) (f : nat → A → B)
    (g : A → C) (l : list A) :
  zip (h <$> imap f l) (g <$> l) = imap (λ i x, (h (f i x), g x)) l.
Proof.
  apply list_eq. intros i.
  rewrite lookup_zip_with, (list_lookup_fmap h (imap f l)),
    (list_lookup_imap f l), (list_lookup_fmap g l), list_lookup_imap.
  by destruct (l !! i).
Qed.

Lemma imap_imap {A B C : Type} (f : nat → B → C) (g : nat → A → B)
    (l : list A) :
  imap f (imap g l) = imap (λ i x, f i (g i x)) l.
Proof.
  apply list_eq. intros i. rewrite !list_lookup_imap.
  by destruct (l !! i).
Qed.

Lemma finite_choice (n : nat) (P : nat → nat → Prop) :
  (∀ i, i < n → ∃ k, P i k) → ∃ K : nat → nat, ∀ i, i < n → P i (K i).
Proof.
  induction n as [|n IH]; intros H.
  - exists (λ _, 0). intros i Hi. lia.
  - destruct IH as [K HK]; [intros i Hi; apply H; lia|].
    destruct (H n) as [k Hk]; [lia|].
    exists (λ i, if decide (i = n) then k else K i). intros i Hi.
    destruct (decide (i = n)) as [->|]; [done|]. apply HK. lia.
Qed.

(** ** Progress towards a common timestamp *)

Section progress.

Variable cam_count : nat.
Variable filled : nat → nat → option ts_frame_buf.

Lemma after_fill_wf (st : sync_state) :
  wf_state cam_count st → wf_state cam_count (after_fill filled st).
Proof.
  intros [Hc Hd]. split; simpl.
  - rewrite length_imap, length_zip_with. lia.
  - rewrite length_fmap, length_zip_with. lia.
Qed.

Lemma after_fill_provenance (st : sync_state) :
  provenance filled st → provenance filled (after_fill filled st).
Proof. intros Hprov i f. by apply fill_provenance. Qed.

Lemma after_fill_lookup (st : sync_state) (i : nat)
    (p1 : option ts_frame_buf) (c1 : nat) :
  current_frames (after_fill filled st) !! i = Some p1 →
  dq_calls (after_fill filled st) !! i = Some c1 →
  ∃ p c, current_frames st !! i = Some p ∧ dq_calls st !! i = Some c
       ∧ p1 = fetch filled i (p, c) ∧ c1 = bump (p, c).
Proof.
  simpl. rewrite list_lookup_imap, list_lookup_fmap.
  destruct (zip (current_frames st) (dq_calls st) !! i) as [[p c]|] eqn:Hz;
    [|done].
  apply lookup_zip_with_Some in Hz as (p' & c' & [= <- <-] & Hp & Hc).
  simpl. intros [= <-] [= <-]. by exists p, c.
Qed.

Variable K : nat → nat.
Variable T : Z.
Hypothesis HK : common_at cam_count filled K T.

Lemma after_fill_not_passed (st : sync_state) :
  not_passed cam_count filled K st →
  not_passed cam_count filled K (after_fill filled st).
Proof.
  intros Hnp i p1 c1 Hi Hp1 Hc1.
  destruct (after_fill_lookup st i p1 c1 Hp1 Hc1)
    as (p & c & Hp & Hc & -> & ->).
  destruct (HK i Hi) as (f & Hf & _).
  destruct (Hnp i p c Hi Hp Hc) as [Hle|[-> ->]].
  - destruct p as [g|]; unfold fetch, bump; simpl; [by left|].
    destruct (decide (c = K i)) as [->|]; [by right | left; lia].
  - right. unfold fetch, bump. simpl. by rewrite Hf.
Qed.

Lemma fill_slot_potential (i : nat) (p : option ts_frame_buf) (c : nat) :
  c ≤ K i ∨ (c = S (K i) ∧ p = filled i (K i)) →
  i < cam_count →
  slot_potential K i (fetch filled i (p, c), bump (p, c))
    ≤ slot_potential K i (p, c)
  ∧ (p = None →
     slot_potential K i (fetch filled i (p, c), bump (p, c))
       < slot_potential K i (p, c)).
Proof.
  intros Hnp Hi. destruct (HK i Hi) as (f & Hf & _).
  unfold slot_potential, fetch, bump. simpl.
  destruct p as [g|]; simpl; [split; [lia | done]|].
  destruct Hnp as [Hle|[_ Hp]]; [|by rewrite Hf in Hp].
  destruct (filled i c); simpl; split; lia.
Qed.

Lemma retain_slot_potential (m : Z) (i : nat) (p : option ts_frame_buf)
    (c : nat) :
  slot_potential K i (retain m p, c) ≤ slot_potential K i (p, c)
  ∧ (matches m p = false → held p = true →
     slot_potential K i (retain m p, c) < slot_potential K i (p, c)).
Proof.
  unfold slot_potential, retain. simpl.
  destruct (matches m p); simpl; [split; [lia | done]|].
  destruct (held p); split; (lia || done || (intros; lia)).
Qed.

Lemma zip_lookup_not_passed (st : sync_state) (i : nat)
    (p : option ts_frame_buf) (c : nat) :
  wf_state cam_count st →
  not_passed cam_count filled K st →
  zip (current_frames st) (dq_calls st) !! i = Some (p, c) →
  i < cam_count ∧ (c ≤ K i ∨ (c = S (K i) ∧ p = filled i (K i))).
Proof.
  intros [Hwf _] Hnp Hz.
  apply lookup_zip_with_Some in Hz as (p' & c' & [= <- <-] & Hp & Hc).
  assert (i < cam_count) as Hi.
  { rewrite <- Hwf. by apply lookup_lt_Some in Hp. }
  split; [done|]. by apply (Hnp i p c).
Qed.

(** A turn that finds a queue empty brings the slots closer. *)
Lemma incomplete_potential (st : sync_state) :
  wf_state cam_count st →
  not_passed cam_count filled K st →
  forallb held (current_frames (after_fill filled st)) = false →
  potential K (after_fill filled st) < potential K st.
Proof.
  intros Hwf Hnp Hheld. unfold potential. simpl.
  rewrite zip_imap_fmap, imap_imap.
  apply forallb_false_lookup in Hheld as (j & p1 & Hj & Hp1).
  simpl in Hj. rewrite list_lookup_imap in Hj.
  destruct (zip (current_frames st) (dq_calls st) !! j) as [[p c]|] eqn:Hz;
    [|done].
  simpl in Hj. injection Hj as <-.
  destruct (zip_lookup_not_passed st j p c Hwf Hnp Hz) as [Hjn Hj].
  apply (sum_imap_lt _ _ _ j (p, c)); [|done|].
  - intros i [q d] Hi.
    destruct (zip_lookup_not_passed st i q d Hwf Hnp Hi) as [Hin Hq].
    by apply fill_slot_potential.
  - apply fill_slot_potential; [done | done |].
    destruct p as [g|]; [done | done].
Qed.

Hypothesis Hmono : increasing_supply cam_count filled.
Hypothesis Hu : unsigned_supply cam_count filled.

(** A frame in a slot after lines 167-177 is not newer than [T]. *)
Lemma held_le_target (st : sync_state) (j : nat) (g : ts_frame_buf) :
  wf_state cam_count st →
  provenance filled st →
  not_passed cam_count filled K st →
  current_frames (after_fill filled st) !! j = Some (Some g) →
  (timestamp g ≤ T)%Z ∧ is_u64 (timestamp g).
Proof.
  intros Hwf Hprov Hnp Hg.
  assert (j < cam_count) as Hj.
  { destruct (after_fill_wf st Hwf) as [<- _].
    by apply lookup_lt_Some in Hg. }
  destruct (after_fill_provenance st Hprov j g Hg) as (c & Hc & Hsrc).
  destruct (HK j Hj) as (f & Hf & HT).
  split; [|by apply (Hu j c g)].
  destruct (after_fill_not_passed st Hnp j _ _ Hj Hg Hc)
    as [Hle|[_ Hgf]].
  - pose proof (Hmono j c (K j) g f Hj ltac:(lia) Hsrc Hf). lia.
  - rewrite Hf in Hgf. injection Hgf as ->. lia.
Qed.

Hypothesis Hpos : 0 < cam_count.

(** The maximum of a full set is not above [T]. *)
Lemma max_le_target (st : sync_state) (m : Z) :
  wf_state cam_count st →
  provenance filled st →
  not_passed cam_count filled K st →
  full_set_of cam_count (current_frames (after_fill filled st)) →
  is_max_of (current_frames (after_fill filled st)) m →
  (m ≤ T)%Z.
Proof.
  intros Hwf Hprov Hnp Hfull Hmax.
  destruct (max_attained cam_count _ m Hpos Hfull) as (j & g & Hg & <-);
    [|done|].
  - intros i f Hf. by apply (held_le_target st i f).
  - by apply (held_le_target st j g).
Qed.

End progress.

Section rounds.

Variable cam_count : nat.
Variable filled : nat → nat → option ts_frame_buf.
Hypothesis Hpos : 0 < cam_count.
Hypothesis Hmono : increasing_supply cam_count filled.
Hypothesis Hu : unsigned_supply cam_count filled.

Lemma all_match_timestamp (cur : list (option ts_frame_buf)) (m : Z)
    (i : nat) (g : ts_frame_buf) :
  forallb (matches m) cur = true → cur !! i = Some (Some g) →
  timestamp g = m.
Proof.
  intros Hall Hg.
  pose proof (proj1 (forallb_lookup _ _) Hall i _ Hg) as Hm.
  by apply matches_timestamp in Hm as (g' & [= <-] & Hg').
Qed.

(** After a set with timestamp [m] is released, no camera is past a
    common timestamp above [m]. *)
Lemma emit_fresh (st : sync_state) (m : Z) (cs : Z) (tr : list event) :
  provenance filled st →
  full_set_of cam_count (current_frames (after_fill filled st)) →
  forallb (matches m) (current_frames (after_fill filled st)) = true →
  fresh_above cam_count filled m
    (SyncState (replicate cam_count None) (dq_calls (after_fill filled st))
       cs tr).
Proof.
  intros Hprov Hfull Hall K T Hlt HK i p c Hi _ Hc. simpl in Hc.
  destruct (Hfull i Hi) as [g Hg].
  pose proof (all_match_timestamp _ m i g Hall Hg) as Hm.
  destruct (after_fill_provenance filled st Hprov i g Hg)
    as (c' & Hc' & Hsrc).
  simpl in Hc'. rewrite Hc in Hc'. injection Hc' as ->.
  destruct (HK i Hi) as (f & Hf & HT).
  left. destruct (lt_eq_lt_dec (K i) c') as [[Hlt'|Heq]|Hgt]; [| |lia].
  - pose proof (Hmono i (K i) c' f g Hi Hlt' Hf Hsrc). lia.
  - subst c'. rewrite Hf in Hsrc. injection Hsrc as ->. lia.
Qed.

Section target.

Variable K : nat → nat.
Variable T : Z.
Hypothesis HK : common_at cam_count filled K T.

Lemma recycle_potential (st : sync_state) (m : Z) (cs : Z)
    (tr : list event) :
  wf_state cam_count st →
  not_passed cam_count filled K st →
  full_set_of cam_count (current_frames (after_fill filled st)) →
  forallb (matches m) (current_frames (after_fill filled st)) = false →
  potential K
    (SyncState (retain m <$> current_frames (after_fill filled st))
       (dq_calls (after_fill filled st)) cs tr)
  < potential K st.
Proof.
  intros Hwf Hnp Hfull Hall. unfold potential. simpl.
  rewrite zip_fmap_imap_fmap, imap_imap.
  apply forallb_false_lookup in Hall as (j & p1 & Hj & Hp1).
  assert (j < cam_count) as Hjn.
  { destruct (after_fill_wf cam_count filled st Hwf) as [<- _].
    by apply lookup_lt_Some in Hj. }
  destruct (Hfull j Hjn) as [g Hg]. rewrite Hj in Hg.
  injection Hg as ->.
  simpl in Hj. rewrite list_lookup_imap in Hj.
  destruct (zip (current_frames st) (dq_calls st) !! j) as [[p c]|]
    eqn:Hz; [|done].
  simpl in Hj. injection Hj as Hj.
  destruct (zip_lookup_not_passed cam_count filled K st j p c Hwf Hnp Hz)
    as [_ Hnpj].
  apply (sum_imap_lt _ _ _ j (p, c)); [|done|].
  - intros i [q d] Hi.
    destruct (zip_lookup_not_passed cam_count filled K st i q d Hwf Hnp Hi)
      as [Hin Hq].
    destruct (fill_slot_potential cam_count filled K T HK i q d Hq Hin)
      as [Hle _].
    destruct (retain_slot_potential K m i (fetch filled i (q, d))
                (bump (q, d))) as [Hle' _].
    lia.
  - destruct (fill_slot_potential cam_count filled K T HK j p c Hnpj Hjn)
      as [Hle _].
    destruct (retain_slot_potential K m j (fetch filled j (p, c))
                (bump (p, c))) as [_ Hlt].
    rewrite Hj in Hlt. specialize (Hlt Hp1 eq_refl).
    rewrite Hj in Hle. rewrite Hj. lia.
Qed.

Lemma recycle_not_passed (st : sync_state) (m : Z) (cs : Z)
    (tr : list event) :
  wf_state cam_count st →
  provenance filled st →
  not_passed cam_count filled K st →
  full_set_of cam_count (current_frames (after_fill filled st)) →
  is_max_of (current_frames (after_fill filled st)) m →
  not_passed cam_count filled K
    (SyncState (retain m <$> current_frames (after_fill filled st))
       (dq_calls (after_fill filled st)) cs tr).
Proof.
  intros Hwf Hprov Hnp Hfull Hmax i p2 c1 Hi Hp2 Hc1.
  cbn [current_frames dq_calls] in Hp2, Hc1.
  rewrite retain_lookup in Hp2.
  destruct (current_frames (after_fill filled st) !! i) as [p1|] eqn:Hp1;
    [|done].
  simpl in Hp2. injection Hp2 as <-.
  destruct (after_fill_not_passed cam_count filled K T HK st Hnp
              i p1 c1 Hi Hp1 Hc1) as [Hle|[-> Hp]]; [by left|].
  right. split; [done|].
  destruct (HK i Hi) as (f & Hf & HT).
  rewrite Hf in Hp. subst p1. rewrite Hf.
  pose proof (max_le_target cam_count filled K T HK Hmono Hu Hpos
                st m Hwf Hprov Hnp Hfull Hmax) as Hle.
  destruct Hmax as (_ & Hub & _). pose proof (Hub i f Hp1) as Hge.
  unfold retain. simpl.
  assert ((timestamp f =? m)%Z = true) as -> by (apply Z.eqb_eq; lia).
  done.
Qed.

(** From a state that is not past [T], the loop emits a set within a
    bounded number of turns, and is then not past any common
    timestamp above [T]. *)
Lemma round_emits (B : nat) (st : sync_state) :
  wf_state cam_count st →
  provenance filled st →
  not_passed cam_count filled K st →
  potential K st < B →
  (0 ≤ complete_sets st < 100)%Z →
  ∃ fuel st',
    sync_loop cam_count filled fuel st = Some st'
    ∧ complete_sets st' = (complete_sets st + 1)%Z
    ∧ wf_state cam_count st'
    ∧ provenance filled st'
    ∧ current_frames st' = replicate cam_count None
    ∧ fresh_above cam_count filled T st'.
Proof.
  revert st. induction B as [|B IH]; intros st Hwf Hprov Hnp HB Hcs;
    [lia|].
  destruct (iteration_turn cam_count filled st Hwf)
    as (st1 & Hit & Hwf1 & Ht).
  pose proof (turn_provenance cam_count filled st st1 Hprov Ht) as Hprov1.
  assert (Hstep : ∀ fuel, sync_loop cam_count filled (S fuel) st
                          = sync_loop cam_count filled fuel st1).
  { intros fuel. simpl.
    destruct (Z.ltb_spec (complete_sets st) 100) as [_|?]; [|lia].
    by rewrite Hit. }
  destruct Ht as [cur1 Hheld Hst1|m cur1 Hfull Hmax Hall Hst1
                 |m cur1 Hfull Hmax Hall Hst1].
  - destruct (IH st1) as (fuel & st' & Hrun & Hcs' & Hrest);
      [done | done | | | |].
    + rewrite Hst1. by apply (after_fill_not_passed cam_count filled K T).
    + pose proof (incomplete_potential cam_count filled K T HK st
                    Hwf Hnp Hheld) as Hlt.
      rewrite Hst1. eapply Nat.lt_le_trans; [exact Hlt | lia].
    + by rewrite Hst1.
    + exists (S fuel), st'. rewrite Hstep. split; [done|].
      split; [|done]. rewrite Hcs', Hst1. done.
  - destruct (IH st1) as (fuel & st' & Hrun & Hcs' & Hrest);
      [done | done | | | |].
    + rewrite Hst1.
      by apply (recycle_not_passed st m _ _ Hwf Hprov Hnp Hfull Hmax).
    + pose proof (recycle_potential st m (complete_sets st)
                    (trace st ++ concat (imap (recycle_event m) cur1))
                    Hwf Hnp Hfull Hall) as Hlt.
      rewrite Hst1. eapply Nat.lt_le_trans; [exact Hlt | lia].
    + by rewrite Hst1.
    + exists (S fuel), st'. rewrite Hstep. split; [done|].
      split; [|done]. rewrite Hcs', Hst1. done.
  - exists 1, st1. rewrite Hstep. split; [done|].
    assert (wrap32 (complete_sets st + 1) = (complete_sets st + 1)%Z)
      as Hw.
    { unfold wrap32. apply Z.mod_small. lia. }
    split; [by rewrite Hst1|]. split; [done|]. split; [done|].
    split; [by rewrite Hst1|].
    pose proof (max_le_target cam_count filled K T HK Hmono Hu Hpos
                  st m Hwf Hprov Hnp Hfull Hmax) as Hle.
    pose proof (emit_fresh st m (wrap32 (complete_sets st + 1))
      (trace st ++ [EvLogSet (complete_sets st) m] ++ imap EvNq cur1)
      Hprov Hfull Hall) as Hfresh.
    rewrite Hst1. intros K' T' HT'. apply Hfresh. lia.
Qed.

End target.

End rounds.

(** ** Accounting *)

Lemma enqueued_nq (cur : list (option ts_frame_buf)) (i : nat) :
  enqueued i (imap EvNq cur)
  = match cur !! i with
    | Some p => [p]
    | None => []
    end.
Proof.
  induction cur as [|x l IH] using rev_ind; [done|].
  rewrite imap_app, enqueued_app, IH. simpl. rewrite Nat.add_0_r.
  destruct (lt_eq_lt_dec i (length l)) as [[Hlt|Heq]|Hgt].
  - rewrite lookup_app_l by done.
    destruct (decide (length l = i)); [lia|]. by rewrite app_nil_r.
  - subst i. rewrite lookup_ge_None_2 by lia.
    rewrite list_lookup_middle by done.
    by destruct (decide (length l = length l)).
  - rewrite !lookup_ge_None_2 by (rewrite ?length_app; simpl; lia).
    by destruct (decide (length l = i)); [lia|].
Qed.

Section accounting.

Variable cam_count : nat.
Variable filled : nat → nat → option ts_frame_buf.

Lemma after_fill_conserved (evs : list event) (st : sync_state) :
  conserved cam_count filled evs st →
  conserved cam_count filled evs (after_fill filled st).
Proof.
  intros Hcons i p1 c1 Hi Hp1 Hc1.
  destruct (after_fill_lookup filled st i p1 c1 Hp1 Hc1)
    as (p & c & Hp & Hc & -> & ->).
  pose proof (Hcons i p c Hi Hp Hc) as H.
  destruct p as [g|]; unfold fetch, bump; cbn [fst snd]; [done|].
  cbn [held] in H. rewrite app_nil_r in H.
  rewrite seq_S, omap_app, fmap_app, <- H. simpl.
  by destruct (filled i c).
Qed.

Lemma turn_accounted (tr0 : list event) (st st' : sync_state) :
  (0 ≤ complete_sets st < 100)%Z →
  accounted cam_count filled tr0 st →
  turn cam_count filled st st' →
  accounted cam_count filled tr0 st'.
Proof.
  intros Hcs (evs & Htr & Hcnt & _ & Hcons) Ht.
  pose proof (after_fill_conserved evs st Hcons) as Hcons1.
  destruct Ht as [cur1 Hheld ->|m cur1 Hfull Hmax Hall ->
                 |m cur1 Hfull Hmax Hall ->].
  - exists evs. split; [done|]. split; [done|]. split; [simpl; lia|].
    exact Hcons1.
  - exists (evs ++ concat (imap (recycle_event m) cur1)).
    split; [simpl; by rewrite Htr, app_assoc|].
    rewrite emitted_app, emitted_recycle, app_nil_r.
    split; [done|]. split; [simpl; lia|].
    intros i p2 c1 Hi Hp2 Hc1. cbn [current_frames dq_calls] in Hp2, Hc1.
    rewrite retain_lookup in Hp2.
    destruct (Hfull i Hi) as [g Hg]. rewrite Hg in Hp2.
    simpl in Hp2. injection Hp2 as <-.
    pose proof (Hcons1 i (Some g) c1 Hi Hg Hc1) as H. simpl in H.
    rewrite enqueued_app, enqueued_recycle, Hg, <- H.
    unfold retain. destruct (matches m (Some g)); simpl.
    + by rewrite app_nil_r.
    + by rewrite app_nil_r.
  - exists (evs ++ [EvLogSet (complete_sets st) m] ++ imap EvNq cur1).
    split; [simpl; by rewrite Htr, <- app_assoc|].
    rewrite !emitted_app, emitted_nq, app_nil_r, length_app.
    change (emitted [EvLogSet (complete_sets st) m]) with [m].
    assert (wrap32 (complete_sets st + 1) = (complete_sets st + 1)%Z)
      as Hw.
    { unfold wrap32. apply Z.mod_small. lia. }
    cbn [complete_sets]. rewrite Hw.
    split; [simpl; lia|]. split; [lia|].
    intros i p3 c1 Hi Hp3 Hc1. cbn [current_frames dq_calls] in Hp3, Hc1.
    apply lookup_replicate in Hp3 as [-> _].
    destruct (Hfull i Hi) as [g Hg].
    pose proof (Hcons1 i (Some g) c1 Hi Hg Hc1) as H. simpl in H.
    rewrite !enqueued_app, enqueued_nq, Hg, <- H. simpl.
    by rewrite app_nil_r.
Qed.

Lemma init_accounted (tr0 : list event) :
  accounted cam_count filled tr0 (sync_init cam_count tr0).
Proof.
  exists []. simpl. rewrite app_nil_r. split; [done|]. split; [done|].
  split; [lia|].
  intros i p c Hi [-> _]%lookup_replicate [-> _]%lookup_replicate. done.
Qed.

(** However long the loop runs, it does not fault and its books are
    in order. *)
Lemma sync_loop_accounted (fuel : nat) (tr0 : list event) :
  ∃ st, sync_loop cam_count filled fuel (sync_init cam_count tr0) = Some st
      ∧ wf_state cam_count st
      ∧ (0 ≤ complete_sets st)%Z
      ∧ accounted cam_count filled tr0 st.
Proof.
  destruct (sync_loop_inv cam_count filled
    (λ st, wf_state cam_count st ∧ (0 ≤ complete_sets st)%Z
           ∧ accounted cam_count filled tr0 st)) with (fuel := fuel)
    (st := sync_init cam_count tr0) as (st & Hst & HI).
  - intros st (Hwf & H0 & Hacc) Hlt.
    destruct (iteration_turn cam_count filled st Hwf)
      as (st' & Hit & Hwf' & Ht).
    exists st'. split; [done|]. split; [done|].
    pose proof (turn_accounted tr0 st st' ltac:(lia) Hacc Ht) as Hacc'.
    split; [|done].
    destruct Hacc' as (evs & _ & <- & _). lia.
  - split; [apply init_wf|]. split; [simpl; lia|]. apply init_accounted.
  - by exists st.
Qed.

End accounting.

(** ** Termination of the loop *)

Section termination.

Variable cam_count : nat.
Variable filled : nat → nat → option ts_frame_buf.

Lemma sync_loop_exited (fuel : nat) (st : sync_state) :
  (100 ≤ complete_sets st)%Z →
  sync_loop cam_count filled fuel st = Some st.
Proof.
  intros H. destruct fuel as [|fuel]; simpl; [done|].
  by destruct (Z.ltb_spec (complete_sets st) 100) as [?|_]; [lia|].
Qed.

Lemma init_fresh (lower : Z) (tr : list event) :
  fresh_above cam_count filled lower (sync_init cam_count tr).
Proof.
  intros K T _ _ i p c Hi _ [-> _]%lookup_replicate. left. lia.
Qed.

Hypothesis Hpos : 0 < cam_count.
Hypothesis Hmono : increasing_supply cam_count filled.
Hypothesis Hu : unsigned_supply cam_count filled.

(** One set for each timestamp of an aligned supply. *)
Lemma rounds_emit (Ts : list Z) (lower : Z) (st : sync_state) :
  aligned_supply cam_count filled Ts →
  (∀ T, T ∈ Ts → (lower < T)%Z) →
  wf_state cam_count st →
  provenance filled st →
  current_frames st = replicate cam_count None →
  fresh_above cam_count filled lower st →
  (0 ≤ complete_sets st)%Z →
  (complete_sets st + Z.of_nat (length Ts) ≤ 100)%Z →
  ∃ fuel st',
    sync_loop cam_count filled fuel st = Some st'
    ∧ complete_sets st' = (complete_sets st + Z.of_nat (length Ts))%Z
    ∧ current_frames st' = replicate cam_count None.
Proof.
  revert lower st.
  induction Ts as [|T Ts IH];
    intros lower st [Hsorted Hcommon] Hlow Hwf Hprov Hcur Hfresh H0 Hcs.
  - exists 0, st. simpl. split; [done|]. split; [lia | done].
  - apply StronglySorted_inv in Hsorted as [Hsorted HT].
    destruct (finite_choice cam_count
                (λ i k, ∃ f, filled i k = Some f ∧ timestamp f = T))
      as [K HK].
    { apply Hcommon. by left. }
    assert (Hnp : not_passed cam_count filled K st).
    { apply (Hfresh K T); [|done]. apply Hlow. by left. }
    simpl in Hcs.
    destruct (round_emits cam_count filled Hpos Hmono Hu K T HK
                (S (potential K st)) st Hwf Hprov Hnp ltac:(lia)
                ltac:(lia))
      as (fuel1 & st1 & Hrun1 & Hcs1 & Hwf1 & Hprov1 & Hcur1 & Hfresh1).
    destruct (IH T st1) as (fuel2 & st2 & Hrun2 & Hcs2 & Hcur2);
      [| |done|done|done|done|lia|lia|].
    + split; [done|]. intros T' HT'. apply Hcommon. by right.
    + intros T' HT'. rewrite Forall_forall in HT. by apply HT.
    + exists (fuel1 + fuel2), st2.
      rewrite (sync_loop_add cam_count filled fuel1 fuel2 st st1 Hrun1).
      split; [done|]. split; [|done]. simpl. lia.
Qed.

(** With an aligned supply of 100 timestamps the loop comes to its end. *)
Lemma sync_loop_terminates (Ts : list Z) (tr0 : list event) :
  aligned_supply cam_count filled Ts →
  length Ts = 100 →
  ∃ fuel st,
    sync_loop cam_count filled fuel (sync_init cam_count tr0) = Some st
    ∧ complete_sets st = 100%Z
    ∧ current_frames st = replicate cam_count None.
Proof.
  intros Hal Hlen.
  assert (∃ lower, ∀ T, T ∈ Ts → (lower < T)%Z) as [lower Hlow].
  { destruct Ts as [|T0 Ts]; [done|]. exists (T0 - 1)%Z.
    destruct Hal as [Hsorted _].
    apply StronglySorted_inv in Hsorted as [_ HT].
    rewrite Forall_forall in HT.
    intros T [->|HT']%elem_of_cons; [lia|].
    specialize (HT T HT'). lia. }
  destruct (rounds_emit Ts lower (sync_init cam_count tr0) Hal Hlow)
    as (fuel & st & Hrun & Hcs & Hcur).
  - apply init_wf.
  - apply init_provenance.
  - done.
  - apply init_fresh.
  - simpl. lia.
  - simpl. lia.
  - exists fuel, st. split; [done|]. split; [|done].
    rewrite Hcs, Hlen. simpl. lia.
Qed.

End termination.

(** C5, as amended. When the start-up succeeds, each camera's filled queue
    yields strictly increasing unsigned timestamps, and 100 timestamps are
    yielded by every camera's queue, the loop ends: after some number of
    turns it has counted and logged exactly 100 sets, every slot is
    [NULL], every handle it took from a filled queue is on the camera's
    empty queue, and [main] then sends the 4 bytes of ["STOP"] (no
    terminator) to every camera, joins the workers, frees the pool and
    returns 0. *)
Theorem main_stops_after_100_sets (e : env) (Ts : list Z) :
  startup_ok e →
  increasing_supply (Z.to_nat (count_cameras_ret e)) (filled_dq e) →
  unsigned_supply (Z.to_nat (count_cameras_ret e)) (filled_dq e) →
  aligned_supply (Z.to_nat (count_cameras_ret e)) (filled_dq e) Ts →
  length Ts = 100 →
  ∃ tr0 fuel st evs,
    main_startup e = inr (tr0, 0%Z)
    ∧ sync_loop (Z.to_nat (count_cameras_ret e)) (filled_dq e) fuel
        (sync_init (Z.to_nat (count_cameras_ret e)) tr0)
      = Some st
    ∧ complete_sets st = 100%Z
    ∧ trace st = tr0 ++ evs
    ∧ length (emitted evs) = 100
    ∧ current_frames st = replicate (Z.to_nat (count_cameras_ret e)) None
    ∧ (∀ i c, i < Z.to_nat (count_cameras_ret e) →
         dq_calls st !! i = Some c →
         enqueued i evs = Some <$> omap (filled_dq e i) (seq 0 c))
    ∧ (∀ extra, main (fuel + extra) e
                = (trace st ++ main_shutdown e, Returned 0))
    ∧ main_shutdown e
      = EvBroadcast (Z.to_nat (count_cameras_ret e)) [83; 84; 79; 80]%Z
        :: map EvJoin (seq 0 (Z.to_nat (count_cameras_ret e)))
        ++ [EvFree (malloc_ret e); EvCleanupLogging]
    ∧ broadcast_msg (Z.to_nat (count_cameras_ret e)) stop_msg
        (strlen stop_msg)
      = EvBroadcast (Z.to_nat (count_cameras_ret e)) [83; 84; 79; 80]%Z
    ∧ strlen stop_msg = 4.
Proof.
  intros Hok Hmono Hu Hal Hlen.
  destruct (main_startup_ok e Hok) as [tr Hstart].
  set (tr0 := tr ++ _) in Hstart.
  set (n := Z.to_nat (count_cameras_ret e)) in *.
  assert (0 < n) as Hpos.
  { destruct Hok as (_ & Hc & _). unfold n. lia. }
  destruct (sync_loop_terminates n (filled_dq e) Hpos Hmono Hu Ts
              tr0 Hal Hlen) as (fuel & st & Hrun & Hcs & Hcur).
  destruct (sync_loop_accounted n (filled_dq e) fuel tr0)
    as (st' & Hrun' & Hwf & _ & evs & Htr & Hcnt & _ & Hcons).
  rewrite Hrun in Hrun'. injection Hrun' as <-.
  exists tr0, fuel, st, evs.
  split; [done|]. split; [done|]. split; [done|]. split; [done|].
  split; [lia|]. split; [done|]. split; [|split; [|done]].
  - intros i c Hi Hc.
    pose proof (Hcons i None c Hi) as H. rewrite Hcur in H.
    rewrite <- H; [by rewrite app_nil_r | | done].
    by apply lookup_replicate.
  - intros extra. unfold main. rewrite Hstart. fold n.
    rewrite (sync_loop_add n (filled_dq e) fuel extra _ st Hrun).
    rewrite sync_loop_exited by lia.
    by destruct (Z.ltb_spec (complete_sets st) 100) as [?|_]; [lia|].
Qed.

(** ** A supply that never aligns *)

Lemma odd_even_increasing : increasing_supply 2 odd_even.
Proof.
  intros i k1 k2 f1 f2 _ Hk [= <-] [= <-]. simpl. lia.
Qed.

Lemma odd_even_never_emits (tr0 : list event) (fuel : nat) :
  ∃ st evs, sync_loop 2 odd_even fuel (sync_init 2 tr0) = Some st
    ∧ complete_sets st = 0%Z
    ∧ trace st = tr0 ++ evs
    ∧ emitted evs = [].
Proof.
  destruct (sync_loop_inv 2 odd_even
    (λ st, wf_state 2 st ∧ complete_sets st = 0%Z
         ∧ (∃ evs, trace st = tr0 ++ evs ∧ emitted evs = [])
         ∧ (∀ f, current_frames st !! 0 = Some (Some f) →
              ∃ q, timestamp f = (2 * q + 1)%Z)
         ∧ (∀ f, current_frames st !! 1 = Some (Some f) →
              ∃ q, timestamp f = (2 * q)%Z)))
    with (fuel := fuel) (st := sync_init 2 tr0)
    as (st & Hst & _ & Hcs & (evs & Htr & Hem) & _).
  - intros st (Hwf & Hcs & (evs & Htr & Hem) & Hodd & Heven) _.
    destruct (iteration_turn 2 odd_even st Hwf) as (st' & Hit & Hwf' & Ht).
    exists st'. split; [done|]. split; [done|].
    destruct (wf_lookup 2 st 0 Hwf ltac:(lia)) as (p0 & c0 & Hp0 & Hc0).
    destruct (wf_lookup 2 st 1 Hwf ltac:(lia)) as (p1 & c1 & Hp1 & Hc1).
    destruct (fill_lookup odd_even _ _ 0 p0 c0 Hp0 Hc0) as [Hf0 _].
    destruct (fill_lookup odd_even _ _ 1 p1 c1 Hp1 Hc1) as [Hf1 _].
    set (cur1 := imap (fetch odd_even)
                   (zip (current_frames st) (dq_calls st))) in *.
    assert (Hodd1 : ∀ f, cur1 !! 0 = Some (Some f) →
                      ∃ q, timestamp f = (2 * q + 1)%Z).
    { intros f. rewrite Hf0. unfold fetch. simpl.
      destruct p0 as [g|]; intros [= <-].
      - by apply Hodd.
      - simpl. exists (Z.of_nat c0). lia. }
    assert (Heven1 : ∀ f, cur1 !! 1 = Some (Some f) →
                       ∃ q, timestamp f = (2 * q)%Z).
    { intros f. rewrite Hf1. unfold fetch. simpl.
      destruct p1 as [g|]; intros [= <-].
      - by apply Heven.
      - simpl. exists (Z.of_nat c1 + 1)%Z. lia. }
    destruct Ht as [cur1' Hheld ->|m cur1' Hfull Hmax Hall ->
                   |m cur1' Hfull Hmax Hall ->]; subst cur1'.
    + split; [done|]. split; [by exists evs|]. done.
    + split; [done|]. split; [|split].
      * exists (evs ++ concat (imap (recycle_event m) cur1)).
        split; [simpl; by rewrite Htr, app_assoc|].
        by rewrite emitted_app, emitted_recycle, Hem.
      * intros f Hf. apply Hodd1. simpl in Hf.
        rewrite retain_lookup in Hf. fold cur1 in Hf.
        destruct (cur1 !! 0) as [q|]; [|done]. simpl in Hf.
        unfold retain in Hf. by destruct (matches m q).
      * intros f Hf. apply Heven1. simpl in Hf.
        rewrite retain_lookup in Hf. fold cur1 in Hf.
        destruct (cur1 !! 1) as [q|]; [|done]. simpl in Hf.
        unfold retain in Hf. by destruct (matches m q).
    + exfalso.
      destruct (Hfull 0 ltac:(lia)) as [f0 H0].
      destruct (Hfull 1 ltac:(lia)) as [f1 H1].
      pose proof (all_match_timestamp _ m 0 f0 Hall H0) as E0.
      pose proof (all_match_timestamp _ m 1 f1 Hall H1) as E1.
      destruct (Hodd1 f0 H0) as [q0 Hq0].
      destruct (Heven1 f1 H1) as [q1 Hq1]. lia.
  - split; [apply init_wf|]. split; [done|]. split.
    + exists []. by rewrite app_nil_r.
    + split; intros f [Hf _]%lookup_replicate; done.
  - by exists st, evs.
Qed.

Lemma env_ok_startup (filled : nat → nat → option ts_frame_buf) :
  startup_ok (env_ok filled).
Proof. unfold startup_ok. simpl. repeat split; lia || done. Defined.

(** C5, as stated, fails: both filled queues yield a frame at every call,
    with increasing unsigned timestamps, and yet the loop never counts or
    logs a set, so that [main] is still in the loop after any number of
    turns. *)
Lemma supply_without_alignment_never_stops :
  (∀ i k, ∃ f, odd_even i k = Some f ∧ (0 ≤ timestamp f)%Z)
  ∧ increasing_supply 2 odd_even
  ∧ startup_ok (env_ok odd_even)
  ∧ ∀ fuel,
      snd (main fuel (env_ok odd_even)) = Running
      ∧ emitted (fst (main fuel (env_ok odd_even))) = [].
Proof.
  split; [|split; [apply odd_even_increasing|split; [apply env_ok_startup|]]].
  - intros i k. eexists. split; [done|]. simpl. lia.
  - intros fuel.
    destruct (main_startup_ok _ (env_ok_startup odd_even)) as [tr Hstart].
    set (tr0 := tr ++ _) in Hstart.
    pose proof (main_startup_emitted (env_ok odd_even)) as Hem.
    rewrite Hstart in Hem. destruct Hem as [Hem _].
    destruct (odd_even_never_emits tr0 fuel)
      as (st & evs & Hrun & Hcs & Htr & Hevs).
    unfold main. rewrite Hstart.
    change (Z.to_nat (count_cameras_ret (env_ok odd_even))) with 2.
    change (filled_dq (env_ok odd_even)) with odd_even.
    rewrite Hrun, Hcs. simpl. split; [done|].
    by rewrite Htr, emitted_app, Hem, Hevs.
Qed.

(** ** The theorems at concrete inputs *)

Lemma s2_slots_full : full_set_of 2 s2_slots.
Proof.
  intros i Hi. destruct i as [|[|i]]; [by eexists | by eexists | lia].
Defined.

Lemma s2_slots_unsigned :
  ∀ i f, s2_slots !! i = Some (Some f) → is_u64 (timestamp f).
Proof.
  intros i f Hf. destruct i as [|[|i]]; simpl in Hf.
  - injection Hf as <-. unfold is_u64. simpl. lia.
  - injection Hf as <-. unfold is_u64. simpl. lia.
  - done.
Defined.

Lemma s2_increasing : increasing_supply 2 s2_filled.
Proof.
  intros i k1 k2 f1 f2 Hi Hk H1 H2.
  destruct i as [|[|i]]; [| |lia]; simpl in H1, H2.
  - destruct k1 as [|[|[|[|k1]]]]; simpl in H1; try done;
      destruct k2 as [|[|[|[|k2]]]]; simpl in H2; try done; try lia;
      injection H1 as <-; injection H2 as <-; simpl; lia.
  - destruct k1 as [|[|[|k1]]]; simpl in H1; try done;
      destruct k2 as [|[|[|k2]]]; simpl in H2; try done; try lia;
      injection H1 as <-; injection H2 as <-; simpl; lia.
Defined.

Lemma emitted_set_aligned_witness :
  wf_state 2 s2_state1
  ∧ iteration 2 s2_filled s2_state1 = Some s2_state2
  ∧ (complete_sets s2_state2 ≠ complete_sets s2_state1
     ∨ emitted (trace s2_state2) ≠ emitted (trace s2_state1))
  ∧ ∃ (frames : list (option ts_frame_buf)) (t : Z),
      length frames = 2
      ∧ trace s2_state2
        = trace s2_state1 ++ [EvLogSet (complete_sets s2_state1) t]
                          ++ imap EvNq frames
      ∧ (∀ i, i < 2 → ∃ f, frames !! i = Some (Some f) ∧ timestamp f = t)
      ∧ (∀ i j f g, frames !! i = Some (Some f) → frames !! j = Some (Some g) →
           timestamp f = timestamp g).
Proof.
  assert (H1 : wf_state 2 s2_state1) by (split; reflexivity).
  assert (H2 : iteration 2 s2_filled s2_state1 = Some s2_state2)
    by (vm_compute; reflexivity).
  assert (H3 : complete_sets s2_state2 ≠ complete_sets s2_state1
               ∨ emitted (trace s2_state2) ≠ emitted (trace s2_state1))
    by (left; simpl; lia).
  split; [exact H1|]. split; [exact H2|]. split; [exact H3|].
  exact (emitted_set_aligned 2 s2_filled s2_state1 s2_state2 H1 H2 H3).
Defined.

Lemma align_pass_recycles_below_max_witness :
  length s2_slots = 2
  ∧ full_set_of 2 s2_slots
  ∧ ∃ t_max cur' evs all_equal,
      align_pass 2 s2_slots = Some (t_max, cur', evs, all_equal)
      ∧ is_max_of s2_slots t_max
      ∧ (0 < 2 →
         (∀ i f, s2_slots !! i = Some (Some f) → is_u64 (timestamp f)) →
         ∃ i f, s2_slots !! i = Some (Some f) ∧ timestamp f = t_max)
      ∧ length cur' = 2
      ∧ (∀ i f, s2_slots !! i = Some (Some f) →
           ((timestamp f < t_max)%Z →
              cur' !! i = Some None ∧ enqueued i evs = [Some f])
           ∧ (timestamp f = t_max →
              cur' !! i = Some (Some f) ∧ enqueued i evs = []))
      ∧ (∀ e, e ∈ evs →
           ∃ i f, e = EvNq i (Some f) ∧ s2_slots !! i = Some (Some f)
                  ∧ (timestamp f < t_max)%Z).
Proof.
  split; [reflexivity|]. split; [exact s2_slots_full|].
  exact (align_pass_recycles_below_max 2 s2_slots eq_refl s2_slots_full).
Defined.

Lemma align_pass_keeps_a_slot_witness :
  0 < 2
  ∧ length s2_slots = 2
  ∧ full_set_of 2 s2_slots
  ∧ (∀ i f, s2_slots !! i = Some (Some f) → is_u64 (timestamp f))
  ∧ ∃ t_max cur' evs all_equal,
      align_pass 2 s2_slots = Some (t_max, cur', evs, all_equal)
      ∧ is_max_of s2_slots t_max
      ∧ (∀ i f, s2_slots !! i = Some (Some f) → (timestamp f ≤ t_max)%Z)
      ∧ (∃ i f, s2_slots !! i = Some (Some f) ∧ timestamp f = t_max
                ∧ cur' !! i = Some (Some f) ∧ enqueued i evs = [])
      ∧ (∀ i f, s2_slots !! i = Some (Some f) → timestamp f = t_max →
           cur' !! i = Some (Some f) ∧ enqueued i evs = [])
      ∧ length evs ≤ 2 - 1
      ∧ cur' ≠ replicate 2 None.
Proof.
  assert (H0 : 0 < 2) by lia.
  split; [exact H0|]. split; [reflexivity|]. split; [exact s2_slots_full|].
  split; [exact s2_slots_unsigned|].
  exact (align_pass_keeps_a_slot 2 s2_slots H0 eq_refl s2_slots_full
           s2_slots_unsigned).
Defined.

Lemma emitted_timestamps_increase_witness :
  increasing_supply 2 s2_filled
  ∧ StronglySorted Z.lt (emitted (fst (main 4 (env_ok s2_filled))))
  ∧ emitted (fst (main 4 (env_ok s2_filled))) = [200; 300; 400]%Z.
Proof.
  split; [exact s2_increasing|].
  split; [|vm_compute; reflexivity].
  exact (proj1 (emitted_timestamps_increase (env_ok s2_filled) 4
                  s2_increasing)).
Defined.

Lemma start_anchor_is_now_plus_one_second_witness :
  startup_ok (env_ok s2_filled)
  ∧ (0 ≤ 1700000000)%Z
  ∧ (0 ≤ 123456789)%Z
  ∧ (1700000000 * 10 ^ 9 + 123456789 + 10 ^ 9 < 2 ^ 64)%Z
  ∧ start_anchor 1700000000 123456789 = 1700000001123456789%Z
  ∧ object_bytes sizeof_uint64 (start_anchor 1700000000 123456789)
    = [21; 151; 32; 121; 254; 156; 151; 23]%Z
  ∧ ∃ tr, main_startup (env_ok s2_filled)
          = inr (tr ++ [EvBroadcast 2 [21; 151; 32; 121; 254; 156; 151; 23]%Z],
                 0%Z).
Proof.
  assert (H1 : (0 ≤ 1700000000)%Z) by lia.
  assert (H2 : (0 ≤ 123456789)%Z) by lia.
  assert (H3 : (1700000000 * 10 ^ 9 + 123456789 + 10 ^ 9 < 2 ^ 64)%Z) by lia.
  split; [apply env_ok_startup|].
  split; [exact H1|]. split; [exact H2|]. split; [exact H3|].
  pose proof (start_anchor_is_now_plus_one_second (env_ok s2_filled)) as H.
  cbv zeta in H. destruct H as (Hs & _ & _ & _ & _ & _ & _ & H).
  split; [exact (H H1 H2 H3)|].
  split; [vm_compute; reflexivity|].
  exact (Hs (env_ok_startup s2_filled)).
Defined.

Lemma grid_sorted (a n : nat) :
  StronglySorted Z.lt ((λ k, (1000 * Z.of_nat k)%Z) <$> seq a n).
Proof.
  revert a. induction n as [|n IH]; intros a; simpl; constructor.
  - apply IH.
  - apply Forall_forall. intros x Hx.
    apply list_elem_of_fmap in Hx as (k & -> & Hk).
    apply elem_of_seq in Hk. lia.
Defined.

Lemma grid_increasing : increasing_supply 2 grid_supply.
Proof.
  intros i k1 k2 f1 f2 _ Hk. unfold grid_supply.
  destruct (k1 <? 100); [|done]. destruct (k2 <? 100); [|done].
  intros [= <-] [= <-]. simpl. lia.
Defined.

Lemma grid_unsigned : unsigned_supply 2 grid_supply.
Proof.
  intros i k f _. unfold grid_supply.
  destruct (Nat.ltb_spec k 100); [|done].
  intros [= <-]. unfold is_u64. simpl. lia.
Defined.

Lemma grid_aligned : aligned_supply 2 grid_supply grid.
Proof.
  split; [apply grid_sorted|].
  intros T HT i _. unfold grid in HT.
  apply list_elem_of_fmap in HT as (k & -> & Hk).
  apply elem_of_seq in Hk. exists k. unfold grid_supply.
  destruct (Nat.ltb_spec k 100); [|lia]. by eexists.
Defined.

Lemma main_stops_after_100_sets_witness :
  startup_ok (env_ok grid_supply)
  ∧ increasing_supply 2 grid_supply
  ∧ unsigned_supply 2 grid_supply
  ∧ aligned_supply 2 grid_supply grid
  ∧ length grid = 100
  ∧ ∃ tr0 fuel st,
      main_startup (env_ok grid_supply) = inr (tr0, 0%Z)
      ∧ sync_loop 2 grid_supply fuel (sync_init 2 tr0) = Some st
      ∧ complete_sets st = 100%Z
      ∧ current_frames st = [None; None]
      ∧ main fuel (env_ok grid_supply)
        = (trace st ++ main_shutdown (env_ok grid_supply), Returned 0).
Proof.
  assert (Hlen : length grid = 100) by reflexivity.
  split; [apply env_ok_startup|]. split; [exact grid_increasing|].
  split; [exact grid_unsigned|]. split; [exact grid_aligned|].
  split; [exact Hlen|].
  destruct (main_stops_after_100_sets (env_ok grid_supply) grid
              (env_ok_startup grid_supply) grid_increasing grid_unsigned
              grid_aligned Hlen)
    as (tr0 & fuel & st & evs & Hstart & Hrun & Hcs & _ & _ & Hcur & _
        & Hmain & _).
  exists tr0, fuel, st. split; [exact Hstart|]. split; [exact Hrun|].
  split; [exact Hcs|]. split; [exact Hcur|].
  rewrite <- (Hmain 0). by rewrite Nat.add_0_r.
Defined.

(** * Further properties of [main] *)

(** ** Sorted lists of timestamps *)

Lemma StronglySorted_snoc_inv (l : list Z) (a : Z) :
  StronglySorted Z.lt (l ++ [a]) → ∀ x, x ∈ l → (x < a)%Z.
Proof.
  induction l as [|y l IH]; intros Hs x Hx; [by apply elem_of_nil in Hx|].
  simpl in Hs. apply StronglySorted_inv in Hs as [Hs Hy].
  apply elem_of_cons in Hx as [->|Hx]; [|by apply IH].
  rewrite Forall_forall in Hy. apply Hy. apply elem_of_app. right. by left.
Qed.

Lemma StronglySorted_lt_NoDup (l : list Z) : StronglySorted Z.lt l → NoDup l.
Proof.
  induction 1 as [|x l Hs IH Hx]; constructor; [|done].
  intros Hin. rewrite Forall_forall in Hx. specialize (Hx x Hin). lia.
Qed.

(** Two increasing lists with the same members are one list. *)
Lemma StronglySorted_lt_ext (l1 l2 : list Z) :
  StronglySorted Z.lt l1 → StronglySorted Z.lt l2 →
  (∀ x, x ∈ l1 ↔ x ∈ l2) → l1 = l2.
Proof.
  revert l2. induction l1 as [|a l1 IH]; intros [|b l2] H1 H2 Hm.
  - done.
  - exfalso. apply (elem_of_nil b). apply Hm. by left.
  - exfalso. apply (elem_of_nil a). apply Hm. by left.
  - apply StronglySorted_inv in H1 as [H1 Ha].
    apply StronglySorted_inv in H2 as [H2 Hb].
    rewrite Forall_forall in Ha, Hb.
    assert (a = b) as <-.
    { pose proof (proj1 (Hm a) ltac:(by left)) as Hab.
      pose proof (proj2 (Hm b) ltac:(by left)) as Hba.
      apply elem_of_cons in Hab as [?|Hab]; [done|].
      apply elem_of_cons in Hba as [?|Hba]; [done|].
      specialize (Ha b Hba). specialize (Hb a Hab). lia. }
    f_equal. apply IH; [done | done |]. intros x. split; intros Hx.
    + pose proof (proj1 (Hm x) ltac:(by right)) as Hx'.
      apply elem_of_cons in Hx' as [->|?]; [|done].
      specialize (Ha a Hx). lia.
    + pose proof (proj2 (Hm x) ltac:(by right)) as Hx'.
      apply elem_of_cons in Hx' as [->|?]; [|done].
      specialize (Hb a Hx). lia.
Qed.

(** An increasing list within another of no greater length is that
    list. *)
Lemma StronglySorted_lt_full (l1 l2 : list Z) :
  StronglySorted Z.lt l1 → StronglySorted Z.lt l2 →
  (∀ x, x ∈ l1 → x ∈ l2) → length l2 ≤ length l1 → l1 = l2.
Proof.
  intros H1 H2 Hsub Hlen.
  apply StronglySorted_lt_ext; [done | done |].
  assert (l1 ≡ₚ l2) as Hp.
  { apply submseteq_length_Permutation; [|done].
    apply NoDup_submseteq; [|done]. by apply StronglySorted_lt_NoDup. }
  intros x. by rewrite Hp.
Qed.

Section gaps.

Variable cam_count : nat.
Variable filled : nat → nat → option ts_frame_buf.

(** There is one increasing list of a given length of common timestamps
    that leaves none out. *)
Lemma no_gap_unique (l1 l2 : list Z) :
  StronglySorted Z.lt l1 → StronglySorted Z.lt l2 →
  (∀ x, x ∈ l1 → common_timestamp cam_count filled x) →
  (∀ x, x ∈ l2 → common_timestamp cam_count filled x) →
  no_gap cam_count filled l1 → no_gap cam_count filled l2 →
  length l1 = length l2 → l1 = l2.
Proof.
  intros H1 H2 Hc1 Hc2 Hg1 Hg2 Hlen.
  apply StronglySorted_lt_full; [done | done | | lia].
  intros x Hx. destruct (decide (x ∈ l2)) as [?|Hnot]; [done|]. exfalso.
  assert (∀ y, y ∈ l2 → y ∈ l1) as Hsub.
  { intros y Hy. apply (Hg1 y x); [by apply Hc2 | done |].
    destruct (Z.le_gt_cases x y) as [Hle|Hgt]; [|lia].
    destruct Hnot. by apply (Hg2 x y); [apply Hc1| |]. }
  assert (x :: l2 ⊆+ l1) as Hm.
  { apply NoDup_submseteq.
    - constructor; [done|]. by apply StronglySorted_lt_NoDup.
    - intros y [->|Hy]%elem_of_cons; [done | by apply Hsub]. }
  apply submseteq_length in Hm. simpl in Hm. lia.
Qed.

End gaps.

(** ** The timestamps the loop logs *)

Section exactness.

Variable cam_count : nat.
Variable filled : nat → nat → option ts_frame_buf.

(** The timestamp of a set that is logged is one that the filled queue
    of every camera has yielded. *)
Lemma emit_common (st : sync_state) (m : Z) :
  provenance filled st →
  full_set_of cam_count (current_frames (after_fill filled st)) →
  forallb (matches m) (current_frames (after_fill filled st)) = true →
  common_timestamp cam_count filled m.
Proof.
  intros Hprov Hfull Hall i Hi.
  destruct (Hfull i Hi) as [g Hg].
  pose proof (all_match_timestamp _ m i g Hall Hg) as Hm.
  destruct (after_fill_provenance filled st Hprov i g Hg)
    as (c & _ & Hsrc).
  by exists c, g.
Qed.

Lemma turn_sound (tr0 : list event) (st st' : sync_state) :
  provenance filled st →
  sound cam_count filled tr0 st →
  turn cam_count filled st st' →
  sound cam_count filled tr0 st'.
Proof.
  intros Hprov (evs & Htr & Hcom)
    [cur1 Hheld ->|m cur1 Hfull Hmax Hall ->|m cur1 Hfull Hmax Hall ->].
  - by exists evs.
  - exists (evs ++ concat (imap (recycle_event m) cur1)).
    split; [simpl; by rewrite Htr, app_assoc|].
    by rewrite emitted_app, emitted_recycle, app_nil_r.
  - exists (evs ++ [EvLogSet (complete_sets st) m] ++ imap EvNq cur1).
    split; [simpl; by rewrite Htr, <- app_assoc|].
    rewrite !emitted_app, emitted_nq, app_nil_r.
    change (emitted [EvLogSet (complete_sets st) m]) with [m].
    intros t [Ht|Ht]%elem_of_app; [by apply Hcom|].
    apply list_elem_of_singleton in Ht as ->.
    by apply (emit_common st m).
Qed.

Lemma init_sound (tr0 : list event) :
  sound cam_count filled tr0 (sync_init cam_count tr0).
Proof.
  exists []. simpl. rewrite app_nil_r. split; [done|].
  by intros t ?%elem_of_nil.
Qed.

Lemma init_exact (tr0 : list event) :
  exact cam_count filled tr0 (sync_init cam_count tr0).
Proof.
  exists []. simpl. rewrite app_nil_r. split; [done|].
  split; [by intros t T _ ?%elem_of_nil|].
  intros K T HK _.
  apply (init_fresh cam_count filled (T - 1) tr0 K T); [lia | done].
Qed.

Lemma turn_exact (tr0 : list event) (st st' : sync_state) :
  0 < cam_count →
  increasing_supply cam_count filled →
  unsigned_supply cam_count filled →
  wf_state cam_count st →
  provenance filled st →
  above_emitted filled tr0 st →
  exact cam_count filled tr0 st →
  turn cam_count filled st st' →
  exact cam_count filled tr0 st'.
Proof.
  intros Hpos Hmono Hu Hwf Hprov Hab (evs & Htr & Hgap & Hfresh) Ht.
  pose proof (turn_above_emitted cam_count filled Hpos Hmono tr0 st st'
                Hwf Hprov Hab Ht) as Hab'.
  destruct Ht as [cur1 Hheld ->|m cur1 Hfull Hmax Hall ->
                 |m cur1 Hfull Hmax Hall ->].
  - exists evs. split; [done|]. split; [done|].
    intros K T HK Hlt.
    apply (after_fill_not_passed cam_count filled K T HK st).
    by apply (Hfresh K T).
  - exists (evs ++ concat (imap (recycle_event m) cur1)).
    split; [simpl; by rewrite Htr, app_assoc|].
    rewrite emitted_app, emitted_recycle, app_nil_r.
    split; [done|]. intros K T HK Hlt.
    apply (recycle_not_passed cam_count filled Hpos Hmono Hu K T HK st m
             _ _ Hwf Hprov (Hfresh K T HK Hlt) Hfull Hmax).
  - exists (evs ++ [EvLogSet (complete_sets st) m] ++ imap EvNq cur1).
    split; [simpl; by rewrite Htr, <- app_assoc|].
    rewrite !emitted_app, emitted_nq, app_nil_r.
    change (emitted [EvLogSet (complete_sets st) m]) with [m].
    split.
    + intros t T Ht [HT|HT]%elem_of_app Hle.
      { apply elem_of_app. left. by apply (Hgap t T). }
      apply list_elem_of_singleton in HT as ->.
      destruct (decide (Forall (λ x, (x < t)%Z) (emitted evs)))
        as [Hbelow|Hex].
      * apply elem_of_app. right. apply list_elem_of_singleton.
        destruct (finite_choice cam_count
                    (λ i k, ∃ f, filled i k = Some f ∧ timestamp f = t))
          as [K HK]; [exact Ht|].
        assert (Hnp : not_passed cam_count filled K st).
        { apply (Hfresh K t HK). intros x Hx.
          rewrite Forall_forall in Hbelow. by apply Hbelow. }
        pose proof (max_le_target cam_count filled K t HK Hmono Hu Hpos
                      st m Hwf Hprov Hnp Hfull Hmax).
        lia.
      * apply not_Forall_Exists in Hex; [|intros x; apply _].
        apply Exists_exists in Hex as (x & Hx & Hnlt). simpl in Hnlt.
        apply elem_of_app. left. apply (Hgap t x); [done | done | lia].
    + intros K T HK Hlt.
      apply (emit_fresh cam_count filled Hpos Hmono st m _ _ Hprov Hfull
               Hall K T); [|done].
      apply Hlt. apply elem_of_app. right. by apply list_elem_of_singleton.
Qed.

(** However long the loop runs, it does not fault, and what it has
    logged is an increasing list of common timestamps with none left
    out, as long as the count of sets. *)
Lemma sync_loop_exact (fuel : nat) (tr0 : list event) :
  0 < cam_count →
  increasing_supply cam_count filled →
  unsigned_supply cam_count filled →
  ∃ st evs,
    sync_loop cam_count filled fuel (sync_init cam_count tr0) = Some st
    ∧ wf_state cam_count st
    ∧ trace st = tr0 ++ evs
    ∧ StronglySorted Z.lt (emitted evs)
    ∧ (∀ t, t ∈ emitted evs → common_timestamp cam_count filled t)
    ∧ no_gap cam_count filled (emitted evs)
    ∧ Z.of_nat (length (emitted evs)) = complete_sets st
    ∧ (0 ≤ complete_sets st ≤ 100)%Z.
Proof.
  intros Hpos Hmono Hu.
  destruct (sync_loop_inv cam_count filled
    (λ st, wf_state cam_count st ∧ provenance filled st
           ∧ above_emitted filled tr0 st
           ∧ sound cam_count filled tr0 st
           ∧ exact cam_count filled tr0 st
           ∧ (0 ≤ complete_sets st)%Z
           ∧ accounted cam_count filled tr0 st)) with (fuel := fuel)
    (st := sync_init cam_count tr0)
    as (st & Hst & Hwf & _ & Hab & Hso & Hex & H0 & Hacc).
  - intros st (Hwf & Hprov & Hab & Hso & Hex & H0 & Hacc) Hlt.
    destruct (iteration_turn cam_count filled st Hwf)
      as (st' & Hit & Hwf' & Ht).
    exists st'. split; [done|]. split; [done|].
    split; [by apply (turn_provenance cam_count filled st)|].
    split; [by apply (turn_above_emitted cam_count filled Hpos Hmono
                        tr0 st)|].
    split; [by apply (turn_sound tr0 st)|].
    split; [by apply (turn_exact tr0 st)|].
    pose proof (turn_accounted cam_count filled tr0 st st' ltac:(lia)
                  Hacc Ht) as Hacc'.
    split; [|done]. destruct Hacc' as (evs & _ & <- & _). lia.
  - split; [apply init_wf|]. split; [apply init_provenance|].
    split.
    { exists []. simpl. rewrite app_nil_r. split; [done|].
      split; [constructor|]. by intros e ?%elem_of_nil. }
    split; [apply init_sound|]. split; [apply init_exact|].
    split; [simpl; lia|]. apply init_accounted.
  - destruct Hab as (evs & Htr & Hsorted & _).
    destruct Hso as (evs1 & Htr1 & Hcom).
    destruct Hex as (evs2 & Htr2 & Hgap & _).
    destruct Hacc as (evs3 & Htr3 & Hlen & Hle & _).
    rewrite Htr in Htr1, Htr2, Htr3.
    apply app_inv_head in Htr1, Htr2, Htr3. subst evs1 evs2 evs3.
    exists st, evs. done.
Qed.

(** The calls made on a filled queue are never fewer after a turn. *)
Lemma turn_calls_grow (st st' : sync_state) (i c : nat) :
  wf_state cam_count st →
  turn cam_count filled st st' →
  dq_calls st !! i = Some c →
  ∃ c', dq_calls st' !! i = Some c' ∧ c ≤ c'.
Proof.
  intros Hwf Ht Hc.
  assert (Hi : i < cam_count).
  { destruct Hwf as [_ <-]. by apply lookup_lt_Some in Hc. }
  destruct (wf_lookup cam_count st i Hwf Hi) as (p & c0 & Hp & Hc0).
  rewrite Hc in Hc0. injection Hc0 as <-.
  destruct (fill_lookup filled _ _ i p c Hp Hc) as [_ Hb].
  exists (bump (p, c)). split.
  - by destruct Ht as [cur1 Hheld ->|m cur1 Hfull Hmax Hall ->
                      |m cur1 Hfull Hmax Hall ->].
  - unfold bump. cbn [fst snd]. destruct p; lia.
Qed.

Lemma turn_yielded (tr0 : list event) (st st' : sync_state) :
  wf_state cam_count st →
  provenance filled st →
  yielded cam_count filled tr0 st →
  turn cam_count filled st st' →
  yielded cam_count filled tr0 st'.
Proof.
  intros Hwf Hprov (evs & Htr & Hy) Ht.
  assert (Hold : ∀ evs', ∀ t, t ∈ emitted evs → ∀ i, i < cam_count →
            ∃ c k f, dq_calls st' !! i = Some c ∧ k < c
                     ∧ filled i k = Some f ∧ timestamp f = t
                     ∧ Some f ∈ enqueued i (evs ++ evs')).
  { intros evs' t Hin i Hi.
    destruct (Hy t Hin i Hi) as (c & k & f & Hc & Hk & Hf & Hts & Hnq).
    destruct (turn_calls_grow st st' i c Hwf Ht Hc) as (c' & Hc' & Hle).
    exists c', k, f. split; [done|]. split; [lia|]. split; [done|].
    split; [done|]. rewrite enqueued_app. apply elem_of_app. by left. }
  destruct Ht as [cur1 Hheld Hst|m cur1 Hfull Hmax Hall Hst
                 |m cur1 Hfull Hmax Hall Hst].
  - exists evs. split; [by rewrite Hst|].
    intros t Hin i Hi.
    destruct (Hold [] t Hin i Hi) as (c & k & f & H).
    exists c, k, f. by rewrite app_nil_r in H.
  - exists (evs ++ concat (imap (recycle_event m) cur1)).
    split; [rewrite Hst; simpl; by rewrite Htr, app_assoc|].
    rewrite emitted_app, emitted_recycle, app_nil_r. apply Hold.
  - exists (evs ++ [EvLogSet (complete_sets st) m] ++ imap EvNq cur1).
    split; [rewrite Hst; simpl; by rewrite Htr, <- app_assoc|].
    rewrite !emitted_app, emitted_nq, app_nil_r.
    change (emitted [EvLogSet (complete_sets st) m]) with [m].
    intros t [Hin|Hin]%elem_of_app; [by apply Hold|].
    apply list_elem_of_singleton in Hin as ->.
    intros i Hi. destruct (Hfull i Hi) as [g Hg].
    pose proof (all_match_timestamp _ m i g Hall Hg) as Hm.
    destruct (fill_provenance filled st i g Hprov Hg)
      as (c & Hc & Hsrc).
    exists (S c), c, g. split; [by rewrite Hst|]. split; [lia|].
    split; [done|]. split; [done|].
    rewrite !enqueued_app, enqueued_nq, Hg.
    apply elem_of_app. right. apply elem_of_app. right. by left.
Qed.

Lemma init_yielded (tr0 : list event) :
  yielded cam_count filled tr0 (sync_init cam_count tr0).
Proof.
  exists []. simpl. rewrite app_nil_r. split; [done|].
  by intros t ?%elem_of_nil.
Qed.

(** A frame set is logged only for a timestamp that a call made on every
    camera's filled queue has yielded, whatever the queues yield. *)
Lemma sync_loop_yielded (fuel : nat) (tr0 : list event) :
  ∃ st,
    sync_loop cam_count filled fuel (sync_init cam_count tr0) = Some st
    ∧ yielded cam_count filled tr0 st.
Proof.
  destruct (sync_loop_inv cam_count filled
    (λ st, wf_state cam_count st ∧ provenance filled st
           ∧ yielded cam_count filled tr0 st)) with (fuel := fuel)
    (st := sync_init cam_count tr0) as (st & Hst & _ & _ & Hy).
  - intros st (Hwf & Hprov & Hy) _.
    destruct (iteration_turn cam_count filled st Hwf)
      as (st' & Hit & Hwf' & Ht).
    exists st'. split; [done|]. split; [done|].
    split; [by apply (turn_provenance cam_count filled st)|].
    by apply (turn_yielded tr0 st).
  - split; [apply init_wf|]. split; [apply init_provenance|].
    apply init_yielded.
  - by exists st.
Qed.

End exactness.

(** ** [main] as its start-up, its loop and its shutdown *)

(** [main] ends in its start-up, or it enters its loop with a camera, the
    loop does not fault, and [main] is in the loop or past it. *)
Lemma main_cases (fuel : nat) (e : env) :
  (∃ r, main_startup e = inl r ∧ main fuel e = r)
  ∨ (∃ tr0 ret st,
       main_startup e = inr (tr0, ret)
       ∧ (0 < count_cameras_ret e)%Z
       ∧ sync_loop (Z.to_nat (count_cameras_ret e)) (filled_dq e) fuel
           (sync_init (Z.to_nat (count_cameras_ret e)) tr0) = Some st
       ∧ main fuel e
         = if (complete_sets st <? 100)%Z
           then (trace st, Running)
           else (trace st ++ main_shutdown e, Returned ret)).
Proof.
  unfold main. pose proof (main_startup_emitted e) as H.
  destruct (main_startup e) as [r|[tr0 ret]]; [left; by exists r|].
  right. destruct H as [_ Hpos].
  destruct (sync_loop_accounted (Z.to_nat (count_cameras_ret e))
              (filled_dq e) fuel tr0) as (st & Hst & _).
  exists tr0, ret, st. by rewrite Hst.
Qed.

(** The sets [main] has logged are the ones its loop has logged. *)
Lemma main_emitted_loop (fuel : nat) (e : env) (tr0 evs : list event)
    (ret : Z) (st : sync_state) :
  main_startup e = inr (tr0, ret) →
  sync_loop (Z.to_nat (count_cameras_ret e)) (filled_dq e) fuel
    (sync_init (Z.to_nat (count_cameras_ret e)) tr0) = Some st →
  trace st = tr0 ++ evs →
  emitted (fst (main fuel e)) = emitted evs.
Proof.
  intros Hs Hl Htr. unfold main. rewrite Hs, Hl.
  pose proof (main_startup_emitted e) as H0. rewrite Hs in H0.
  destruct H0 as [H0 _].
  destruct (complete_sets st <? 100)%Z; simpl;
    rewrite Htr, ?emitted_app, ?emitted_shutdown, H0, ?app_nil_r; done.
Qed.

Lemma main_emitted_failed (fuel : nat) (e : env)
    (r : list event * outcome) :
  main_startup e = inl r → emitted (fst (main fuel e)) = [].
Proof.
  intros Hs. unfold main. rewrite Hs.
  pose proof (main_startup_emitted e) as H0. rewrite Hs in H0.
  by destruct r.
Qed.

(** X1. Whatever the filled queues yield and however long [main] runs,
    every timestamp it logs for a frame set is the timestamp of a frame
    that the filled queue of each camera has yielded to it: [main] has
    reached its loop, and for every camera one of the calls of
    [lf_queue_dq] the loop has made by then on the camera's filled
    queue returned a frame with this timestamp, which the loop has put
    on the camera's empty queue. *)
Theorem logged_timestamp_was_yielded (fuel : nat) (e : env) (t : Z) :
  t ∈ emitted (fst (main fuel e)) →
  ∃ tr0 ret st evs,
    main_startup e = inr (tr0, ret)
    ∧ sync_loop (Z.to_nat (count_cameras_ret e)) (filled_dq e) fuel
        (sync_init (Z.to_nat (count_cameras_ret e)) tr0) = Some st
    ∧ trace st = tr0 ++ evs
    ∧ ∀ i, i < Z.to_nat (count_cameras_ret e) →
        ∃ c k f, dq_calls st !! i = Some c ∧ k < c
                 ∧ filled_dq e i k = Some f ∧ timestamp f = t
                 ∧ Some f ∈ enqueued i evs.
Proof.
  destruct (main_cases fuel e) as [(r & Hs & _)|(tr0 & ret & st & Hs & _ & _)].
  - rewrite (main_emitted_failed fuel e r Hs). by intros ?%elem_of_nil.
  - destruct (sync_loop_yielded (Z.to_nat (count_cameras_ret e))
                (filled_dq e) fuel tr0) as (st' & Hl & evs & Htr & Hy).
    rewrite (main_emitted_loop fuel e tr0 evs ret st' Hs Hl Htr).
    intros Hin. exists tr0, ret, st', evs.
    split; [done|]. split; [done|]. split; [done|]. by apply Hy.
Qed.

(** X2. When each camera's filled queue yields strictly increasing
    unsigned timestamps, [main] skips no common timestamp: a timestamp
    that every camera's queue yields and that is not above a logged one
    has been logged itself. *)
Theorem no_common_timestamp_skipped (fuel : nat) (e : env) :
  increasing_supply (Z.to_nat (count_cameras_ret e)) (filled_dq e) →
  unsigned_supply (Z.to_nat (count_cameras_ret e)) (filled_dq e) →
  no_gap (Z.to_nat (count_cameras_ret e)) (filled_dq e)
    (emitted (fst (main fuel e))).
Proof.
  intros Hmono Hu.
  destruct (main_cases fuel e)
    as [(r & Hs & _)|(tr0 & ret & st & Hs & Hpos & _ & _)].
  - rewrite (main_emitted_failed fuel e r Hs). by intros t T _ ?%elem_of_nil.
  - destruct (sync_loop_exact (Z.to_nat (count_cameras_ret e)) (filled_dq e)
                fuel tr0 ltac:(lia) Hmono Hu)
      as (st' & evs & Hl & _ & Htr & _ & _ & Hgap & _).
    by rewrite (main_emitted_loop fuel e tr0 evs ret st' Hs Hl Htr).
Qed.

(** ** What the loop adds to the trace *)

Lemma forallb_elem {A : Type} (f : A → bool) (l : list A) :
  (∀ x, x ∈ l → f x = true) → forallb f l = true.
Proof.
  induction l as [|x l IH]; intros H; [done|]. simpl.
  rewrite (H x) by (by left). apply IH. intros y Hy. apply H. by right.
Qed.

Lemma recycle_loop_events (m : Z) (cur : list (option ts_frame_buf)) :
  forallb is_loop_event (concat (imap (recycle_event m) cur)) = true.
Proof.
  apply forallb_elem. intros ev Hev.
  by apply recycle_events_nq in Hev as (i & p & -> & _).
Qed.

Lemma nq_loop_events (cur : list (option ts_frame_buf)) :
  forallb is_loop_event (imap EvNq cur) = true.
Proof.
  apply forallb_elem. intros ev Hev.
  apply elem_of_lookup_imap in Hev as (i & p & -> & _). done.
Qed.

Section extension.

Variable cam_count : nat.
Variable filled : nat → nat → option ts_frame_buf.

(** A turn adds to the trace, and what it adds are handles going back
    and at most one log line. *)
Lemma turn_extends (st st' : sync_state) :
  turn cam_count filled st st' →
  ∃ evs, trace st' = trace st ++ evs ∧ forallb is_loop_event evs = true.
Proof.
  intros [cur1 Hheld ->|m cur1 Hfull Hmax Hall ->|m cur1 Hfull Hmax Hall ->].
  - exists []. simpl. by rewrite app_nil_r.
  - eexists. split; [done|]. apply recycle_loop_events.
  - eexists. split; [done|]. simpl. apply nq_loop_events.
Qed.

Lemma sync_loop_extends (fuel : nat) (st : sync_state) :
  wf_state cam_count st →
  ∃ st' evs, sync_loop cam_count filled fuel st = Some st'
    ∧ trace st' = trace st ++ evs
    ∧ forallb is_loop_event evs = true.
Proof.
  intros Hwf.
  destruct (sync_loop_inv cam_count filled
    (λ st', wf_state cam_count st'
            ∧ ∃ evs, trace st' = trace st ++ evs
                ∧ forallb is_loop_event evs = true)) with (fuel := fuel)
    (st := st) as (st' & Hst & _ & evs & Htr & Hev).
  - intros st1 (Hwf1 & evs & Htr & Hev) _.
    destruct (iteration_turn cam_count filled st1 Hwf1)
      as (st2 & Hit & Hwf2 & Ht).
    exists st2. split; [done|]. split; [done|].
    destruct (turn_extends st1 st2 Ht) as (evs' & Htr' & Hev').
    exists (evs ++ evs'). split; [by rewrite Htr', Htr, app_assoc|].
    by rewrite forallb_app, Hev, Hev'.
  - split; [done|]. exists []. by rewrite app_nil_r.
  - by exists st', evs.
Qed.

End extension.

(** X3. When the start-up succeeds, each camera's filled queue yields
    strictly increasing unsigned timestamps, and [Ts] lists in increasing
    order the first common timestamps of the queues (at most 100, none
    left out), then after some number of turns [main] has logged exactly
    the timestamps of [Ts], in this order, and whatever it logs later
    comes after them. *)
Theorem first_common_timestamps_logged (e : env) (Ts : list Z) :
  startup_ok e →
  increasing_supply (Z.to_nat (count_cameras_ret e)) (filled_dq e) →
  unsigned_supply (Z.to_nat (count_cameras_ret e)) (filled_dq e) →
  aligned_supply (Z.to_nat (count_cameras_ret e)) (filled_dq e) Ts →
  no_gap (Z.to_nat (count_cameras_ret e)) (filled_dq e) Ts →
  length Ts ≤ 100 →
  ∃ fuel,
    emitted (fst (main fuel e)) = Ts
    ∧ ∀ extra, ∃ later,
        emitted (fst (main (fuel + extra) e)) = Ts ++ later.
Proof.
  intros Hok Hmono Hu Hal Hgap Hlen.
  destruct (main_startup_ok e Hok) as [tr Hs].
  set (tr0 := tr ++ _) in Hs.
  set (n := Z.to_nat (count_cameras_ret e)) in *.
  assert (Hpos : 0 < n).
  { destruct Hok as (_ & Hc & _). unfold n. lia. }
  assert (∃ lower, ∀ T, T ∈ Ts → (lower < T)%Z) as [lower Hlow].
  { destruct Ts as [|T0 Ts']; [by exists 0%Z; intros T ?%elem_of_nil|].
    exists (T0 - 1)%Z. destruct Hal as [Hsorted _].
    apply StronglySorted_inv in Hsorted as [_ HT].
    rewrite Forall_forall in HT.
    intros T [->|HT']%elem_of_cons; [lia|].
    specialize (HT T HT'). lia. }
  destruct (rounds_emit n (filled_dq e) Hpos Hmono Hu Ts lower
              (sync_init n tr0) Hal Hlow)
    as (fuel & st & Hrun & Hcs & _).
  { apply init_wf. }
  { apply init_provenance. }
  { done. }
  { apply init_fresh. }
  { simpl. lia. }
  { simpl. lia. }
  destruct (sync_loop_exact n (filled_dq e) fuel tr0 Hpos Hmono Hu)
    as (st' & evs & Hl & Hwf & Htr & Hsorted & Hcom & Hgap' & Hcnt & _).
  rewrite Hrun in Hl. injection Hl as <-.
  assert (emitted evs = Ts) as Hem.
  { destruct Hal as [HsT HcT].
    apply (no_gap_unique n (filled_dq e)); try done.
    simpl in Hcs. lia. }
  exists fuel. split.
  - by rewrite (main_emitted_loop fuel e tr0 evs 0 st Hs Hrun Htr).
  - intros extra.
    destruct (sync_loop_extends n (filled_dq e) extra st Hwf)
      as (st2 & evs2 & Hrun2 & Htr2 & _).
    exists (emitted evs2).
    rewrite (main_emitted_loop (fuel + extra) e tr0 (evs ++ evs2) 0 st2 Hs).
    + by rewrite emitted_app, Hem.
    + rewrite <- Hrun2.
      apply (sync_loop_add n (filled_dq e) fuel extra _ st Hrun).
    + by rewrite Htr2, Htr, app_assoc.
Qed.

(** ** The start-up in closed form *)

Lemma snoc_loop_spec (g : nat → event)
    (body : nat → list event → option (list event)) (lo n : nat)
    (tr : list event) :
  (∀ j t, lo ≤ j < lo + n → body j t = Some (t ++ [g j])) →
  for_loop body lo n tr = Some (tr ++ (g <$> seq lo n)).
Proof.
  revert lo tr. induction n as [|n IH]; intros lo tr Hb; simpl.
  - by rewrite app_nil_r.
  - rewrite Hb by lia. simpl. rewrite IH by (intros j t Hj; apply Hb; lia).
    by rewrite <- app_assoc.
Qed.

Lemma prime_body_spec (ts_frame_bufs : list ts_frame_buf) (i : nat)
    (tr : list event) :
  S i * Z.to_nat FRAME_BUFS_PER_THREAD ≤ length ts_frame_bufs →
  prime_body ts_frame_bufs i tr = Some (tr ++ primed ts_frame_bufs i).
Proof.
  intros Hlen. unfold prime_body, primed. cbv zeta.
  rewrite (snoc_loop_spec
             (λ j, EvNq i (ts_frame_bufs
                             !! (i * Z.to_nat FRAME_BUFS_PER_THREAD + j)))).
  - by rewrite <- app_assoc.
  - intros j t Hj. unfold prime_slot.
    destruct (lookup_lt_is_Some_2 ts_frame_bufs
                (i * Z.to_nat FRAME_BUFS_PER_THREAD + j)) as [b Hb]; [lia|].
    by rewrite Hb.
Qed.

Lemma prime_loop_spec (ts_frame_bufs : list ts_frame_buf) (lo n : nat)
    (tr : list event) :
  (lo + n) * Z.to_nat FRAME_BUFS_PER_THREAD ≤ length ts_frame_bufs →
  for_loop (prime_body ts_frame_bufs) lo n tr
  = Some (tr ++ concat (primed ts_frame_bufs <$> seq lo n)).
Proof.
  revert lo tr. induction n as [|n IH]; intros lo tr Hlen.
  - simpl. by rewrite app_nil_r.
  - cbn [for_loop]. rewrite prime_body_spec by lia.
    cbn [mbind option_bind]. rewrite IH by lia.
    cbn [seq fmap list_fmap concat]. by rewrite <- app_assoc.
Qed.


Lemma init_frame_bufs_pool (e : env) :
  init_frame_bufs (malloc_ret e)
    (decoded_frame_buf_size (DECODED_FRAME_WIDTH e) (DECODED_FRAME_HEIGHT e))
    (frame_bufs_count (count_cameras_ret e))
    (indeterminate e
       <$> seq 0 (Z.to_nat (frame_bufs_count (count_cameras_ret e))))
  = Some (pool e).
Proof.
  unfold init_frame_bufs.
  rewrite init_frame_bufs_spec by (by rewrite length_fmap, length_seq).
  f_equal. apply list_eq. intros j. unfold pool.
  rewrite list_lookup_imap, !list_lookup_fmap.
  destruct (seq 0 _ !! j) as [k|] eqn:Hk; [|done]. simpl.
  apply lookup_seq in Hk as [-> _]. done.
Qed.

Lemma frame_bufs_count_small (c : Z) :
  (0 ≤ c)%Z → (c * FRAME_BUFS_PER_THREAD < 2 ^ 31)%Z →
  Z.to_nat (frame_bufs_count c)
  = Z.to_nat c * Z.to_nat FRAME_BUFS_PER_THREAD.
Proof.
  intros H0 Hc. unfold frame_bufs_count.
  rewrite wrap64_small by (unfold is_u64, FRAME_BUFS_PER_THREAD in *; lia).
  unfold FRAME_BUFS_PER_THREAD. lia.
Qed.

Lemma spawn_loop_spawned (create : nat → Z) (lo n : nat) (tr : list event)
    (ret : Z) :
  match spawn_loop create lo n tr ret with
  | inl (tr', r) => ∃ k, k < n ∧ tr' = tr ++ spawned lo k ∧ r ≠ 0%Z
                         ∧ r = create (lo + k)
  | inr (tr', r) => tr' = tr ++ spawned lo n
  end.
Proof.
  revert lo tr ret. induction n as [|n IH]; intros lo tr ret; simpl.
  - unfold spawned. simpl. by rewrite app_nil_r.
  - destruct (Z.eqb_spec (create lo) 0) as [Hz|Hnz]; simpl.
    + specialize (IH (S lo) (tr ++ [EvSpawn lo (lo mod 8)]) (create lo)).
      destruct (spawn_loop _ _ _ _ _) as [[tr' r]|[tr' r]].
      * destruct IH as (k & Hk & -> & Hr & Hc). exists (S k).
        split; [lia|]. split; [|split; [done|]].
        { unfold spawned. simpl. by rewrite <- app_assoc. }
        rewrite Hc. f_equal. lia.
      * rewrite IH. unfold spawned. simpl. by rewrite <- app_assoc.
    + exists 0. split; [lia|]. unfold spawned. simpl.
      rewrite app_nil_r, Nat.add_0_r. done.
Qed.

(** A start-up whose calls succeed pins [main], allocates the pool, sets
    up the queues of each camera and fills its empty queue, starts the
    workers and sends the start anchor, in this order. *)
Lemma main_startup_trace (e : env) :
  startup_ok e → main_startup e = inr (startup_trace e, 0%Z).
Proof.
  intros (Hlog & Hcams & Hfits & Hconf & Hpin & Hmem & Hspawn).
  unfold main_startup. cbv zeta. rewrite Hlog, Hconf, Z.eqb_refl. cbn [negb].
  destruct (Z.leb_spec (count_cameras_ret e) 0) as [?|_]; [lia|].
  destruct (Z.eqb_spec (sched_setaffinity_ret e) (-1)) as [?|_]; [done|].
  destruct (Z.eqb_spec (malloc_ret e) 0) as [?|_]; [done|].
  rewrite init_frame_bufs_pool.
  rewrite prime_loop_spec.
  2:{ unfold pool. rewrite length_fmap, length_seq.
      rewrite frame_bufs_count_small by (done || lia). simpl. lia. }
  rewrite spawn_loop_ok; [|lia|intros i Hi; apply Hspawn; lia].
  unfold broadcast_msg.
  rewrite take_ge by (rewrite object_bytes_length; lia).
  unfold startup_trace, spawned. cbv zeta. by rewrite <- !app_assoc.
Qed.

(** ** Reading the traces *)

Lemma forallb_elem_true {A : Type} (f : A → bool) (l : list A) (x : A) :
  forallb f l = true → x ∈ l → f x = true.
Proof.
  intros H Hx. apply list_elem_of_lookup in Hx as [i Hi].
  by apply (proj1 (forallb_lookup f l) H i).
Qed.

Lemma omap_nil_elem {A B : Type} (f : A → option B) (l : list A) :
  (∀ x, x ∈ l → f x = None) → omap f l = [].
Proof.
  induction l as [|x l IH]; intros H; [done|]. simpl.
  rewrite (H x) by (by left). apply IH. intros y Hy. apply H. by right.
Qed.

Lemma lifecycle_nil (l : list event) :
  (∀ ev, ev ∈ l → is_lifecycle ev = false) → lifecycle l = [].
Proof.
  induction l as [|x l IH]; intros H; [done|]. unfold lifecycle.
  rewrite filter_cons_False by (rewrite (H x) by (by left); done).
  apply IH. intros y Hy. apply H. by right.
Qed.

Lemma lifecycle_all (l : list event) :
  (∀ ev, ev ∈ l → is_lifecycle ev = true) → lifecycle l = l.
Proof.
  induction l as [|x l IH]; intros H; [done|]. unfold lifecycle.
  rewrite filter_cons_True by (apply H; by left).
  f_equal. apply IH. intros y Hy. apply H. by right.
Qed.

Lemma lifecycle_app (l1 l2 : list event) :
  lifecycle (l1 ++ l2) = lifecycle l1 ++ lifecycle l2.
Proof. apply filter_app. Qed.

Lemma primed_queue_events (slots : list ts_frame_buf) (l : list nat)
    (ev : event) :
  ev ∈ concat (primed slots <$> l) → is_queue_event ev = true.
Proof.
  induction l as [|i l IH]; cbn [fmap list_fmap concat];
    [by intros ?%elem_of_nil|].
  intros [Hev|Hev]%elem_of_app; [|by apply IH].
  unfold primed in Hev. cbv zeta in Hev.
  apply elem_of_app in Hev as [Hev|Hev].
  - apply elem_of_cons in Hev as [->|Hev]; [done|].
    by apply list_elem_of_singleton in Hev as ->.
  - by apply list_elem_of_fmap in Hev as (j & -> & _).
Qed.

Lemma spawned_elem (lo n : nat) (ev : event) :
  ev ∈ spawned lo n → ∃ i, ev = EvSpawn i (i mod 8) ∧ lo ≤ i < lo + n.
Proof.
  intros Hev. apply list_elem_of_fmap in Hev as (i & -> & Hi).
  apply elem_of_seq in Hi. by exists i.
Qed.

(** A trace logs no set exactly when it numbers none. *)
Lemma set_numbers_emitted (tr : list event) :
  length (set_numbers tr) = length (emitted tr).
Proof.
  induction tr as [|ev tr IH]; [done|].
  destruct ev; simpl; try done. by rewrite IH.
Qed.

Lemma set_numbers_nil (tr : list event) :
  emitted tr = [] → set_numbers tr = [].
Proof.
  intros H. apply length_zero_iff_nil.
  by rewrite set_numbers_emitted, H.
Qed.

Lemma set_numbers_app (tr1 tr2 : list event) :
  set_numbers (tr1 ++ tr2) = set_numbers tr1 ++ set_numbers tr2.
Proof. apply omap_app. Qed.

Section numbering.

Variable cam_count : nat.
Variable filled : nat → nat → option ts_frame_buf.

Lemma turn_numbered (tr0 : list event) (st st' : sync_state) :
  (complete_sets st < 100)%Z →
  numbered tr0 st →
  turn cam_count filled st st' →
  numbered tr0 st'.
Proof.
  intros Hlt (evs & Htr & Hcs & Hnum & Hev)
    [cur1 Hheld ->|m cur1 Hfull Hmax Hall ->|m cur1 Hfull Hmax Hall ->].
  - by exists evs.
  - exists (evs ++ concat (imap (recycle_event m) cur1)).
    split; [simpl; by rewrite Htr, app_assoc|]. split; [done|].
    split.
    + rewrite set_numbers_app, Hnum.
      rewrite (set_numbers_nil _ (emitted_recycle m cur1)).
      by rewrite app_nil_r.
    + by rewrite forallb_app, Hev, recycle_loop_events.
  - exists (evs ++ [EvLogSet (complete_sets st) m] ++ imap EvNq cur1).
    split; [simpl; by rewrite Htr, <- app_assoc|].
    assert (wrap32 (complete_sets st + 1) = (complete_sets st + 1)%Z)
      as Hw.
    { unfold wrap32. apply Z.mod_small. lia. }
    cbn [complete_sets]. rewrite Hw. split; [lia|]. split.
    + rewrite !set_numbers_app, Hnum.
      rewrite (set_numbers_nil _ (emitted_nq cur1)), app_nil_r.
      replace (Z.to_nat (complete_sets st + 1))
        with (S (Z.to_nat (complete_sets st))) by lia.
      rewrite seq_S, fmap_app. simpl. do 2 f_equal. lia.
    + rewrite !forallb_app, Hev, nq_loop_events. done.
Qed.

Lemma sync_loop_numbered (fuel : nat) (tr0 : list event) :
  ∃ st, sync_loop cam_count filled fuel (sync_init cam_count tr0) = Some st
      ∧ numbered tr0 st.
Proof.
  destruct (sync_loop_inv cam_count filled
    (λ st, wf_state cam_count st ∧ numbered tr0 st)) with (fuel := fuel)
    (st := sync_init cam_count tr0) as (st & Hst & _ & Hnum).
  - intros st (Hwf & Hnum) Hlt.
    destruct (iteration_turn cam_count filled st Hwf)
      as (st' & Hit & Hwf' & Ht).
    exists st'. split; [done|]. split; [done|].
    by apply (turn_numbered tr0 st).
  - split; [apply init_wf|]. exists []. simpl. rewrite app_nil_r.
    split; [done|]. split; [lia|]. done.
  - by exists st.
Qed.

End numbering.

(** X4. However long [main] runs and whatever the filled queues yield,
    the log lines for frame sets are numbered 0, 1, 2, ... without a gap
    or a repetition, and there are at most 100 of them. *)
Theorem log_lines_numbered_from_zero (fuel : nat) (e : env) :
  set_numbers (fst (main fuel e))
  = Z.of_nat <$> seq 0 (length (emitted (fst (main fuel e))))
  ∧ length (emitted (fst (main fuel e))) ≤ 100.
Proof.
  destruct (main_cases fuel e)
    as [(r & Hs & _)|(tr0 & ret & st & Hs & _ & Hl & Hm)].
  - rewrite (set_numbers_nil _ (main_emitted_failed fuel e r Hs)).
    rewrite (main_emitted_failed fuel e r Hs). simpl. split; [done | lia].
  - destruct (sync_loop_numbered (Z.to_nat (count_cameras_ret e))
                (filled_dq e) fuel tr0) as (st' & Hl' & Hnum).
    rewrite Hl in Hl'. injection Hl' as <-.
    destruct Hnum as (evs & Htr & Hcs & Hnum & _).
    pose proof (main_emitted_loop fuel e tr0 evs ret st Hs Hl Htr) as Hem.
    pose proof (main_startup_emitted e) as H0. rewrite Hs in H0.
    destruct H0 as [H0 _].
    assert (set_numbers (fst (main fuel e)) = set_numbers evs) as Hsn.
    { rewrite Hm.
      destruct (complete_sets st <? 100)%Z; simpl;
        rewrite Htr, !set_numbers_app, (set_numbers_nil tr0 H0),
          ?(set_numbers_nil _ (emitted_shutdown e)), ?app_nil_r; done. }
    pose proof (set_numbers_emitted evs) as Hlen.
    rewrite Hnum, length_fmap, length_seq in Hlen.
    rewrite Hsn, Hem, <- Hlen, Hnum. split; [done | lia].
Qed.

(** ** The paths through the start-up *)

(** Lines 22-157 with their loops in closed form. *)
Lemma main_startup_paths (e : env) :
  count_fits e →
  main_startup e
  = if negb (setup_logging_ret e =? 0)%Z
    then inl ([EvPrintf], Returned (- errno_setup_logging e))
    else if (count_cameras_ret e <=? 0)%Z
    then inl ([EvLogError ErrCameraCount; EvCleanupLogging],
              Returned (count_cameras_ret e))
    else if negb (parse_conf_ret e =? 0)%Z
    then inl ([EvLogError ErrParseConf; EvCleanupLogging],
              Returned (parse_conf_ret e))
    else if (sched_setaffinity_ret e =? -1)%Z
    then inl ([EvPin (count_cameras_ret e mod 8); EvLogError ErrPin;
               EvCleanupLogging],
              Returned (- errno_sched_setaffinity e))
    else
      let n := Z.to_nat (count_cameras_ret e) in
      let tr :=
        [EvPin (count_cameras_ret e mod 8);
         EvMalloc (frame_bufs_bytes (frame_bufs_count (count_cameras_ret e))
                     (decoded_frame_buf_size (DECODED_FRAME_WIDTH e)
                        (DECODED_FRAME_HEIGHT e)))] in
      if (malloc_ret e =? 0)%Z
      then inl (tr ++ [EvLogError ErrAlloc; EvCleanupLogging],
                Returned (- ENOMEM))
      else
        match spawn_loop (pthread_create_ret e) 0 n
                (tr ++ concat (primed (pool e) <$> seq 0 n))
                (sched_setaffinity_ret e) with
        | inl (tr, ret) =>
            inl (tr ++ [EvLogError ErrSpawn; EvFree (malloc_ret e);
                        EvCleanupLogging],
                 Returned ret)
        | inr (tr, ret) =>
            inr (tr ++ [EvBroadcast n
                          (object_bytes sizeof_uint64
                             (start_anchor (tv_sec e) (tv_nsec e)))],
                 ret)
        end.
Proof.
  intros Hfits. unfold main_startup. cbv zeta.
  destruct (negb (setup_logging_ret e =? 0)%Z); [done|].
  destruct (Z.leb_spec (count_cameras_ret e) 0) as [?|Hpos]; [done|].
  destruct (negb (parse_conf_ret e =? 0)%Z); [done|].
  destruct (sched_setaffinity_ret e =? -1)%Z; [done|].
  destruct (malloc_ret e =? 0)%Z; [done|].
  rewrite init_frame_bufs_pool.
  rewrite prime_loop_spec.
  2:{ unfold pool. rewrite length_fmap, length_seq.
      rewrite frame_bufs_count_small by (done || lia). simpl. lia. }
  unfold broadcast_msg.
  rewrite take_ge by (rewrite object_bytes_length; lia).
  done.
Qed.

(** X5. When the number of buffers fits an [int], [main] never reads
    outside its arrays or through a null pointer, whatever its calls
    return and however long it runs. *)
Theorem main_never_faults (fuel : nat) (e : env) :
  count_fits e → snd (main fuel e) ≠ Fault.
Proof.
  intros Hfits.
  destruct (main_cases fuel e)
    as [(r & Hs & ->)|(tr0 & ret & st & _ & _ & _ & ->)].
  - rewrite (main_startup_paths e Hfits) in Hs. cbv zeta in Hs.
    destruct (negb (setup_logging_ret e =? 0)%Z); [by injection Hs as <-|].
    destruct (count_cameras_ret e <=? 0)%Z; [by injection Hs as <-|].
    destruct (negb (parse_conf_ret e =? 0)%Z); [by injection Hs as <-|].
    destruct (sched_setaffinity_ret e =? -1)%Z; [by injection Hs as <-|].
    destruct (malloc_ret e =? 0)%Z; [by injection Hs as <-|].
    destruct (spawn_loop _ _ _ _ _) as [[tr r']|[tr r']];
      [by injection Hs as <-|done].
  - by destruct (complete_sets st <? 100)%Z.
Qed.


(** ** The pool, the workers and the cameras in the trace *)

Lemma omap_none_of {B : Type} (f : event → option B) (c : event → bool)
    (l : list event) :
  (∀ ev, c ev = true → f ev = None) →
  (∀ ev, ev ∈ l → c ev = true) →
  omap f l = [].
Proof. intros Hf Hl. apply omap_nil_elem. intros ev Hev. auto. Qed.

Lemma spawned_lifecycle (lo n : nat) : lifecycle (spawned lo n) = spawned lo n.
Proof.
  apply lifecycle_all. by intros ev (i & -> & _)%spawned_elem.
Qed.

Lemma primed_lifecycle (slots : list ts_frame_buf) (l : list nat) :
  lifecycle (concat (primed slots <$> l)) = [].
Proof.
  apply lifecycle_nil. intros ev Hev%primed_queue_events. by destruct ev.
Qed.

Lemma loop_lifecycle (evs : list event) :
  forallb is_loop_event evs = true → lifecycle evs = [].
Proof.
  intros H. apply lifecycle_nil. intros ev Hev.
  apply (forallb_elem_true _ _ _ H) in Hev. by destruct ev.
Qed.

Lemma joins_lifecycle (l : list nat) : lifecycle (map EvJoin l) = map EvJoin l.
Proof.
  apply lifecycle_all. intros ev Hev.
  change (map EvJoin l) with (EvJoin <$> l) in Hev.
  by apply list_elem_of_fmap in Hev as (i & -> & _).
Qed.

(** [main] after a start-up that reaches the loop: the trace of the
    start-up, what the loop has added, and the shutdown when the loop is
    over. *)
Lemma main_running (fuel : nat) (e : env) (tr0 : list event) (ret : Z) :
  main_startup e = inr (tr0, ret) →
  ∃ evs,
    forallb is_loop_event evs = true
    ∧ (main fuel e = (tr0 ++ evs, Running)
       ∨ main fuel e = (tr0 ++ evs ++ main_shutdown e, Returned ret)).
Proof.
  intros Hs. unfold main. rewrite Hs.
  destruct (sync_loop_extends (Z.to_nat (count_cameras_ret e)) (filled_dq e)
              fuel (sync_init (Z.to_nat (count_cameras_ret e)) tr0))
    as (st & evs & -> & Htr & Hev); [apply init_wf|].
  exists evs. split; [done|]. simpl in Htr.
  destruct (complete_sets st <? 100)%Z; rewrite Htr.
  - by left.
  - right. by rewrite app_assoc.
Qed.

(** X7. After a start-up whose calls succeed, the trace of [main] shows
    the workers started in order, then the start anchor sent to the
    cameras and, while the loop runs, nothing else that concerns
    workers, pool or cameras; once the loop is over it shows the stop
    message, then the join of every worker in order, then the release
    of the pool, and [main] returns 0. *)
Theorem lifecycle_of_a_clean_run (fuel : nat) (e : env) :
  startup_ok e →
  let n := Z.to_nat (count_cameras_ret e) in
  let anchor :=
    EvBroadcast n
      (object_bytes sizeof_uint64 (start_anchor (tv_sec e) (tv_nsec e))) in
  (snd (main fuel e) = Running
   ∧ lifecycle (fst (main fuel e)) = spawned 0 n ++ [anchor])
  ∨ (snd (main fuel e) = Returned 0
     ∧ lifecycle (fst (main fuel e))
       = spawned 0 n ++ [anchor]
         ++ [EvBroadcast n [83; 84; 79; 80]%Z]
         ++ map EvJoin (seq 0 n) ++ [EvFree (malloc_ret e)]).
Proof.
  intros Hok n anchor.
  pose proof (main_startup_trace e Hok) as Hs.
  assert (lifecycle (startup_trace e) = spawned 0 n ++ [anchor]) as Hst.
  { unfold startup_trace. cbv zeta. fold n. fold anchor.
    change [EvPin ?c; EvMalloc ?b] with ([EvPin c] ++ [EvMalloc b]).
    rewrite !lifecycle_app, primed_lifecycle, spawned_lifecycle. done. }
  destruct (main_running fuel e _ _ Hs) as (evs & Hev & [->| ->]).
  - left. split; [done|]. cbn [fst].
    by rewrite lifecycle_app, (loop_lifecycle evs Hev), app_nil_r.
  - right. split; [done|]. cbn [fst].
    rewrite !lifecycle_app, (loop_lifecycle evs Hev), Hst.
    rewrite main_shutdown_trace. fold n.
    change (EvBroadcast n [83; 84; 79; 80]%Z
            :: map EvJoin (seq 0 n)
               ++ [EvFree (malloc_ret e); EvCleanupLogging])
      with ([EvBroadcast n [83; 84; 79; 80]%Z]
            ++ map EvJoin (seq 0 n) ++ [EvFree (malloc_ret e)]
            ++ [EvCleanupLogging]).
    rewrite !lifecycle_app, joins_lifecycle. simpl.
    by rewrite <- !app_assoc.
Qed.

Lemma pinned_app (tr1 tr2 : list event) :
  pinned (tr1 ++ tr2) = pinned tr1 ++ pinned tr2.
Proof. apply omap_app. Qed.

Lemma worker_cores_app (tr1 tr2 : list event) :
  worker_cores (tr1 ++ tr2) = worker_cores tr1 ++ worker_cores tr2.
Proof. apply omap_app. Qed.

Lemma freed_app (tr1 tr2 : list event) :
  freed (tr1 ++ tr2) = freed tr1 ++ freed tr2.
Proof. apply omap_app. Qed.

Lemma allocated_app (tr1 tr2 : list event) :
  allocated (tr1 ++ tr2) = allocated tr1 ++ allocated tr2.
Proof. apply omap_app. Qed.

Lemma worker_cores_spawned (lo n : nat) :
  worker_cores (spawned lo n) = (λ i, i mod 8) <$> seq lo n.
Proof.
  revert lo. induction n as [|n IH]; intros lo; [done|].
  unfold spawned in *. simpl. f_equal. apply IH.
Qed.

Lemma joins_elem (l : list nat) (ev : event) :
  ev ∈ map EvJoin l → ∃ i, ev = EvJoin i.
Proof.
  change (map EvJoin l) with (EvJoin <$> l).
  intros (i & -> & _)%list_elem_of_fmap. by exists i.
Qed.

(** X8. After a start-up whose calls succeed, [main] has pinned itself
    to CPU [cam_count % 8] and has started worker [i] with core [i % 8].
    With fewer than 8 cameras no worker has the CPU of [main]; with 8 or
    more, one has. *)
Theorem main_cpu_and_worker_cores (fuel : nat) (e : env) :
  startup_ok e →
  let tr := fst (main fuel e) in
  let n := Z.to_nat (count_cameras_ret e) in
  pinned tr = [(count_cameras_ret e mod 8)%Z]
  ∧ worker_cores tr = (λ i, i mod 8) <$> seq 0 n
  ∧ ((count_cameras_ret e < 8)%Z →
     ∀ k, k ∈ worker_cores tr → Z.of_nat k ≠ (count_cameras_ret e mod 8)%Z)
  ∧ ((8 ≤ count_cameras_ret e)%Z →
     Z.to_nat (count_cameras_ret e mod 8) ∈ worker_cores tr).
Proof.
  intros Hok tr n.
  pose proof (main_startup_trace e Hok) as Hs.
  assert (Hloop : ∀ evs, forallb is_loop_event evs = true →
            pinned evs = [] ∧ worker_cores evs = []).
  { intros evs Hev. split.
    - apply (omap_none_of _ is_loop_event); [by intros []|].
      intros ev. by apply forallb_elem_true.
    - apply (omap_none_of _ is_loop_event); [by intros []|].
      intros ev. by apply forallb_elem_true. }
  assert (Hprime : pinned (concat (primed (pool e) <$> seq 0 n)) = []
            ∧ worker_cores (concat (primed (pool e) <$> seq 0 n)) = []).
  { split.
    - apply (omap_none_of _ is_queue_event); [by intros []|].
      intros ev. apply primed_queue_events.
    - apply (omap_none_of _ is_queue_event); [by intros []|].
      intros ev. apply primed_queue_events. }
  assert (Hspawn : pinned (spawned 0 n) = []).
  { apply omap_nil_elem. by intros ev (i & -> & _)%spawned_elem. }
  assert (Hjoin : pinned (map EvJoin (seq 0 n)) = []
            ∧ worker_cores (map EvJoin (seq 0 n)) = []).
  { split; apply omap_nil_elem; by intros ev [i ->]%joins_elem. }
  assert (Hstart : pinned (startup_trace e) = [(count_cameras_ret e mod 8)%Z]
            ∧ worker_cores (startup_trace e) = (λ i, i mod 8) <$> seq 0 n).
  { unfold startup_trace. cbv zeta. fold n.
    rewrite !pinned_app, !worker_cores_app, worker_cores_spawned.
    destruct Hprime as [-> ->]. rewrite Hspawn. simpl.
    by rewrite app_nil_r. }
  assert (Htr : pinned tr = [(count_cameras_ret e mod 8)%Z]
            ∧ worker_cores tr = (λ i, i mod 8) <$> seq 0 n).
  { unfold tr. destruct Hstart as [Hp Hw].
    destruct (main_running fuel e _ _ Hs) as (evs & Hev & [->| ->]);
      destruct (Hloop evs Hev) as [Hp' Hw']; cbn [fst].
    - by rewrite pinned_app, worker_cores_app, Hp, Hw, Hp', Hw', !app_nil_r.
    - unfold main_shutdown. cbv zeta. fold n.
      destruct Hjoin as [Hj1 Hj2].
      rewrite !pinned_app, !worker_cores_app, Hp, Hw, Hp', Hw', Hj1, Hj2.
      simpl. by rewrite !app_nil_r. }
  destruct Htr as [Hp Hw]. split; [done|]. split; [done|].
  destruct Hok as (_ & Hcams & _). rewrite Hw. split.
  - intros Hlt k (i & -> & Hi)%list_elem_of_fmap.
    apply elem_of_seq in Hi.
    rewrite Z.mod_small by lia. rewrite Nat.mod_small by lia. lia.
  - intros Hge. apply list_elem_of_fmap.
    exists (Z.to_nat (count_cameras_ret e mod 8)). split.
    + pose proof (Z.mod_pos_bound (count_cameras_ret e) 8 ltac:(lia)).
      rewrite Nat.mod_small by lia. done.
    + apply elem_of_seq.
      pose proof (Z.mod_pos_bound (count_cameras_ret e) 8 ltac:(lia)).
      lia.
Qed.

(** ** The empty queues at the start *)




(** ** The pool is released when it was allocated *)

Lemma pool_events_primed (slots : list ts_frame_buf) (l : list nat) :
  allocated (concat (primed slots <$> l)) = []
  ∧ freed (concat (primed slots <$> l)) = [].
Proof.
  split; (apply (omap_none_of _ is_queue_event); [by intros []|]);
    intros ev; apply primed_queue_events.
Qed.

Lemma pool_events_spawned (lo n : nat) :
  allocated (spawned lo n) = [] ∧ freed (spawned lo n) = [].
Proof.
  split; apply omap_nil_elem; by intros ev (i & -> & _)%spawned_elem.
Qed.

Lemma pool_events_loop (evs : list event) :
  forallb is_loop_event evs = true → allocated evs = [] ∧ freed evs = [].
Proof.
  intros Hev.
  split; (apply (omap_none_of _ is_loop_event); [by intros []|]);
    intros ev; by apply forallb_elem_true.
Qed.

Lemma pool_events_joins (l : list nat) :
  allocated (map EvJoin l) = [] ∧ freed (map EvJoin l) = [].
Proof.
  split; apply omap_nil_elem; by intros ev [i ->]%joins_elem.
Qed.

(** X10. When the number of buffers fits an [int], [main] calls [malloc]
    at most once, and on every path on which it returns it has released
    the pool exactly once if [malloc] was called and gave a pool, and
    has released nothing otherwise; while its loop runs it has released
    nothing. *)
Theorem pool_freed_once_when_allocated (fuel : nat) (e : env) :
  count_fits e →
  let tr := fst (main fuel e) in
  length (allocated tr) ≤ 1
  ∧ freed tr
    = match snd (main fuel e) with
      | Returned _ => if pool_live e tr then [malloc_ret e] else []
      | _ => []
      end.
Proof.
  intros Hfits tr. subst tr.
  pose proof (main_startup_paths e Hfits) as Hp. cbv zeta in Hp.
  destruct (negb (setup_logging_ret e =? 0)%Z);
    [unfold main; rewrite Hp; simpl; split; [lia | done]|].
  destruct (count_cameras_ret e <=? 0)%Z;
    [unfold main; rewrite Hp; simpl; split; [lia | done]|].
  destruct (negb (parse_conf_ret e =? 0)%Z);
    [unfold main; rewrite Hp; simpl; split; [lia | done]|].
  destruct (sched_setaffinity_ret e =? -1)%Z;
    [unfold main; rewrite Hp; simpl; split; [lia | done]|].
  destruct (malloc_ret e =? 0)%Z eqn:Hm.
  { unfold main. rewrite Hp. unfold pool_live. simpl. rewrite Hm.
    split; [lia | done]. }
  pose proof (spawn_loop_spawned (pthread_create_ret e) 0
                (Z.to_nat (count_cameras_ret e))
                ([EvPin (count_cameras_ret e mod 8);
                  EvMalloc (frame_bufs_bytes
                              (frame_bufs_count (count_cameras_ret e))
                              (decoded_frame_buf_size (DECODED_FRAME_WIDTH e)
                                 (DECODED_FRAME_HEIGHT e)))]
                 ++ concat (primed (pool e)
                              <$> seq 0 (Z.to_nat (count_cameras_ret e))))
                (sched_setaffinity_ret e)) as Hspawn.
  destruct (spawn_loop _ _ _ _ _) as [[tr' r]|[tr' r]].
  - destruct Hspawn as (k & _ & -> & _).
    unfold main. rewrite Hp. cbn [fst snd]. unfold pool_live.
    rewrite !allocated_app, !freed_app.
    destruct (pool_events_primed (pool e)
                (seq 0 (Z.to_nat (count_cameras_ret e)))) as [-> ->].
    destruct (pool_events_spawned 0 k) as [-> ->].
    simpl. rewrite Hm. simpl. split; [lia | done].
  - subst tr'.
    destruct (main_running fuel e _ _ Hp) as (evs & Hev & [->| ->]);
      cbn [fst snd]; unfold pool_live;
      rewrite ?main_shutdown_trace;
      rewrite !allocated_app, !freed_app;
      destruct (pool_events_primed (pool e)
                  (seq 0 (Z.to_nat (count_cameras_ret e)))) as [-> ->];
      destruct (pool_events_spawned 0 (Z.to_nat (count_cameras_ret e)))
        as [-> ->];
      destruct (pool_events_loop evs Hev) as [-> ->].
    + simpl. split; [lia | done].
    + change (EvBroadcast ?c ?p :: ?l) with ([EvBroadcast c p] ++ l).
      rewrite !allocated_app, !freed_app.
      destruct (pool_events_joins (seq 0 (Z.to_nat (count_cameras_ret e))))
        as [-> ->].
      simpl. rewrite Hm. simpl. split; [lia | done].
Qed.

(** ** A turn that finds a filled queue empty *)

Section empty_queue.

Variable cam_count : nat.
Variable filled : nat → nat → option ts_frame_buf.

(** X11. When the filled queue of some camera whose slot is empty yields
    nothing, the turn still asks every camera with an empty slot for a
    frame, once, and keeps what it gets and what it held for the next
    turn; it puts no handle back, logs nothing and counts nothing. *)
Theorem turn_with_an_empty_queue (st : sync_state) (i c : nat) :
  wf_state cam_count st →
  i < cam_count →
  current_frames st !! i = Some None →
  dq_calls st !! i = Some c →
  filled i c = None →
  ∃ st',
    iteration cam_count filled st = Some st'
    ∧ trace st' = trace st
    ∧ complete_sets st' = complete_sets st
    ∧ ∀ j p d, current_frames st !! j = Some p → dq_calls st !! j = Some d →
        current_frames st' !! j
          = Some (match p with Some _ => p | None => filled j d end)
        ∧ dq_calls st' !! j
          = Some (match p with Some _ => d | None => S d end).
Proof.
  intros Hwf Hi Hp Hc Hnone.
  destruct (iteration_turn cam_count filled st Hwf)
    as (st' & Hit & _ & Ht).
  exists st'. split; [done|].
  destruct (fill_lookup filled _ _ i None c Hp Hc) as [Hi1 _].
  change (fetch filled i (None, c)) with (filled i c) in Hi1.
  rewrite Hnone in Hi1.
  destruct Ht as [cur1 Hheld ->|m cur1 Hfull Hmax Hall ->
                 |m cur1 Hfull Hmax Hall ->].
  - split; [done|]. split; [done|]. intros j p d Hpj Hdj.
    cbn [current_frames dq_calls]. unfold cur1.
    destruct (fill_lookup filled _ _ j p d Hpj Hdj) as [-> ->].
    unfold fetch, bump. cbn [fst snd]. by destruct p.
  - destruct (Hfull i Hi) as [f Hf]. unfold cur1 in Hf. congruence.
  - destruct (Hfull i Hi) as [f Hf]. unfold cur1 in Hf. congruence.
Qed.

End empty_queue.

(** ** How many turns a set takes *)

Section bound.

Variable cam_count : nat.
Variable filled : nat → nat → option ts_frame_buf.

(** From a state that is not past the common timestamp [T], the loop
    logs a set within as many turns as calls and releases separate the
    slots from their frames [T], and one more. *)
Lemma round_emits_within (K : nat → nat) (T : Z) (B : nat)
    (st : sync_state) :
  0 < cam_count →
  increasing_supply cam_count filled →
  unsigned_supply cam_count filled →
  common_at cam_count filled K T →
  wf_state cam_count st →
  provenance filled st →
  not_passed cam_count filled K st →
  potential K st < B →
  (0 ≤ complete_sets st < 100)%Z →
  ∃ fuel st',
    fuel ≤ B
    ∧ sync_loop cam_count filled fuel st = Some st'
    ∧ complete_sets st' = (complete_sets st + 1)%Z.
Proof.
  intros Hpos Hmono Hu HK. revert st.
  induction B as [|B IH]; intros st Hwf Hprov Hnp HB Hcs; [lia|].
  destruct (iteration_turn cam_count filled st Hwf)
    as (st1 & Hit & Hwf1 & Ht).
  pose proof (turn_provenance cam_count filled st st1 Hprov Ht) as Hprov1.
  assert (Hstep : ∀ fuel, sync_loop cam_count filled (S fuel) st
                          = sync_loop cam_count filled fuel st1).
  { intros fuel. simpl.
    destruct (Z.ltb_spec (complete_sets st) 100) as [_|?]; [|lia].
    by rewrite Hit. }
  destruct Ht as [cur1 Hheld Hst1|m cur1 Hfull Hmax Hall Hst1
                 |m cur1 Hfull Hmax Hall Hst1].
  - destruct (IH st1) as (fuel & st' & Hle & Hrun & Hcs');
      [done | done | | | |].
    + rewrite Hst1. by apply (after_fill_not_passed cam_count filled K T).
    + pose proof (incomplete_potential cam_count filled K T HK st
                    Hwf Hnp Hheld) as Hlt.
      rewrite Hst1. eapply Nat.lt_le_trans; [exact Hlt | lia].
    + by rewrite Hst1.
    + exists (S fuel), st'. rewrite Hstep. split; [lia|]. split; [done|].
      rewrite Hcs', Hst1. done.
  - destruct (IH st1) as (fuel & st' & Hle & Hrun & Hcs');
      [done | done | | | |].
    + rewrite Hst1.
      by apply (recycle_not_passed cam_count filled Hpos Hmono Hu K T HK
                  st m _ _ Hwf Hprov Hnp Hfull Hmax).
    + pose proof (recycle_potential cam_count filled Hpos Hmono Hu K T HK
                    st m
                    (complete_sets st)
                    (trace st ++ concat (imap (recycle_event m) cur1))
                    Hwf Hnp Hfull Hall) as Hlt.
      rewrite Hst1. eapply Nat.lt_le_trans; [exact Hlt | lia].
    + by rewrite Hst1.
    + exists (S fuel), st'. rewrite Hstep. split; [lia|]. split; [done|].
      rewrite Hcs', Hst1. done.
  - exists 1, st1. rewrite Hstep. split; [lia|]. split; [done|].
    rewrite Hst1. cbn [complete_sets]. unfold wrap32.
    apply Z.mod_small. lia.
Qed.

Lemma init_potential (K : nat → nat) (tr : list event) :
  potential K (sync_init cam_count tr)
  = 2 * sum_list ((λ i, S (K i)) <$> seq 0 cam_count).
Proof.
  unfold potential, sync_init. cbn [current_frames dq_calls].
  assert (∀ lo n,
    sum_list (imap (λ i, slot_potential K (lo + i))
                (zip (replicate n (@None ts_frame_buf)) (replicate n 0)))
    = 2 * sum_list ((λ i, S (K i)) <$> seq lo n)) as H.
  { intros lo n. revert lo. induction n as [|n IH]; intros lo; [done|].
    cbn [replicate zip zip_with imap seq fmap list_fmap sum_list_with sum_list].
    rewrite (imap_ext _ (λ i, slot_potential K (S lo + i)))
      by (intros i x _; simpl; f_equal; lia).
    change (list_fmap nat nat (λ i, S (K i)) (seq (S lo) n))
      with ((λ i, S (K i)) <$> seq (S lo) n).
    rewrite IH. unfold slot_potential. cbn [fst snd held].
    unfold id. replace (lo + 0) with lo by lia. lia. }
  apply (H 0).
Qed.

End bound.

(** X12. When the start-up succeeds, each camera's filled queue yields
    strictly increasing unsigned timestamps, and call number [K i] on
    the filled queue of camera [i] yields a frame with timestamp [T]
    for every camera, then [main] logs its first set within
    [1 + 2 * ((K 0 + 1) + ... + (K (n-1) + 1))] turns of its loop, and
    the timestamp of this set is not above [T]. *)
Theorem first_set_within_bound (e : env) (K : nat → nat) (T : Z) :
  startup_ok e →
  increasing_supply (Z.to_nat (count_cameras_ret e)) (filled_dq e) →
  unsigned_supply (Z.to_nat (count_cameras_ret e)) (filled_dq e) →
  common_at (Z.to_nat (count_cameras_ret e)) (filled_dq e) K T →
  ∃ fuel t,
    fuel ≤ 1 + 2 * sum_list ((λ i, S (K i))
                               <$> seq 0 (Z.to_nat (count_cameras_ret e)))
    ∧ emitted (fst (main fuel e)) = [t]
    ∧ (t ≤ T)%Z.
Proof.
  intros Hok Hmono Hu HK.
  pose proof (main_startup_trace e Hok) as Hs.
  set (n := Z.to_nat (count_cameras_ret e)) in *.
  assert (Hpos : 0 < n).
  { destruct Hok as (_ & Hc & _). unfold n. lia. }
  destruct (round_emits_within n (filled_dq e) K T
              (S (potential K (sync_init n (startup_trace e))))
              (sync_init n (startup_trace e)) Hpos Hmono Hu HK)
    as (fuel & st & Hle & Hrun & Hcs).
  { apply init_wf. }
  { apply init_provenance. }
  { apply (init_fresh n (filled_dq e) (T - 1) (startup_trace e) K T);
      [lia | done]. }
  { lia. }
  { simpl. lia. }
  rewrite init_potential in Hle. simpl in Hcs.
  destruct (sync_loop_exact n (filled_dq e) fuel (startup_trace e)
              Hpos Hmono Hu)
    as (st' & evs & Hl & _ & Htr & _ & _ & Hgap & Hcnt & _).
  rewrite Hrun in Hl. injection Hl as <-.
  destruct (emitted evs) as [|t [|t' ts]] eqn:Hem; simpl in Hcnt; try lia.
  exists fuel, t. split; [lia|]. split.
  - by rewrite (main_emitted_loop fuel e _ evs 0 st Hs Hrun Htr).
  - destruct (Z.le_gt_cases t T) as [?|Hgt]; [done|].
    assert (T ∈ [t]) as HT.
    { apply (Hgap T t); [|by left|lia].
      intros i Hi. destruct (HK i Hi) as (f & Hf & HfT).
      by exists (K i), f. }
    apply list_elem_of_singleton in HT. lia.
Qed.

(** ** A worker that does not start *)

Lemma spawn_loop_fails (create : nat → Z) (k lo n : nat) (tr : list event)
    (ret : Z) :
  k < n →
  (∀ i, lo ≤ i < lo + k → create i = 0%Z) →
  create (lo + k) ≠ 0%Z →
  spawn_loop create lo n tr ret = inl (tr ++ spawned lo k, create (lo + k)).
Proof.
  revert lo n tr ret. induction k as [|k IH]; intros lo n tr ret Hk Hok Hbad.
  - destruct n as [|n]; [lia|]. rewrite Nat.add_0_r in *. simpl.
    destruct (Z.eqb_spec (create lo) 0) as [?|_]; [done|]. simpl.
    unfold spawned. simpl. by rewrite app_nil_r.
  - destruct n as [|n]; [lia|]. simpl.
    rewrite (Hok lo) by lia. simpl.
    rewrite (IH (S lo) n); [|lia|intros i Hi; apply Hok; lia|].
    + unfold spawned. simpl. rewrite <- app_assoc.
      do 2 f_equal. f_equal. lia.
    + by replace (S lo + k) with (lo + S k) by lia.
Qed.

(** X13. When every call before the workers are started succeeds and
    [pthread_create] fails for worker [k], [main] has started exactly
    the workers before [k], joins none of them, sends nothing to the
    cameras, releases the pool, and returns what [pthread_create]
    returned, which is not 0. *)
Theorem spawn_failure_at_any_worker (fuel : nat) (e : env) (k : nat) :
  spawn_fails_at e k →
  snd (main fuel e) = Returned (pthread_create_ret e k)
  ∧ pthread_create_ret e k ≠ 0%Z
  ∧ lifecycle (fst (main fuel e))
    = spawned 0 k ++ [EvFree (malloc_ret e)].
Proof.
  intros (Hlog & Hcams & Hfits & Hconf & Hpin & Hmem & Hk & Hok & Hbad).
  unfold main. rewrite (main_startup_paths e Hfits). cbv zeta.
  rewrite Hlog, Hconf, Z.eqb_refl. cbn [negb].
  destruct (Z.leb_spec (count_cameras_ret e) 0) as [?|_]; [lia|].
  destruct (Z.eqb_spec (sched_setaffinity_ret e) (-1)) as [?|_]; [done|].
  destruct (Z.eqb_spec (malloc_ret e) 0) as [?|_]; [done|].
  rewrite (spawn_loop_fails _ k) by (done || intros i Hi; apply Hok; lia).
  cbn [fst snd Nat.add]. split; [done|]. split; [done|].
  change [EvPin ?c; EvMalloc ?b] with ([EvPin c] ++ [EvMalloc b]).
  change [EvLogError ErrSpawn; EvFree ?p; EvCleanupLogging]
    with ([EvLogError ErrSpawn] ++ [EvFree p] ++ [EvCleanupLogging]).
  rewrite !lifecycle_app, primed_lifecycle, spawned_lifecycle. done.
Qed.

(** ** The log is closed on the way out *)

Lemma cleanups_app (tr1 tr2 : list event) :
  cleanups (tr1 ++ tr2) = cleanups tr1 + cleanups tr2.
Proof. unfold cleanups. by rewrite filter_app, length_app. Qed.

Lemma cleanups_none (l : list event) :
  (∀ ev, ev ∈ l → ev ≠ EvCleanupLogging) → cleanups l = 0.
Proof.
  induction l as [|x l IH]; intros H; [done|]. unfold cleanups.
  rewrite filter_cons_False by (apply H; by left).
  apply IH. intros y Hy. apply H. by right.
Qed.

Lemma cleanups_primed (slots : list ts_frame_buf) (l : list nat) :
  cleanups (concat (primed slots <$> l)) = 0.
Proof.
  apply cleanups_none. intros ev Hev%primed_queue_events. by destruct ev.
Qed.

Lemma cleanups_spawned (lo n : nat) : cleanups (spawned lo n) = 0.
Proof.
  apply cleanups_none. by intros ev (i & -> & _)%spawned_elem.
Qed.

Lemma cleanups_loop (evs : list event) :
  forallb is_loop_event evs = true → cleanups evs = 0.
Proof.
  intros H. apply cleanups_none. intros ev Hev.
  apply (forallb_elem_true _ _ _ H) in Hev. by destruct ev.
Qed.

Lemma cleanups_joins (l : list nat) : cleanups (map EvJoin l) = 0.
Proof. apply cleanups_none. by intros ev [i ->]%joins_elem. Qed.

(** X14. When the number of buffers fits an [int], on every path on
    which [main] returns after the log was set up it has called
    [cleanup_logging] exactly once, as the last thing it did; when the
    log could not be set up it has only printed a message. *)
Theorem log_closed_once_on_return (fuel : nat) (e : env) (ret : Z) :
  count_fits e →
  snd (main fuel e) = Returned ret →
  (setup_logging_ret e ≠ 0%Z ∧ fst (main fuel e) = [EvPrintf])
  ∨ (setup_logging_ret e = 0%Z
     ∧ cleanups (fst (main fuel e)) = 1
     ∧ last (fst (main fuel e)) = Some EvCleanupLogging).
Proof.
  intros Hfits.
  pose proof (main_startup_paths e Hfits) as Hp. cbv zeta in Hp.
  destruct (Z.eqb_spec (setup_logging_ret e) 0) as [Hlog|Hlog];
    cbn [negb] in Hp; [|unfold main; rewrite Hp; by left].
  intros Hret. right. split; [done|]. revert Hret.
  destruct (count_cameras_ret e <=? 0)%Z;
    [unfold main; rewrite Hp; done|].
  destruct (negb (parse_conf_ret e =? 0)%Z);
    [unfold main; rewrite Hp; done|].
  destruct (sched_setaffinity_ret e =? -1)%Z;
    [unfold main; rewrite Hp; done|].
  destruct (malloc_ret e =? 0)%Z; [unfold main; rewrite Hp; done|].
  pose proof (spawn_loop_spawned (pthread_create_ret e) 0
                (Z.to_nat (count_cameras_ret e))
                ([EvPin (count_cameras_ret e mod 8);
                  EvMalloc (frame_bufs_bytes
                              (frame_bufs_count (count_cameras_ret e))
                              (decoded_frame_buf_size (DECODED_FRAME_WIDTH e)
                                 (DECODED_FRAME_HEIGHT e)))]
                 ++ concat (primed (pool e)
                              <$> seq 0 (Z.to_nat (count_cameras_ret e))))
                (sched_setaffinity_ret e)) as Hspawn.
  destruct (spawn_loop _ _ _ _ _) as [[tr' r]|[tr' r]].
  - destruct Hspawn as (k & _ & -> & _).
    unfold main. rewrite Hp. cbn [fst snd]. intros _.
    change [EvLogError ErrSpawn; EvFree ?p; EvCleanupLogging]
      with ([EvLogError ErrSpawn; EvFree p] ++ [EvCleanupLogging]).
    split; [|rewrite !app_assoc; apply last_snoc].
    rewrite !cleanups_app, cleanups_primed, cleanups_spawned. done.
  - subst tr'.
    destruct (main_running fuel e _ _ Hp) as (evs & Hev & [->| ->]);
      cbn [fst snd]; [done|]. intros _.
    unfold main_shutdown. cbv zeta.
    change [EvFree ?p; EvCleanupLogging]
      with ([EvFree p] ++ [EvCleanupLogging]).
    split; [|rewrite !app_assoc; apply last_snoc].
    rewrite !cleanups_app, cleanups_primed, cleanups_spawned,
      (cleanups_loop evs Hev), cleanups_joins.
    done.
Qed.

(** ** How many turns a common timestamp takes *)

Lemma fmap_const_replicate {A B : Type} (x : B) (l : list A) :
  (λ _, x) <$> l = replicate (length l) x.
Proof. induction l as [|a l IH]; [done|]. simpl. f_equal. apply IH. Qed.

Section target_bound.

Variable cam_count : nat.
Variable filled : nat → nat → option ts_frame_buf.

(** The turn that logs a set brings every slot nearer to its frame
    [T]. *)
Lemma emit_potential (K : nat → nat) (T : Z) (st : sync_state) (cs : Z)
    (tr : list event) :
  0 < cam_count →
  common_at cam_count filled K T →
  wf_state cam_count st →
  not_passed cam_count filled K st →
  full_set_of cam_count (current_frames (after_fill filled st)) →
  potential K
    (SyncState (replicate cam_count None) (dq_calls (after_fill filled st))
       cs tr)
  < potential K st.
Proof.
  intros Hpos HK Hwf Hnp Hfull. unfold potential.
  cbn [current_frames dq_calls after_fill].
  assert (Hlen : length (imap (fetch filled)
                           (zip (current_frames st) (dq_calls st)))
                 = cam_count).
  { destruct Hwf as [Hc Hd].
    rewrite length_imap, length_zip_with. lia. }
  rewrite <- Hlen, <- (fmap_const_replicate (@None ts_frame_buf)).
  rewrite zip_fmap_imap_fmap, imap_imap.
  destruct (wf_lookup cam_count st 0 Hwf Hpos) as (p & c & Hp & Hc).
  assert (Hz : zip (current_frames st) (dq_calls st) !! 0 = Some (p, c)).
  { rewrite lookup_zip_with, Hp. simpl. by rewrite Hc. }
  assert (Hstep : ∀ i q d,
    zip (current_frames st) (dq_calls st) !! i = Some (q, d) →
    slot_potential K i (None, bump (q, d)) < slot_potential K i (q, d)).
  { intros i q d Hi.
    destruct (zip_lookup_not_passed cam_count filled K st i q d Hwf Hnp Hi)
      as [Hin Hq].
    destruct (fill_slot_potential cam_count filled K T HK i q d Hq Hin)
      as [Hle Hlt].
    destruct (Hfull i Hin) as [g Hg].
    cbn [current_frames after_fill] in Hg.
    rewrite list_lookup_imap, Hi in Hg. simpl in Hg.
    injection Hg as Hg. rewrite Hg in Hle, Hlt.
    unfold slot_potential in *. cbn [fst snd held] in *.
    destruct q as [q|]; [cbn [fst snd held bump] in *; lia|].
    specialize (Hlt eq_refl). lia. }
  apply (sum_imap_lt _ _ _ 0 (p, c)); [|done|by apply Hstep].
  intros i [q d] Hi. apply Nat.lt_le_incl. by apply Hstep.
Qed.

(** The sets logged before a common timestamp [T] of [Ts] are fewer than
    the timestamps of [Ts]. *)
Lemma before_target_count (T : Z) (Ts l : list Z) :
  StronglySorted Z.lt l →
  (∀ t, t ∈ l → common_timestamp cam_count filled t) →
  no_gap cam_count filled l →
  ¬ (T ∈ l) →
  aligned_supply cam_count filled Ts →
  no_gap cam_count filled Ts →
  T ∈ Ts →
  length l < length Ts.
Proof.
  intros Hs Hcom Hgap HT [HsT HcT] HgapT HTs.
  assert (T :: l ⊆+ Ts) as Hm.
  { apply NoDup_submseteq.
    - constructor; [done|]. by apply StronglySorted_lt_NoDup.
    - intros t [->|Ht]%elem_of_cons; [done|].
      apply (HgapT t T); [by apply Hcom | done |].
      destruct (Z.le_gt_cases T t) as [Hle|?]; [|lia].
      destruct HT. apply (Hgap T t); [by apply HcT | done | done]. }
  apply submseteq_length in Hm. simpl in Hm. lia.
Qed.

(** From a state that is not past a common timestamp [T] of [Ts] and has
    not logged it, the loop logs [T] within as many turns as calls and
    releases separate the slots from their frames [T], and one more. *)
Lemma target_logged_within (K : nat → nat) (T : Z) (Ts : list Z)
    (tr0 : list event) (B : nat) (st : sync_state) (evs : list event) :
  0 < cam_count →
  increasing_supply cam_count filled →
  unsigned_supply cam_count filled →
  common_at cam_count filled K T →
  aligned_supply cam_count filled Ts →
  no_gap cam_count filled Ts →
  length Ts ≤ 100 →
  T ∈ Ts →
  wf_state cam_count st →
  provenance filled st →
  above_emitted filled tr0 st →
  sound cam_count filled tr0 st →
  exact cam_count filled tr0 st →
  accounted cam_count filled tr0 st →
  (0 ≤ complete_sets st)%Z →
  not_passed cam_count filled K st →
  trace st = tr0 ++ evs →
  ¬ (T ∈ emitted evs) →
  potential K st < B →
  ∃ fuel st' evs',
    fuel ≤ B
    ∧ sync_loop cam_count filled fuel st = Some st'
    ∧ trace st' = tr0 ++ evs'
    ∧ T ∈ emitted evs'.
Proof.
  intros Hpos Hmono Hu HK Hal HgapT Hlen HTs. revert st evs.
  induction B as [|B IH];
    intros st evs Hwf Hprov Hab Hso Hex Hacc H0 Hnp Htr HT HB; [lia|].
  assert (Hcs : (complete_sets st < 100)%Z).
  { destruct Hab as (evs1 & Htr1 & Hsorted & _).
    destruct Hso as (evs2 & Htr2 & Hcom).
    destruct Hex as (evs3 & Htr3 & Hgap & _).
    destruct Hacc as (evs4 & Htr4 & Hcnt & _).
    rewrite Htr in Htr1, Htr2, Htr3, Htr4.
    apply app_inv_head in Htr1, Htr2, Htr3, Htr4. subst evs1 evs2 evs3 evs4.
    pose proof (before_target_count T Ts (emitted evs) Hsorted Hcom Hgap
                  HT Hal HgapT HTs).
    lia. }
  destruct (iteration_turn cam_count filled st Hwf)
    as (st1 & Hit & Hwf1 & Ht).
  pose proof (turn_provenance cam_count filled st st1 Hprov Ht) as Hprov1.
  pose proof (turn_above_emitted cam_count filled Hpos Hmono tr0 st st1
                Hwf Hprov Hab Ht) as Hab1.
  pose proof (turn_sound cam_count filled tr0 st st1 Hprov Hso Ht) as Hso1.
  pose proof (turn_exact cam_count filled tr0 st st1 Hpos Hmono Hu Hwf
                Hprov Hab Hex Ht) as Hex1.
  pose proof (turn_accounted cam_count filled tr0 st st1 ltac:(lia) Hacc
                Ht) as Hacc1.
  assert (H01 : (0 ≤ complete_sets st1)%Z).
  { destruct Hacc1 as (evs1 & _ & <- & _). lia. }
  assert (Hstep : ∀ fuel, sync_loop cam_count filled (S fuel) st
                          = sync_loop cam_count filled fuel st1).
  { intros fuel. simpl.
    destruct (Z.ltb_spec (complete_sets st) 100) as [_|?]; [|lia].
    by rewrite Hit. }
  assert (Hnext : ∀ evs1,
    not_passed cam_count filled K st1 →
    trace st1 = tr0 ++ evs1 →
    ¬ (T ∈ emitted evs1) →
    potential K st1 < potential K st →
    ∃ fuel st' evs',
      fuel ≤ S B
      ∧ sync_loop cam_count filled fuel st = Some st'
      ∧ trace st' = tr0 ++ evs'
      ∧ T ∈ emitted evs').
  { intros evs1 Hnp1 Htr1 HT1 Hlt.
    destruct (IH st1 evs1 Hwf1 Hprov1 Hab1 Hso1 Hex1 Hacc1 H01 Hnp1 Htr1
                HT1 ltac:(lia))
      as (fuel & st' & evs' & Hle & Hrun & Htr' & HT').
    exists (S fuel), st', evs'. rewrite Hstep. split; [lia|]. done. }
  destruct Ht as [cur1 Hheld Hst1|m cur1 Hfull Hmax Hall Hst1
                 |m cur1 Hfull Hmax Hall Hst1].
  - apply (Hnext evs).
    + rewrite Hst1. by apply (after_fill_not_passed cam_count filled K T).
    + by rewrite Hst1.
    + done.
    + rewrite Hst1.
      apply (incomplete_potential cam_count filled K T HK st Hwf Hnp Hheld).
  - apply (Hnext (evs ++ concat (imap (recycle_event m) cur1))).
    + rewrite Hst1.
      by apply (recycle_not_passed cam_count filled Hpos Hmono Hu K T HK
                  st m _ _ Hwf Hprov Hnp Hfull Hmax).
    + rewrite Hst1. simpl. by rewrite Htr, app_assoc.
    + by rewrite emitted_app, emitted_recycle, app_nil_r.
    + rewrite Hst1.
      apply (recycle_potential cam_count filled Hpos Hmono Hu K T HK st m
               _ _ Hwf Hnp Hfull Hall).
  - pose proof (max_le_target cam_count filled K T HK Hmono Hu Hpos
                  st m Hwf Hprov Hnp Hfull Hmax) as Hle.
    assert (Htr1 : trace st1
                   = tr0 ++ evs ++ [EvLogSet (complete_sets st) m]
                         ++ imap EvNq cur1).
    { rewrite Hst1. simpl. by rewrite Htr, <- app_assoc. }
    assert (Hem1 : emitted (evs ++ [EvLogSet (complete_sets st) m]
                                ++ imap EvNq cur1)
                   = emitted evs ++ [m]).
    { rewrite !emitted_app, emitted_nq, app_nil_r. done. }
    destruct (decide (m = T)) as [->|Hne].
    + exists 1, st1, (evs ++ [EvLogSet (complete_sets st) T]
                          ++ imap EvNq cur1).
      rewrite Hstep. split; [lia|]. split; [done|]. split; [done|].
      rewrite Hem1. apply elem_of_app. right. by left.
    + apply (Hnext (evs ++ [EvLogSet (complete_sets st) m]
                        ++ imap EvNq cur1)).
      * rewrite Hst1.
        apply (emit_fresh cam_count filled Hpos Hmono st m _ _ Hprov Hfull
                 Hall K T); [lia | done].
      * done.
      * rewrite Hem1. intros [?|Hin]%elem_of_app; [done|].
        apply list_elem_of_singleton in Hin. done.
      * rewrite Hst1.
        apply (emit_potential K T st _ _ Hpos HK Hwf Hnp Hfull).
Qed.

End target_bound.

(** X22. When the start-up succeeds, each camera's filled queue yields
    strictly increasing unsigned timestamps, [Ts] lists in increasing
    order the first common timestamps of the queues (at most 100, none
    left out), and call number [K i] on the filled queue of camera [i]
    yields the frame with the timestamp [T] of [Ts], then [main] has
    logged the set with timestamp [T] within
    [1 + 2 * ((K 0 + 1) + ... + (K (n-1) + 1))] turns of its loop. *)
Theorem common_timestamp_logged_within (e : env) (K : nat → nat) (T : Z)
    (Ts : list Z) :
  startup_ok e →
  increasing_supply (Z.to_nat (count_cameras_ret e)) (filled_dq e) →
  unsigned_supply (Z.to_nat (count_cameras_ret e)) (filled_dq e) →
  aligned_supply (Z.to_nat (count_cameras_ret e)) (filled_dq e) Ts →
  no_gap (Z.to_nat (count_cameras_ret e)) (filled_dq e) Ts →
  length Ts ≤ 100 →
  T ∈ Ts →
  common_at (Z.to_nat (count_cameras_ret e)) (filled_dq e) K T →
  ∃ fuel,
    fuel ≤ 1 + 2 * sum_list ((λ i, S (K i))
                               <$> seq 0 (Z.to_nat (count_cameras_ret e)))
    ∧ T ∈ emitted (fst (main fuel e)).
Proof.
  intros Hok Hmono Hu Hal Hgap Hlen HT HK.
  pose proof (main_startup_trace e Hok) as Hs.
  set (n := Z.to_nat (count_cameras_ret e)) in *.
  assert (Hpos : 0 < n).
  { destruct Hok as (_ & Hc & _). unfold n. lia. }
  destruct (target_logged_within n (filled_dq e) K T Ts (startup_trace e)
              (S (potential K (sync_init n (startup_trace e))))
              (sync_init n (startup_trace e)) []
              Hpos Hmono Hu HK Hal Hgap Hlen HT)
    as (fuel & st & evs & Hle & Hrun & Htr & Hin).
  { apply init_wf. }
  { apply init_provenance. }
  { exists []. simpl. rewrite app_nil_r. split; [done|].
    split; [constructor|]. by intros x ?%elem_of_nil. }
  { apply init_sound. }
  { apply init_exact. }
  { apply init_accounted. }
  { simpl. lia. }
  { apply (init_fresh n (filled_dq e) (T - 1) (startup_trace e) K T);
      [lia | done]. }
  { simpl. by rewrite app_nil_r. }
  { simpl. by intros ?%elem_of_nil. }
  { lia. }
  rewrite init_potential in Hle.
  exists fuel. split; [lia|].
  by rewrite (main_emitted_loop fuel e _ evs 0 st Hs Hrun Htr).
Qed.

(** * Properties of the camera handler *)

Lemma wrap64_succ (c : Z) (j : nat) :
  wrap64 (wrap64 (c + 1) + Z.of_nat j) = wrap64 (c + Z.of_nat (S j)).
Proof.
  unfold wrap64. rewrite Zplus_mod_idemp_l. f_equal. lia.
Qed.

(** ** The loop over the buffers of the stream *)

Section request_loop.

Variable e : cam_env.
Variable h : camera_handler_t.

(** A pass through the body that throws nothing has made a request for
    the buffer and has mapped the buffer. *)
Lemma request_loop_body_done (k : nat) (planes : list plane) (c : Z)
    (reqs : list request) (maps : list Z) (tr tr' : list cam_event)
    (s' : Z * list request * list Z) :
  request_loop_body e h k planes (c, reqs, maps) tr = (tr', Done s') →
  ∃ y_plane,
    planes !! 0 = Some y_plane
    ∧ mmap_ret e k ≠ MAP_FAILED
    ∧ s' = (wrap64 (c + 1), reqs ++ [Request c k], maps ++ [mmap_ret e k])
    ∧ tr' = tr ++ [CamCreateRequest c; CamAddBuffer c k;
                   CamMmap (frame_bytes_ h) (plane_fd y_plane)
                     (plane_offset y_plane) (mmap_ret e k)].
Proof.
  unfold request_loop_body, cam_bind, emit, log_and_throw, undefined,
    cam_ret.
  destruct (createRequest_ret e k); cbn [negb]; [|discriminate].
  destruct (addBuffer_ret e k <? 0)%Z; [discriminate|].
  destruct (planes !! 0) as [y_plane|]; [|discriminate].
  destruct (planes !! 1) as [u_plane|]; [|discriminate].
  destruct (planes !! 2) as [v_plane|]; [|discriminate].
  destruct (_ || _); [discriminate|].
  destruct (Z.eqb_spec (mmap_ret e k) MAP_FAILED) as [?|Hmap];
    [discriminate|].
  intros [= <- <-]. exists y_plane.
  split; [done|]. split; [done|]. split; [done|].
  by rewrite <- !app_assoc.
Qed.

(** Whatever way a pass through the body ends, it unmaps nothing. *)
Lemma request_loop_body_unmapped (k : nat) (planes : list plane)
    (s : Z * list request * list Z) (tr : list cam_event) :
  ∃ evs, fst (request_loop_body e h k planes s tr) = tr ++ evs
       ∧ forallb (λ ev, negb (is_munmap ev)) evs = true.
Proof.
  destruct s as [[c reqs] maps].
  unfold request_loop_body, cam_bind, emit, log_and_throw, undefined,
    cam_ret.
  destruct (createRequest_ret e k); cbn [negb fst];
    [|by eexists; rewrite <- app_assoc].
  destruct (addBuffer_ret e k <? 0)%Z; cbn [fst];
    [by eexists; rewrite <- !app_assoc|].
  destruct (planes !! 0) as [y_plane|]; cbn [fst];
    [|by eexists; rewrite <- !app_assoc].
  destruct (planes !! 1) as [u_plane|]; cbn [fst];
    [|by eexists; rewrite <- !app_assoc].
  destruct (planes !! 2) as [v_plane|]; cbn [fst];
    [|by eexists; rewrite <- !app_assoc].
  destruct (_ || _); cbn [fst]; [by eexists; rewrite <- !app_assoc|].
  destruct (mmap_ret e k =? MAP_FAILED)%Z; cbn [fst];
    by eexists; rewrite <- !app_assoc.
Qed.

Lemma request_loop_unmapped (bufs : list (list plane)) (k : nat)
    (s : Z * list request * list Z) (tr : list cam_event) :
  ∃ evs, fst (for_each (request_loop_body e h) k bufs s tr) = tr ++ evs
       ∧ forallb (λ ev, negb (is_munmap ev)) evs = true.
Proof.
  revert k s tr. induction bufs as [|planes bufs IH]; intros k s tr.
  - exists []. by rewrite app_nil_r.
  - cbn [for_each]. unfold cam_bind at 1.
    destruct (request_loop_body_unmapped k planes s tr)
      as (evs & Htr & Hev).
    destruct (request_loop_body e h k planes s tr) as [tr1 [s1| |]];
      cbn [fst] in Htr; subst tr1; [|by exists evs..].
    destruct (IH (S k) s1 (tr ++ evs)) as (evs' & -> & Hev').
    exists (evs ++ evs'). split; [by rewrite app_assoc|].
    by rewrite forallb_app, Hev, Hev'.
Qed.

Lemma mapped_app (tr1 tr2 : list cam_event) :
  mapped (tr1 ++ tr2) = mapped tr1 ++ mapped tr2.
Proof. apply omap_app. Qed.

Lemma unmapped_app (tr1 tr2 : list cam_event) :
  unmapped (tr1 ++ tr2) = unmapped tr1 ++ unmapped tr2.
Proof. apply omap_app. Qed.

Lemma seq_shift_fmap {A : Type} (f g : nat → A) (n : nat) :
  (∀ j, f (S j) = g j) → f <$> seq 1 n = g <$> seq 0 n.
Proof.
  intros H. rewrite <- fmap_S_seq, <- list_fmap_compose.
  apply list_fmap_ext. intros i j _. apply H.
Qed.

(** A loop that throws nothing has made one request per buffer, with
    the cookies counting up, and one mapping per buffer, of
    [frame_bytes_] bytes at the first plane of the buffer. *)
Lemma request_loop_done (bufs : list (list plane)) (k : nat) (c : Z)
    (reqs : list request) (maps : list Z) (tr tr' : list cam_event)
    (s' : Z * list request * list Z) :
  is_u64 c →
  for_each (request_loop_body e h) k bufs (c, reqs, maps) tr
  = (tr', Done s') →
  s' = (wrap64 (c + Z.of_nat (length bufs)),
        reqs ++ ((λ j, Request (wrap64 (c + Z.of_nat j)) (k + j))
                   <$> seq 0 (length bufs)),
        maps ++ ((λ j, mmap_ret e (k + j)) <$> seq 0 (length bufs)))
  ∧ mapped tr'
    = mapped tr ++ ((λ j, (mmap_ret e (k + j), frame_bytes_ h))
                      <$> seq 0 (length bufs))
  ∧ (∀ j planes, bufs !! j = Some planes →
       ∃ y_plane,
         planes !! 0 = Some y_plane
         ∧ mmap_ret e (k + j) ≠ MAP_FAILED
         ∧ CamAddBuffer (wrap64 (c + Z.of_nat j)) (k + j) ∈ tr'
         ∧ CamMmap (frame_bytes_ h) (plane_fd y_plane)
             (plane_offset y_plane) (mmap_ret e (k + j)) ∈ tr')
  ∧ ∃ evs, tr' = tr ++ evs.
Proof.
  revert k c reqs maps tr.
  induction bufs as [|planes bufs IH]; intros k c reqs maps tr Hc.
  - intros [= <- <-]. cbn [length seq fmap list_fmap].
    rewrite Z.add_0_r, wrap64_small, !app_nil_r by done.
    split; [done|]. split; [done|]. split; [done|].
    exists []. by rewrite app_nil_r.
  - cbn [for_each]. unfold cam_bind at 1.
    destruct (request_loop_body e h k planes (c, reqs, maps) tr)
      as [tr1 [s1| |]] eqn:Hbody; [|discriminate..].
    apply request_loop_body_done in Hbody
      as (y_plane & Hy & Hmap & -> & ->).
    intros Hloop.
    apply IH in Hloop as (-> & Hmapped & Hplanes & evs & ->);
      [|apply wrap64_range].
    split; [|split; [|split]].
    + cbn [length seq fmap list_fmap].
      rewrite Z.add_0_r, (wrap64_small c), Nat.add_0_r by done.
      rewrite <- !app_assoc. cbn [app].
      rewrite (seq_shift_fmap
                 (λ j, Request (wrap64 (c + Z.of_nat j)) (k + j))
                 (λ j, Request (wrap64 (wrap64 (c + 1) + Z.of_nat j))
                         (S k + j)))
        by (intros j; rewrite wrap64_succ; f_equal; lia).
      rewrite (seq_shift_fmap (λ j, mmap_ret e (k + j))
                 (λ j, mmap_ret e (S k + j)))
        by (intros j; f_equal; lia).
      by rewrite (wrap64_succ c (length bufs)).
    + rewrite Hmapped, mapped_app. cbn [length seq fmap list_fmap].
      rewrite <- app_assoc. f_equal. unfold mapped at 1.
      cbn [omap list_omap].
      destruct (Z.eqb_spec (mmap_ret e k) MAP_FAILED) as [?|_]; [done|].
      rewrite Nat.add_0_r. cbn [app]. f_equal.
      symmetry. apply seq_shift_fmap. intros j. do 2 f_equal. lia.
    + intros [|j] planes' Hj.
      * injection Hj as <-. exists y_plane.
        rewrite Nat.add_0_r, Z.add_0_r, (wrap64_small c) by done.
        split; [done|]. split; [done|].
        split; (apply elem_of_app; left; apply elem_of_app; right).
        { right. by left. }
        right. right. by left.
      * destruct (Hplanes j planes' Hj) as (y' & Hy' & Hm' & Hadd & Hin).
        exists y'. replace (k + S j) with (S k + j) by lia.
        rewrite <- wrap64_succ. done.
    + eexists. by rewrite <- app_assoc.
Qed.

End request_loop.

(** ** The constructor *)

Lemma unmapped_none (evs : list cam_event) :
  forallb (λ ev, negb (is_munmap ev)) evs = true → unmapped evs = [].
Proof.
  intros H. apply omap_nil_elem. intros ev Hev.
  apply (forallb_elem_true _ _ _ H) in Hev. by destruct ev.
Qed.

Section constructor.

Variable size_bits : Z.

(** A constructor that throws nothing has passed every check, and has
    run its loop to the end. *)
Lemma ctor_done (e : cam_env) (tr tr' : list cam_event)
    (h : camera_handler_t) :
  camera_handler_t_ctor size_bits e tr = (tr', Done h) →
  validate_ret e 0 ≠ Invalid
  ∧ validate_ret e 1 ≠ Adjusted
  ∧ popen_ret e ≠ 0%Z
  ∧ ∃ c evs,
      for_each (request_loop_body e (initial_handler size_bits e)) 0
        (stream_buffers e) (0%Z, [], [])
        (tr ++ before_validate e ++ before_requests)
      = (evs, Done (c, requests_ h, mmap_buffers_ h))
      ∧ tr' = evs ++ after_requests e
      ∧ h = CameraHandler
              (y_plane_bytes_ (initial_handler size_bits e))
              (u_plane_bytes_ (initial_handler size_bits e))
              (v_plane_bytes_ (initial_handler size_bits e))
              (frame_bytes_ (initial_handler size_bits e))
              (requests_ h) (mmap_buffers_ h) 0 (popen_ret e).
Proof.
  unfold camera_handler_t_ctor. cbv zeta.
  unfold cam_bind, emit, log_and_throw, cam_ret.
  destruct (cm_start_ret e <? 0)%Z; [discriminate|].
  destruct (cameras_size e =? 0); [discriminate|].
  destruct (cm_get_ret e); cbn [negb]; [|discriminate].
  destruct (acquire_ret e <? 0)%Z; [discriminate|].
  destruct (generateConfiguration_ret e); cbn [negb]; [|discriminate].
  (destruct (validate_ret e 0) eqn:Hv0; [| |discriminate]);
    (destruct (validate_ret e 1) eqn:Hv1; [|discriminate|]);
    (destruct (configure_ret e <? 0)%Z; [discriminate|]);
    (destruct (allocate_ret e <? 0)%Z; [discriminate|]);
    rewrite <- !app_assoc; cbn [app];
    (destruct (for_each _ _ _ _ _) as [evs [[[c reqs] maps]| |]] eqn:Hloop;
       [|discriminate..]);
    (destruct (camera_start_ret e <? 0)%Z; [discriminate|]);
    (destruct (Z.eqb_spec (popen_ret e) 0) as [?|Hp]; [discriminate|]);
    intros [= <- <-]; (split; [done|]); (split; [done|]);
    (split; [done|]); exists c, evs; cbn [requests_ mmap_buffers_];
    (split; [done|]); (split; [|done]);
    unfold after_requests; by rewrite <- !app_assoc.
Qed.

(** What a constructor that throws nothing leaves in the handler and in
    the trace. *)
Lemma ctor_handler (e : cam_env) (tr tr' : list cam_event)
    (h : camera_handler_t) :
  camera_handler_t_ctor size_bits e tr = (tr', Done h) →
  let n := length (stream_buffers e) in
  requests_ h = (λ j, Request (wrap64 (Z.of_nat j)) j) <$> seq 0 n
  ∧ mmap_buffers_ h = mmap_ret e <$> seq 0 n
  ∧ next_req_idx_ h = 0
  ∧ ffmpeg_ h = popen_ret e
  ∧ popen_ret e ≠ 0%Z
  ∧ frame_bytes_ h = frame_bytes_ (initial_handler size_bits e)
  ∧ mapped tr' = mapped tr ++ ((λ j, (mmap_ret e j, frame_bytes_ h))
                                 <$> seq 0 n)
  ∧ unmapped tr' = unmapped tr
  ∧ ∀ j planes, stream_buffers e !! j = Some planes →
      ∃ y_plane,
        planes !! 0 = Some y_plane
        ∧ mmap_ret e j ≠ MAP_FAILED
        ∧ CamAddBuffer (wrap64 (Z.of_nat j)) j ∈ tr'
        ∧ CamMmap (frame_bytes_ h) (plane_fd y_plane)
            (plane_offset y_plane) (mmap_ret e j) ∈ tr'.
Proof.
  intros Hctor n.
  apply ctor_done in Hctor
    as (_ & _ & Hp & c & evs & Hloop & -> & Hh).
  pose proof (request_loop_unmapped e (initial_handler size_bits e)
                (stream_buffers e) 0 (0%Z, [], [])
                (tr ++ before_validate e ++ before_requests))
    as (evs' & Hevs' & Hquiet).
  rewrite Hloop in Hevs'. cbn [fst] in Hevs'.
  apply request_loop_done in Hloop
    as ([= Hc Hreqs Hmaps] & Hmapped & Hplanes & _);
    [|unfold is_u64; lia].
  assert (Hfb : frame_bytes_ h = frame_bytes_ (initial_handler size_bits e))
    by (by rewrite Hh).
  split; [by rewrite Hreqs|].
  split; [by rewrite Hmaps|]. split; [by rewrite Hh|].
  split; [by rewrite Hh|]. split; [done|]. split; [done|].
  split.
  { rewrite mapped_app, Hmapped, mapped_app, Hfb.
    assert (mapped (before_validate e ++ before_requests) = []) as ->
      by done.
    assert (mapped (after_requests e) = []) as -> by done.
    by rewrite !app_nil_r. }
  split.
  { rewrite Hevs', !unmapped_app, (unmapped_none evs' Hquiet).
    assert (unmapped (before_validate e) = []) as -> by done.
    assert (unmapped before_requests = []) as -> by done.
    assert (unmapped (after_requests e) = []) as -> by done.
    by rewrite !app_nil_r. }
  intros j planes Hj.
  destruct (Hplanes j planes Hj) as (y_plane & Hy & Hm & Hadd & Hin).
  exists y_plane. cbn [Nat.add Z.add] in *. rewrite Hfb.
  split; [done|]. split; [done|].
  split; apply elem_of_app; by left.
Qed.

End constructor.

Section handler.

Variable size_bits : Z.

(** X15. In a handler that the constructor has made, the cookie of
    every request is the position of the mapping of the buffer that was
    added to the request: when such a request completes,
    [request_complete] logs, writes to ffmpeg the [frame_bytes_] bytes
    of the region that was mapped for the first plane of that buffer,
    and re-arms the request; when the request was cancelled it does
    nothing. It never indexes [mmap_buffers_] out of bounds. *)
Theorem completed_request_writes_its_buffer (e : cam_env)
    (tr tr' tr2 : list cam_event) (h : camera_handler_t) (r : request)
    (status : request_status) :
  camera_handler_t_ctor size_bits e tr = (tr', Done h) →
  (Z.of_nat (length (stream_buffers e)) ≤ 2 ^ 64)%Z →
  r ∈ requests_ h →
  ∃ planes y_plane,
    stream_buffers e !! buffer r = Some planes
    ∧ planes !! 0 = Some y_plane
    ∧ CamAddBuffer (cookie r) (buffer r) ∈ tr'
    ∧ CamMmap (frame_bytes_ h) (plane_fd y_plane) (plane_offset y_plane)
        (mmap_ret e (buffer r)) ∈ tr'
    ∧ request_complete h status r tr2
      = match status with
        | RequestCancelled => (tr2, Done ())
        | _ =>
            (tr2 ++ [CamLog INFO "Request completed";
                     CamFwrite (mmap_ret e (buffer r)) (frame_bytes_ h)
                       (ffmpeg_ h);
                     CamReuse (cookie r)],
             Done ())
        end.
Proof.
  intros Hctor Hlen Hr.
  destruct (ctor_handler size_bits e tr tr' h Hctor)
    as (Hreqs & Hmaps & _ & _ & _ & _ & _ & _ & Hplanes).
  rewrite Hreqs in Hr. apply list_elem_of_fmap in Hr as (j & -> & Hj).
  apply elem_of_seq in Hj as [_ Hj]. cbn [Nat.add] in Hj.
  destruct (lookup_lt_is_Some_2 (stream_buffers e) j Hj) as [planes Hpl].
  destruct (Hplanes j planes Hpl) as (y_plane & Hy & _ & Hadd & Hin).
  exists planes, y_plane. cbn [buffer cookie].
  assert (Hc : wrap64 (Z.of_nat j) = Z.of_nat j)
    by (apply wrap64_small; unfold is_u64; lia).
  rewrite Hc in *.
  split; [done|]. split; [done|]. split; [done|]. split; [done|].
  unfold request_complete, cam_bind, emit, cam_ret. cbn [cookie].
  rewrite Hmaps, Nat2Z.id, list_lookup_fmap, lookup_seq_lt by done.
  cbn [fmap option_fmap option_map Nat.add].
  destruct status; by rewrite <- ?app_assoc.
Qed.

End handler.

(** ** [queue_request] *)

Lemma queue_request_ok (ret : Z) (h : camera_handler_t)
    (tr : list cam_event) :
  next_req_idx_ h < length (requests_ h) →
  (0 ≤ ret)%Z →
  queue_request ret h tr
  = (tr ++ [CamQueueRequest (cookie_at h (next_req_idx_ h))],
     Done (set_next_req_idx
             (S (next_req_idx_ h) mod length (requests_ h)) h)).
Proof.
  intros Hlt Hret. unfold queue_request, cookie_at.
  destruct (lookup_lt_is_Some_2 (requests_ h) _ Hlt) as [r ->].
  unfold cam_bind, emit, cam_ret. cbn [from_option].
  by destruct (Z.ltb_spec ret 0) as [?|_]; [lia|].
Qed.

(** X16. From a handler whose index is within [requests_], calls of
    [queue_request] that the camera accepts queue the requests in the
    order of the vector, starting at the index and going round; the
    index stays within the vector, and no call indexes out of bounds or
    throws. *)
Theorem queue_request_goes_round (rets : list Z) (h : camera_handler_t)
    (tr : list cam_event) :
  next_req_idx_ h < length (requests_ h) →
  Forall (λ ret, (0 ≤ ret)%Z) rets →
  let n := length (requests_ h) in
  queue_requests rets h tr
  = (tr ++ ((λ j, CamQueueRequest
                    (cookie_at h ((next_req_idx_ h + j) mod n)))
              <$> seq 0 (length rets)),
     Done (set_next_req_idx ((next_req_idx_ h + length rets) mod n) h))
  ∧ (next_req_idx_ h + length rets) mod n < n.
Proof.
  intros Hlt Hrets n. split; [|apply Nat.mod_upper_bound; unfold n; lia].
  revert h tr Hlt n. induction Hrets as [|ret rets Hret _ IH];
    intros h tr Hlt n.
  - cbn [queue_requests length seq fmap list_fmap].
    rewrite app_nil_r, Nat.add_0_r, Nat.mod_small by done.
    unfold cam_ret. by destruct h.
  - cbn [queue_requests]. unfold cam_bind.
    rewrite queue_request_ok by done. fold n.
    set (h1 := set_next_req_idx (S (next_req_idx_ h) mod n) h).
    assert (Hlt1 : next_req_idx_ h1 < length (requests_ h1)).
    { cbn. apply Nat.mod_upper_bound. unfold n. lia. }
    rewrite (IH h1 _ Hlt1).
    change (length (requests_ h1)) with n.
    change (next_req_idx_ h1) with (S (next_req_idx_ h) mod n).
    rewrite <- app_assoc. cbn [length seq fmap list_fmap app].
    rewrite Nat.add_0_r, (Nat.mod_small (next_req_idx_ h)) by done.
    f_equal.
    + do 2 f_equal.
      rewrite <- fmap_S_seq, <- list_fmap_compose.
      apply list_fmap_ext. intros i j _. cbn.
      unfold cookie_at. cbn [requests_ h1 set_next_req_idx].
      do 3 f_equal. rewrite Nat.Div0.add_mod_idemp_l. f_equal. lia.
    + f_equal. unfold h1, set_next_req_idx. cbn. f_equal.
      rewrite Nat.Div0.add_mod_idemp_l. f_equal. lia.
Qed.

(** ** The destructor *)

Lemma munmap_loop (len : Z) (l : list Z) (k : nat) (tr : list cam_event) :
  for_each (λ _ data _, emit (CamMunmap data len)) k l () tr
  = (tr ++ ((λ data, CamMunmap data len) <$> l), Done ()).
Proof.
  revert k tr. induction l as [|a l IH]; intros k tr.
  - cbn. by rewrite app_nil_r.
  - cbn [for_each]. unfold cam_bind, emit at 1. rewrite IH.
    cbn [fmap list_fmap]. by rewrite <- app_assoc.
Qed.

Lemma dtor_trace (h : camera_handler_t) (tr : list cam_event) :
  camera_handler_t_dtor h tr
  = (tr ++ [CamStop]
        ++ ((λ data, CamMunmap data (frame_bytes_ h)) <$> mmap_buffers_ h)
        ++ [CamAllocatorFree; CamRelease; CamManagerStop]
        ++ (if (ffmpeg_ h =? 0)%Z then [] else [CamPclose (ffmpeg_ h)]),
     Done ()).
Proof.
  unfold camera_handler_t_dtor, cam_bind. unfold emit at 1.
  rewrite munmap_loop. unfold emit, cam_ret.
  destruct (ffmpeg_ h =? 0)%Z; cbn [negb]; by rewrite <- !app_assoc.
Qed.

(** X18. When the constructor has made a handler, the destructor unmaps
    exactly the regions the constructor has mapped, each once, with the
    length it was mapped with and in the order of the mapping, and
    closes the pipe to ffmpeg last. *)
Theorem destructor_unmaps_what_was_mapped (size_bits : Z) (e : cam_env)
    (tr : list cam_event) (h : camera_handler_t) :
  camera_handler_t_ctor size_bits e [] = (tr, Done h) →
  ∃ tr',
    camera_handler_t_dtor h tr = (tr', Done ())
    ∧ mapped tr' = (λ data, (data, frame_bytes_ h)) <$> mmap_buffers_ h
    ∧ unmapped tr' = mapped tr'
    ∧ last tr' = Some (CamPclose (popen_ret e)).
Proof.
  intros Hctor.
  destruct (ctor_handler size_bits e [] tr h Hctor)
    as (_ & Hmaps & _ & Hf & Hp & _ & Hmapped & Hunmapped & _).
  eexists. split; [apply dtor_trace|].
  rewrite Hf. destruct (Z.eqb_spec (popen_ret e) 0) as [?|_]; [done|].
  assert (Hm : ∀ l : list Z,
            mapped ((λ data, CamMunmap data (frame_bytes_ h)) <$> l) = []
            ∧ unmapped ((λ data, CamMunmap data (frame_bytes_ h)) <$> l)
              = (λ data, (data, frame_bytes_ h)) <$> l).
  { induction l as [|a l [IH1 IH2]]; [done|]. split; [done|].
    cbn [fmap list_fmap]. unfold unmapped in *. cbn [omap list_omap].
    f_equal. exact IH2. }
  destruct (Hm (mmap_buffers_ h)) as [Hm1 Hm2].
  split; [|split]; [| |rewrite !app_assoc; apply last_snoc].
  - rewrite !mapped_app, Hmapped, Hm1. cbn [mapped omap list_omap app].
    by rewrite !app_nil_r, Hmaps, <- list_fmap_compose.
  - rewrite !mapped_app, !unmapped_app, Hmapped, Hunmapped, Hm1, Hm2.
    cbn [mapped unmapped omap list_omap app].
    by rewrite !app_nil_r, Hmaps, <- list_fmap_compose.
Qed.

(** ** What the constructor adds to the trace *)

Lemma cam_bind_emit {A : Type} (ev : cam_event) (k : unit → Cam A)
    (tr : list cam_event) :
  cam_bind (emit ev) k tr = k () (tr ++ [ev]).
Proof. done. Qed.

Lemma quiet_ret {A : Type} (a : A) : quiet (cam_ret a).
Proof. intros tr. exists []. by rewrite app_nil_r. Qed.

Lemma quiet_undefined {A : Type} : quiet (@undefined A).
Proof. intros tr. exists []. by rewrite app_nil_r. Qed.

Lemma quiet_emit (ev : cam_event) : is_munmap ev = false → quiet (emit ev).
Proof. intros H tr. exists [ev]. cbn. by rewrite H. Qed.

Lemma quiet_throw {A : Type} (err : string) : quiet (@log_and_throw A err).
Proof. intros tr. by exists [CamLog ERROR err]. Qed.

Lemma quiet_bind {A B : Type} (m : Cam A) (f : A → Cam B) :
  quiet m → (∀ a, quiet (f a)) → quiet (cam_bind m f).
Proof.
  intros Hm Hf tr. unfold cam_bind.
  destruct (Hm tr) as (evs & Htr & Hev).
  destruct (m tr) as [tr1 [a| |]]; cbn [fst] in Htr; subst tr1;
    [|by exists evs..].
  destruct (Hf a (tr ++ evs)) as (evs' & -> & Hev').
  exists (evs ++ evs'). split; [by rewrite app_assoc|].
  by rewrite forallb_app, Hev, Hev'.
Qed.

Lemma quiet_request_loop (e : cam_env) (h : camera_handler_t)
    (bufs : list (list plane)) (k : nat) (s : Z * list request * list Z) :
  quiet (for_each (request_loop_body e h) k bufs s).
Proof. intros tr. apply request_loop_unmapped. Qed.

Ltac quiet_step :=
  first
    [ apply quiet_ret
    | apply quiet_throw
    | apply quiet_undefined
    | apply quiet_emit; reflexivity
    | apply quiet_request_loop
    | apply quiet_bind; [|intros ?]
    | match goal with
      | |- quiet (if ?c then _ else _) => destruct c
      | |- quiet (match ?x with _ => _ end) => destruct x
      end ].

Lemma quiet_ctor (size_bits : Z) (e : cam_env) :
  quiet (camera_handler_t_ctor size_bits e).
Proof. unfold camera_handler_t_ctor. cbv zeta. repeat quiet_step. Qed.

(** X19. The constructor unmaps nothing, also when it throws: what it
    has done is what was done before it, followed by events of which
    none is a [munmap], so the regions it has mapped before a step
    fails stay mapped when it throws. *)
Theorem constructor_never_unmaps (size_bits : Z) (e : cam_env)
    (tr : list cam_event) :
  ∃ evs,
    fst (camera_handler_t_ctor size_bits e tr) = tr ++ evs
    ∧ unmapped evs = []
    ∧ unmapped (fst (camera_handler_t_ctor size_bits e tr)) = unmapped tr.
Proof.
  destruct (quiet_ctor size_bits e tr) as (evs & Htr & Hev).
  exists evs. split; [done|].
  pose proof (unmapped_none evs Hev) as Hun. split; [done|].
  by rewrite Htr, unmapped_app, Hun, app_nil_r.
Qed.

(** X20. When the calls before the validation succeed, the constructor
    calls [validate()] a second time unless the first call says
    [Invalid]; it throws when the first call says [Invalid] and when
    the second says [Adjusted], and in every other case, so when the
    first call says [Adjusted] and the second [Valid], it goes on to
    configure the camera. *)
Theorem configuration_validated_twice (size_bits : Z) (e : cam_env)
    (tr : list cam_event) :
  before_loop_ok e →
  let r := camera_handler_t_ctor size_bits e tr in
  (validate_ret e 0 = Invalid →
   r = (tr ++ before_validate e
           ++ [CamLog ERROR
                 "Invalid camera configuration, unable to adjust"],
        Thrown "Invalid camera configuration, unable to adjust"))
  ∧ (validate_ret e 0 ≠ Invalid → validate_ret e 1 = Adjusted →
     r = (tr ++ before_validate e
             ++ [CamValidate;
                 CamLog ERROR "Invalid camera configuration, adjusted"],
          Thrown "Invalid camera configuration, adjusted"))
  ∧ (validate_ret e 0 ≠ Invalid → validate_ret e 1 ≠ Adjusted →
     ∃ evs, fst r = tr ++ before_validate e
                       ++ [CamValidate; CamConfigure] ++ evs).
Proof.
  intros (Hcm & Hcams & Hget & Hacq & Hgen) r. subst r.
  unfold camera_handler_t_ctor. cbv zeta.
  rewrite cam_bind_emit.
  destruct (Z.ltb_spec (cm_start_ret e) 0) as [?|_]; [lia|].
  destruct (Nat.eqb_spec (cameras_size e) 0) as [?|_]; [done|].
  rewrite Hget. cbn [negb]. rewrite cam_bind_emit.
  destruct (Z.ltb_spec (acquire_ret e) 0) as [?|_]; [lia|].
  rewrite Hgen. cbn [negb]. rewrite !cam_bind_emit.
  rewrite <- !app_assoc. cbn [app]. fold (before_validate e).
  split; [|split].
  - intros ->. unfold log_and_throw. by rewrite <- app_assoc.
  - intros Hv0 ->.
    destruct (validate_ret e 0); [| |done];
      rewrite cam_bind_emit; unfold log_and_throw;
      by rewrite <- !app_assoc.
  - intros Hv0 Hv1.
    destruct (validate_ret e 0); [| |done];
      (destruct (validate_ret e 1); [|done|]);
      rewrite !cam_bind_emit;
      match goal with
      | |- ∃ evs, fst (?m ?t) = _ =>
          assert (Hq : quiet m) by (repeat quiet_step);
          destruct (Hq t) as (evs & Hevs & _); exists evs; rewrite Hevs
      end;
      by rewrite <- !app_assoc.
Qed.

(** X17. The constructor does not ask for a buffer: when its calls
    succeed and the stream has no buffer it makes a handler all the
    same, with no request in it, and a call of [queue_request] on this
    handler then reads [requests_[0]] of an empty vector. *)
Theorem queue_request_without_buffers (size_bits : Z) (e : cam_env)
    (tr : list cam_event) :
  calls_ok e →
  stream_buffers e = [] →
  ∃ tr' h,
    camera_handler_t_ctor size_bits e tr = (tr', Done h)
    ∧ requests_ h = []
    ∧ ∀ ret tr2, queue_request ret h tr2 = (tr2, Undefined).
Proof.
  intros ((Hcm & Hcams & Hget & Hacq & Hgen) & Hv0 & Hv1 & Hconf & Halloc
          & Hstart & Hpopen) Hnone.
  unfold camera_handler_t_ctor. cbv zeta.
  rewrite cam_bind_emit.
  destruct (Z.ltb_spec (cm_start_ret e) 0) as [?|_]; [lia|].
  destruct (Nat.eqb_spec (cameras_size e) 0) as [?|_]; [done|].
  rewrite Hget. cbn [negb]. rewrite cam_bind_emit.
  destruct (Z.ltb_spec (acquire_ret e) 0) as [?|_]; [lia|].
  rewrite Hgen, Hnone. cbn [negb]. rewrite !cam_bind_emit.
  destruct (validate_ret e 0); [| |done];
    (destruct (validate_ret e 1); [|done|]);
    rewrite !cam_bind_emit;
    (destruct (Z.ltb_spec (configure_ret e) 0) as [?|_]; [lia|]);
    rewrite cam_bind_emit;
    (destruct (Z.ltb_spec (allocate_ret e) 0) as [?|_]; [lia|]);
    cbn [for_each]; unfold cam_bind at 1; unfold cam_ret at 1;
    rewrite !cam_bind_emit;
    (destruct (Z.ltb_spec (camera_start_ret e) 0) as [?|_]; [lia|]);
    rewrite cam_bind_emit;
    (destruct (Z.eqb_spec (popen_ret e) 0) as [?|_]; [done|]);
    eexists _, _; (split; [reflexivity|]); (split; [reflexivity|]);
    intros ret tr2; reflexivity.
Qed.

(** ** The byte counts *)

Lemma wrap32_mul (a b : Z) : wrap32 (wrap32 a * wrap32 b) = wrap32 (a * b).
Proof. unfold wrap32. by rewrite <- Zmult_mod. Qed.

Section sizes.

Variable size_bits : Z.
Hypothesis Hbits : (32 ≤ size_bits)%Z.

Lemma wrap_size_small (z : Z) :
  (0 ≤ z < 2 ^ 32)%Z → wrap_size size_bits z = z.
Proof.
  intros Hz. unfold wrap_size. apply Z.mod_small.
  pose proof (Z.pow_le_mono_r 2 32 size_bits ltac:(lia) Hbits). lia.
Qed.

(** X21. When the byte counts have at least 32 bits and the number of
    pixels of a frame is a non-negative [int], that is, below 2^31, where
    the server's product of line 92 does not overflow, the handler
    counts [width * height] bytes for the Y plane, a quarter of it,
    rounded down, for each of the U and V planes, and their sum for a
    frame. This is never more than the size of a decoded frame buffer
    of the server for the same width and height, and it is that size
    exactly when the number of pixels leaves a remainder of 0 or 1 when
    divided by 4. *)
Theorem frame_bytes_and_decoded_frame_size (e : cam_env)
    (tr tr' : list cam_event) (h : camera_handler_t) :
  camera_handler_t_ctor size_bits e tr = (tr', Done h) →
  let width := get_int e "FRAME_WIDTH" in
  let height := get_int e "FRAME_HEIGHT" in
  (0 ≤ width * height < 2 ^ 31)%Z →
  y_plane_bytes_ h = (width * height)%Z
  ∧ u_plane_bytes_ h = (width * height / 4)%Z
  ∧ v_plane_bytes_ h = (width * height / 4)%Z
  ∧ frame_bytes_ h = (width * height + 2 * (width * height / 4))%Z
  ∧ decoded_frame_buf_size width height = (width * height * 3 / 2)%Z
  ∧ (frame_bytes_ h ≤ decoded_frame_buf_size width height)%Z
  ∧ (frame_bytes_ h = decoded_frame_buf_size width height
     ↔ ((width * height) mod 4 ≤ 1)%Z).
Proof.
  intros Hctor width height [H0 Hint].
  assert (Hlt : (width * height * 3 / 2 < 2 ^ 32)%Z)
    by (apply Z.div_lt_upper_bound; lia).
  apply ctor_done in Hctor as (_ & _ & _ & c & evs & _ & _ & ->).
  cbn [y_plane_bytes_ u_plane_bytes_ v_plane_bytes_ frame_bytes_
       initial_handler].
  fold width height.
  assert (Hy : y_plane_bytes size_bits (wrap32 width) (wrap32 height)
               = (width * height)%Z).
  { unfold y_plane_bytes. rewrite wrap32_mul.
    assert (wrap32 (width * height) = (width * height)%Z) as ->.
    { unfold wrap32. apply Z.mod_small. Z.div_mod_to_equations. lia. }
    apply wrap_size_small. Z.div_mod_to_equations. lia. }
  assert (Hu : u_plane_bytes size_bits (wrap32 width) (wrap32 height)
               = (width * height / 4)%Z).
  { unfold u_plane_bytes. by rewrite Hy. }
  assert (Hf : frame_bytes size_bits (wrap32 width) (wrap32 height)
               = (width * height + 2 * (width * height / 4))%Z).
  { unfold frame_bytes. rewrite Hy, Hu.
    rewrite (wrap_size_small (width * height + width * height / 4))
      by (Z.div_mod_to_equations; lia).
    rewrite wrap_size_small by (Z.div_mod_to_equations; lia). lia. }
  assert (Hd : decoded_frame_buf_size width height
               = (width * height * 3 / 2)%Z).
  { unfold decoded_frame_buf_size. apply wrap64_small. unfold is_u64.
    Z.div_mod_to_equations. lia. }
  rewrite Hy, Hu, Hf, Hd.
  split; [done|]. split; [done|]. split; [done|]. split; [done|].
  split; [done|].
  clear Hy Hu Hf Hd Hlt. generalize dependent (width * height)%Z.
  intros y _ _. split; [|split]; Z.div_mod_to_equations; lia.
Qed.

End sizes.

(** ** The further theorems at concrete inputs *)

Lemma s2_unsigned : unsigned_supply 2 s2_filled.
Proof.
  intros i k f Hi H. destruct i as [|[|i]]; [| |lia]; simpl in H.
  - destruct k as [|[|[|[|k]]]]; simpl in H; try done;
      injection H as <-; unfold is_u64; simpl; lia.
  - destruct k as [|[|[|k]]]; simpl in H; try done;
      injection H as <-; unfold is_u64; simpl; lia.
Defined.

Lemma s2_aligned : aligned_supply 2 s2_filled [200; 300; 400]%Z.
Proof.
  split.
  - apply SSorted_cons.
    + apply SSorted_cons.
      * apply SSorted_cons; [apply SSorted_nil | constructor].
      * constructor; [lia | constructor].
    + constructor; [lia|]. constructor; [lia | constructor].
  - intros T HT i Hi.
    apply elem_of_cons in HT as [->|HT];
      [|apply elem_of_cons in HT as [->|HT];
        [|apply list_elem_of_singleton in HT as ->]];
      (destruct i as [|[|i]]; [| |lia]).
    + exists 1, (TsFrameBuf 200 (s2_buf 0 1)). split; reflexivity.
    + exists 0, (TsFrameBuf 200 (s2_buf 1 0)). split; reflexivity.
    + exists 2, (TsFrameBuf 300 (s2_buf 0 2)). split; reflexivity.
    + exists 1, (TsFrameBuf 300 (s2_buf 1 1)). split; reflexivity.
    + exists 3, (TsFrameBuf 400 (s2_buf 0 3)). split; reflexivity.
    + exists 2, (TsFrameBuf 400 (s2_buf 1 2)). split; reflexivity.
Defined.

Lemma s2_no_gap : no_gap 2 s2_filled [200; 300; 400]%Z.
Proof.
  intros t T Ht _ _. destruct (Ht 1 ltac:(lia)) as (k & f & Hf & <-).
  simpl in Hf.
  destruct k as [|[|[|k]]]; simpl in Hf; try done; injection Hf as <-;
    simpl.
  - by left.
  - right. by left.
  - right. right. by left.
Defined.

Lemma s2_emitted_2 :
  emitted (fst (main 2 (env_ok s2_filled))) = [200]%Z.
Proof. vm_compute. reflexivity. Defined.

Lemma logged_timestamp_was_yielded_witness :
  200%Z ∈ emitted (fst (main 2 (env_ok s2_filled)))
  ∧ ∃ tr0 ret st evs,
      main_startup (env_ok s2_filled) = inr (tr0, ret)
      ∧ sync_loop 2 s2_filled 2 (sync_init 2 tr0) = Some st
      ∧ trace st = tr0 ++ evs
      ∧ ∀ i, i < 2 →
          ∃ c k f, dq_calls st !! i = Some c ∧ k < c
                   ∧ s2_filled i k = Some f ∧ timestamp f = 200%Z
                   ∧ Some f ∈ enqueued i evs.
Proof.
  assert (H : 200%Z ∈ emitted (fst (main 2 (env_ok s2_filled)))).
  { rewrite s2_emitted_2. by left. }
  split; [exact H|].
  exact (logged_timestamp_was_yielded 2 (env_ok s2_filled) 200 H).
Defined.

Lemma no_common_timestamp_skipped_witness :
  increasing_supply 2 s2_filled
  ∧ unsigned_supply 2 s2_filled
  ∧ no_gap 2 s2_filled (emitted (fst (main 4 (env_ok s2_filled)))).
Proof.
  split; [exact s2_increasing|]. split; [exact s2_unsigned|].
  exact (no_common_timestamp_skipped 4 (env_ok s2_filled) s2_increasing
           s2_unsigned).
Defined.

Lemma first_common_timestamps_logged_witness :
  startup_ok (env_ok s2_filled)
  ∧ increasing_supply 2 s2_filled
  ∧ unsigned_supply 2 s2_filled
  ∧ aligned_supply 2 s2_filled [200; 300; 400]%Z
  ∧ no_gap 2 s2_filled [200; 300; 400]%Z
  ∧ length [200; 300; 400]%Z ≤ 100
  ∧ ∃ fuel,
      emitted (fst (main fuel (env_ok s2_filled))) = [200; 300; 400]%Z
      ∧ ∀ extra, ∃ later,
          emitted (fst (main (fuel + extra) (env_ok s2_filled)))
          = [200; 300; 400]%Z ++ later.
Proof.
  assert (Hlen : length [200; 300; 400]%Z ≤ 100) by (simpl; lia).
  split; [exact (env_ok_startup s2_filled)|].
  split; [exact s2_increasing|]. split; [exact s2_unsigned|].
  split; [exact s2_aligned|]. split; [exact s2_no_gap|].
  split; [exact Hlen|].
  exact (first_common_timestamps_logged (env_ok s2_filled)
           [200; 300; 400]%Z (env_ok_startup s2_filled) s2_increasing
           s2_unsigned s2_aligned s2_no_gap Hlen).
Defined.

Lemma env_ok_fits (filled : nat → nat → option ts_frame_buf) :
  count_fits (env_ok filled).
Proof. reflexivity. Defined.

Lemma main_never_faults_witness :
  count_fits (env_ok s2_filled)
  ∧ snd (main 4 (env_ok s2_filled)) ≠ Fault.
Proof.
  split; [exact (env_ok_fits s2_filled)|].
  exact (main_never_faults 4 (env_ok s2_filled) (env_ok_fits s2_filled)).
Defined.


Lemma lifecycle_of_a_clean_run_witness :
  startup_ok (env_ok grid_supply)
  ∧ snd (main 100 (env_ok grid_supply)) = Returned 0
  ∧ ((snd (main 100 (env_ok grid_supply)) = Running
      ∧ lifecycle (fst (main 100 (env_ok grid_supply)))
        = spawned 0 2
          ++ [EvBroadcast 2
                (object_bytes sizeof_uint64
                   (start_anchor 1700000000 123456789))])
     ∨ (snd (main 100 (env_ok grid_supply)) = Returned 0
        ∧ lifecycle (fst (main 100 (env_ok grid_supply)))
          = spawned 0 2
            ++ [EvBroadcast 2
                  (object_bytes sizeof_uint64
                     (start_anchor 1700000000 123456789))]
            ++ [EvBroadcast 2 [83; 84; 79; 80]%Z]
            ++ map EvJoin (seq 0 2) ++ [EvFree 65536])).
Proof.
  split; [exact (env_ok_startup grid_supply)|].
  split; [vm_compute; reflexivity|].
  exact (lifecycle_of_a_clean_run 100 (env_ok grid_supply)
           (env_ok_startup grid_supply)).
Defined.

Lemma main_cpu_and_worker_cores_witness :
  startup_ok (env_ok s2_filled)
  ∧ pinned (fst (main 4 (env_ok s2_filled))) = [2%Z]
  ∧ worker_cores (fst (main 4 (env_ok s2_filled))) = [0; 1].
Proof.
  split; [exact (env_ok_startup s2_filled)|].
  pose proof (main_cpu_and_worker_cores 4 (env_ok s2_filled)
                (env_ok_startup s2_filled)) as H.
  cbv zeta in H. destruct H as (Hp & Hw & _).
  split; [exact Hp | exact Hw].
Defined.


Lemma env_spawn_fails_fits : count_fits env_spawn_fails.
Proof. reflexivity. Defined.

Lemma pool_freed_once_when_allocated_witness :
  count_fits env_spawn_fails
  ∧ snd (main 0 env_spawn_fails) = Returned EAGAIN
  ∧ allocated (fst (main 0 env_spawn_fails)) = [88473600%Z]
  ∧ freed (fst (main 0 env_spawn_fails)) = [65536%Z].
Proof.
  split; [exact env_spawn_fails_fits|].
  split; [vm_compute; reflexivity|].
  split; [vm_compute; reflexivity|].
  pose proof (pool_freed_once_when_allocated 0 env_spawn_fails
                env_spawn_fails_fits) as H.
  cbv zeta in H. destruct H as [_ H]. exact H.
Defined.

Lemma late_state_reached :
  iteration 3 late_supply (sync_init 3 []) = Some late_state.
Proof. reflexivity. Defined.

Lemma late_state_wf : wf_state 3 late_state.
Proof. split; reflexivity. Defined.

Lemma turn_with_an_empty_queue_witness :
  iteration 3 late_supply (sync_init 3 []) = Some late_state
  ∧ wf_state 3 late_state
  ∧ 2 < 3
  ∧ current_frames late_state !! 2 = Some None
  ∧ dq_calls late_state !! 2 = Some 1
  ∧ late_supply 2 1 = None
  ∧ ∃ st',
      iteration 3 late_supply late_state = Some st'
      ∧ trace st' = trace late_state
      ∧ complete_sets st' = complete_sets late_state
      ∧ (∀ j p d, current_frames late_state !! j = Some p →
           dq_calls late_state !! j = Some d →
           current_frames st' !! j
             = Some (match p with Some _ => p | None => late_supply j d end)
           ∧ dq_calls st' !! j
             = Some (match p with Some _ => d | None => S d end))
      ∧ current_frames st' !! 0 = Some (Some (TsFrameBuf 100 (s2_buf 0 0)))
      ∧ dq_calls st' !! 0 = Some 1
      ∧ current_frames st' !! 1 = Some (Some (TsFrameBuf 100 (s2_buf 1 0)))
      ∧ dq_calls st' !! 1 = Some 2
      ∧ current_frames st' !! 2 = Some None
      ∧ dq_calls st' !! 2 = Some 2.
Proof.
  assert (H2 : 2 < 3) by lia.
  split; [exact late_state_reached|].
  split; [exact late_state_wf|]. split; [exact H2|].
  split; [reflexivity|]. split; [reflexivity|]. split; [reflexivity|].
  destruct (turn_with_an_empty_queue 3 late_supply late_state 2 1
              late_state_wf H2 eq_refl eq_refl eq_refl)
    as (st' & Hit & Htr & Hcs & Hslots).
  exists st'. split; [exact Hit|]. split; [exact Htr|]. split; [exact Hcs|].
  split; [exact Hslots|].
  destruct (Hslots 0 (Some (TsFrameBuf 100 (s2_buf 0 0))) 1 eq_refl eq_refl)
    as [Hc0 Hd0].
  destruct (Hslots 1 None 1 eq_refl eq_refl) as [Hc1 Hd1].
  destruct (Hslots 2 None 1 eq_refl eq_refl) as [Hc2 Hd2].
  split; [exact Hc0|]. split; [exact Hd0|]. split; [exact Hc1|].
  split; [exact Hd1|]. split; [exact Hc2 | exact Hd2].
Defined.

Lemma first_set_within_bound_witness :
  startup_ok (env_ok s2_filled)
  ∧ increasing_supply 2 s2_filled
  ∧ unsigned_supply 2 s2_filled
  ∧ common_at 2 s2_filled (λ i, match i with 0 => 1 | _ => 0 end) 200
  ∧ ∃ fuel t,
      fuel ≤ 7
      ∧ emitted (fst (main fuel (env_ok s2_filled))) = [t]
      ∧ (t ≤ 200)%Z.
Proof.
  assert (HK : common_at 2 s2_filled (λ i, match i with 0 => 1 | _ => 0 end)
                 200).
  { intros i Hi. destruct i as [|[|i]]; [| |lia]; eexists;
      split; reflexivity. }
  split; [exact (env_ok_startup s2_filled)|].
  split; [exact s2_increasing|]. split; [exact s2_unsigned|].
  split; [exact HK|].
  exact (first_set_within_bound (env_ok s2_filled) _ 200
           (env_ok_startup s2_filled) s2_increasing s2_unsigned HK).
Defined.

Lemma env_spawn_fails_at_1 : spawn_fails_at env_spawn_fails 1.
Proof.
  unfold spawn_fails_at. cbn.
  split; [done|]. split; [lia|]. split; [exact env_spawn_fails_fits|].
  split; [done|]. split; [done|]. split; [done|]. split; [lia|].
  split; [|done]. intros i Hi. destruct i as [|i]; [done | lia].
Defined.

Lemma spawn_failure_at_any_worker_witness :
  spawn_fails_at env_spawn_fails 1
  ∧ snd (main 0 env_spawn_fails) = Returned EAGAIN
  ∧ EAGAIN ≠ 0%Z
  ∧ lifecycle (fst (main 0 env_spawn_fails))
    = [EvSpawn 0 0; EvFree 65536].
Proof.
  split; [exact env_spawn_fails_at_1|].
  exact (spawn_failure_at_any_worker 0 env_spawn_fails 1
           env_spawn_fails_at_1).
Defined.

Lemma log_closed_once_on_return_witness :
  count_fits env_zero_cameras
  ∧ snd (main 0 env_zero_cameras) = Returned 0
  ∧ ((setup_logging_ret env_zero_cameras ≠ 0%Z
      ∧ fst (main 0 env_zero_cameras) = [EvPrintf])
     ∨ (setup_logging_ret env_zero_cameras = 0%Z
        ∧ cleanups (fst (main 0 env_zero_cameras)) = 1
        ∧ last (fst (main 0 env_zero_cameras)) = Some EvCleanupLogging)).
Proof.
  assert (Hfits : count_fits env_zero_cameras) by reflexivity.
  assert (Hret : snd (main 0 env_zero_cameras) = Returned 0)
    by reflexivity.
  split; [exact Hfits|]. split; [exact Hret|].
  exact (log_closed_once_on_return 0 env_zero_cameras 0 Hfits Hret).
Defined.

Lemma common_timestamp_logged_within_witness :
  startup_ok (env_ok s2_filled)
  ∧ increasing_supply 2 s2_filled
  ∧ unsigned_supply 2 s2_filled
  ∧ aligned_supply 2 s2_filled [200; 300; 400]%Z
  ∧ no_gap 2 s2_filled [200; 300; 400]%Z
  ∧ length [200; 300; 400]%Z ≤ 100
  ∧ 400%Z ∈ [200; 300; 400]%Z
  ∧ common_at 2 s2_filled (λ i, match i with 0 => 3 | _ => 2 end) 400
  ∧ ∃ fuel,
      fuel ≤ 15 ∧ 400%Z ∈ emitted (fst (main fuel (env_ok s2_filled))).
Proof.
  assert (Hlen : length [200; 300; 400]%Z ≤ 100) by (simpl; lia).
  assert (HT : 400%Z ∈ [200; 300; 400]%Z) by (right; right; left).
  assert (HK : common_at 2 s2_filled (λ i, match i with 0 => 3 | _ => 2 end)
                 400).
  { intros i Hi. destruct i as [|[|i]]; [| |lia]; eexists;
      split; reflexivity. }
  split; [exact (env_ok_startup s2_filled)|].
  split; [exact s2_increasing|]. split; [exact s2_unsigned|].
  split; [exact s2_aligned|]. split; [exact s2_no_gap|].
  split; [exact Hlen|]. split; [exact HT|]. split; [exact HK|].
  exact (common_timestamp_logged_within (env_ok s2_filled) _ 400
           [200; 300; 400]%Z (env_ok_startup s2_filled) s2_increasing
           s2_unsigned s2_aligned s2_no_gap Hlen HT HK).
Defined.

(** ** The theorems on the camera handler at concrete inputs *)

Lemma pi_ctor :
  camera_handler_t_ctor 64 (pi_env pi_buffers Valid Valid) []
  = (pi_trace, Done pi_handler).
Proof. vm_compute. reflexivity. Defined.

(** The constructor throws at the second buffer of [pi_odd_buffers],
    with the first one mapped and nothing unmapped. *)
Lemma pi_odd_ctor :
  snd (camera_handler_t_ctor 64 (pi_env pi_odd_buffers Valid Valid) [])
  = Thrown "Plane size does not match expected size"
  ∧ mapped (fst (camera_handler_t_ctor 64
                   (pi_env pi_odd_buffers Valid Valid) []))
    = [(65536, 1382400)]%Z
  ∧ unmapped (fst (camera_handler_t_ctor 64
                     (pi_env pi_odd_buffers Valid Valid) []))
    = [].
Proof. vm_compute. done. Defined.

Lemma completed_request_writes_its_buffer_witness :
  camera_handler_t_ctor 64 (pi_env pi_buffers Valid Valid) []
  = (pi_trace, Done pi_handler)
  ∧ (Z.of_nat (length pi_buffers) ≤ 2 ^ 64)%Z
  ∧ Request 1 1 ∈ requests_ pi_handler
  ∧ request_complete pi_handler RequestComplete (Request 1 1) []
    = ([CamLog INFO "Request completed"; CamFwrite 69632 1382400 1024;
        CamReuse 1],
       Done ()).
Proof.
  assert (Hlen : (Z.of_nat (length pi_buffers) ≤ 2 ^ 64)%Z)
    by (vm_compute; discriminate).
  assert (Hin : Request 1 1 ∈ requests_ pi_handler) by (right; left).
  split; [exact pi_ctor|]. split; [exact Hlen|]. split; [exact Hin|].
  destruct (completed_request_writes_its_buffer 64
              (pi_env pi_buffers Valid Valid) [] pi_trace []
              pi_handler (Request 1 1) RequestComplete pi_ctor Hlen Hin)
    as (planes & y_plane & _ & _ & _ & _ & H).
  exact H.
Defined.

Lemma queue_request_goes_round_witness :
  next_req_idx_ pi_handler < length (requests_ pi_handler)
  ∧ Forall (λ ret, (0 ≤ ret)%Z) [0; 0; 0]%Z
  ∧ queue_requests [0; 0; 0]%Z pi_handler []
    = ([CamQueueRequest 0; CamQueueRequest 1; CamQueueRequest 0],
       Done (set_next_req_idx 1 pi_handler)).
Proof.
  assert (Hlt : next_req_idx_ pi_handler < length (requests_ pi_handler))
    by (cbn; lia).
  assert (Hrets : Forall (λ ret, (0 ≤ ret)%Z) [0; 0; 0]%Z)
    by (repeat constructor; lia).
  split; [exact Hlt|]. split; [exact Hrets|].
  exact (proj1 (queue_request_goes_round [0; 0; 0]%Z pi_handler [] Hlt
                  Hrets)).
Defined.

Lemma pi_before_loop_ok (bufs : list (list plane))
    (v0 v1 : validate_status) :
  before_loop_ok (pi_env bufs v0 v1).
Proof. unfold before_loop_ok. cbn. repeat split; (lia || done). Defined.

Lemma pi_calls_ok (bufs : list (list plane)) :
  calls_ok (pi_env bufs Valid Valid).
Proof.
  split; [apply pi_before_loop_ok|]. cbn.
  repeat split; (lia || done).
Defined.

Lemma queue_request_without_buffers_witness :
  calls_ok (pi_env [] Valid Valid)
  ∧ stream_buffers (pi_env [] Valid Valid) = []
  ∧ ∃ tr' h,
      camera_handler_t_ctor 64 (pi_env [] Valid Valid) [] = (tr', Done h)
      ∧ requests_ h = []
      ∧ ∀ ret tr2, queue_request ret h tr2 = (tr2, Undefined).
Proof.
  split; [exact (pi_calls_ok [])|]. split; [reflexivity|].
  exact (queue_request_without_buffers 64 (pi_env [] Valid Valid) []
           (pi_calls_ok []) eq_refl).
Defined.

Lemma destructor_unmaps_what_was_mapped_witness :
  camera_handler_t_ctor 64 (pi_env pi_buffers Valid Valid) []
  = (pi_trace, Done pi_handler)
  ∧ ∃ tr',
      camera_handler_t_dtor pi_handler pi_trace = (tr', Done ())
      ∧ mapped tr' = [(65536, 1382400); (69632, 1382400)]%Z
      ∧ unmapped tr' = mapped tr'
      ∧ last tr' = Some (CamPclose 1024).
Proof.
  split; [exact pi_ctor|].
  exact (destructor_unmaps_what_was_mapped 64
           (pi_env pi_buffers Valid Valid) pi_trace pi_handler pi_ctor).
Defined.

Lemma configuration_validated_twice_witness :
  before_loop_ok (pi_env pi_buffers Adjusted Valid)
  ∧ validate_ret (pi_env pi_buffers Adjusted Valid) 0 = Adjusted
  ∧ (∃ evs,
       fst (camera_handler_t_ctor 64 (pi_env pi_buffers Adjusted Valid) [])
       = [] ++ before_validate (pi_env pi_buffers Adjusted Valid)
            ++ [CamValidate; CamConfigure] ++ evs)
  ∧ snd (camera_handler_t_ctor 64 (pi_env pi_buffers Adjusted Valid) [])
    = Done pi_handler.
Proof.
  split; [exact (pi_before_loop_ok pi_buffers Adjusted Valid)|].
  split; [reflexivity|].
  split; [|vm_compute; reflexivity].
  pose proof (configuration_validated_twice 64
                (pi_env pi_buffers Adjusted Valid) []
                (pi_before_loop_ok pi_buffers Adjusted Valid)) as H.
  cbv zeta in H. destruct H as (_ & _ & H).
  apply H; discriminate.
Defined.

Lemma frame_bytes_and_decoded_frame_size_witness :
  (32 ≤ 64)%Z
  ∧ camera_handler_t_ctor 64 (pi_env pi_buffers Valid Valid) []
    = (pi_trace, Done pi_handler)
  ∧ (0 ≤ 1280 * 720 < 2 ^ 31)%Z
  ∧ frame_bytes_ pi_handler = 1382400%Z
  ∧ decoded_frame_buf_size 1280 720 = 1382400%Z
  ∧ (frame_bytes_ pi_handler = decoded_frame_buf_size 1280 720
     ↔ ((1280 * 720) mod 4 ≤ 1)%Z).
Proof.
  assert (Hbits : (32 ≤ 64)%Z) by lia.
  assert (H0 : (0 ≤ 1280 * 720 < 2 ^ 31)%Z) by lia.
  split; [exact Hbits|]. split; [exact pi_ctor|]. split; [exact H0|].
  split; [reflexivity|]. split; [reflexivity|].
  pose proof (frame_bytes_and_decoded_frame_size 64 Hbits
                (pi_env pi_buffers Valid Valid) [] pi_trace pi_handler
                pi_ctor H0) as H.
  exact (proj2 (proj2 (proj2 (proj2 (proj2 (proj2 H)))))).
Defined.
